(** * AI_tutor backend: the render job lifecycle

    A shallow embedding of the validation service
    ([app/services/validation_service.py]), the job store
    ([app/services/job_store.py]) and the render pipeline
    ([app/services/render_service.py]), with the properties of the
    specification stated and settled against it; then the rate-limit
    middleware ([app/middleware.py]) and the routes that call these
    services ([app/routes.py], [app/routes_monitoring.py]), with further
    properties of the code.

    Conventions of the embedding.
    - A Python [str] is a [text]: the list of its code points, here the
      code points below 256, with Python's classification of each of them
      ([str.isspace], the [\s] and [\w] classes of [re], [str.lower]).
    - An exception is a value: a function that may raise returns an
      [outcome], and the render task runs in a state-and-exception monad
      over the [World] it acts on.
    - Clock readings are parameters.  [time.time()] is an integer number
      of seconds, a [datetime] an integer number of microseconds; the ISO
      string a job keeps in [created_at] is read back by
      [datetime.fromisoformat] to the instant it was made from, and the
      order of such strings is the order of the instants, so the field is
      kept as the instant.
    - A Python [float] is the binary64 value itself, a mantissa and an
      exponent; a division gives the value nearest to the exact quotient,
      as binary64 does. *)

From Stdlib Require Import ZArith NArith List String Ascii Bool Lia.
From Stdlib Require Import Sorting.Sorted Sorting.Permutation.
From stdpp Require Import gmap strings.
Import ListNotations.

Set Implicit Arguments.

(** ** Outcomes of code that may raise *)

Inductive outcome (E A : Type) : Type :=
| Raise (e : E)
| Return (a : A).
Arguments Raise {E A} e.
Arguments Return {E A} a.

Definition raises {E A} (o : outcome E A) : Prop :=
  match o with Raise _ => True | Return _ => False end.

(** ** Python strings *)

Definition text : Type := list ascii.

Module PyStr.

Definition txt (s : string) : text := list_ascii_of_string s.

Definition ord (c : ascii) : N := N_of_ascii c.

Definition between (lo hi n : N) : bool := ((lo <=? n) && (n <=? hi))%N.

(** [str.isspace] on one character, which is also the class [\s]. *)
Definition isspace (c : ascii) : bool :=
  let n := ord c in
  between 9 13 n || between 28 32 n || (n =? 133)%N || (n =? 160)%N.

(** The class [\w]: alphanumeric characters and the underscore. *)
Definition isword (c : ascii) : bool :=
  let n := ord c in
  between 48 57 n || between 65 90 n || (n =? 95)%N || between 97 122 n
  || (n =? 170)%N || between 178 179 n || (n =? 181)%N
  || between 185 186 n || between 188 190 n
  || between 192 214 n || between 216 246 n || between 248 255 n.

(** [str.lower] on one character. *)
Definition lower_char (c : ascii) : ascii :=
  let n := ord c in
  if between 65 90 n || between 192 214 n || between 216 222 n
  then ascii_of_N (n + 32) else c.

Definition lower (s : text) : text := map lower_char s.

Fixpoint lstrip (s : text) : text :=
  match s with
  | c :: s' => if isspace c then lstrip s' else s
  | [] => []
  end.

Definition rstrip (s : text) : text := rev (lstrip (rev s)).

Definition strip (s : text) : text := rstrip (lstrip s).

Fixpoint text_eqb (a b : text) : bool :=
  match a, b with
  | [], [] => true
  | x :: a', y :: b' => Ascii.eqb x y && text_eqb a' b'
  | _, _ => false
  end.

Fixpoint startswith (p s : text) : bool :=
  match p, s with
  | [], _ => true
  | x :: p', y :: s' => Ascii.eqb x y && startswith p' s'
  | _ :: _, [] => false
  end.

(** [needle in hay]. *)
Fixpoint contains (needle hay : text) : bool :=
  startswith needle hay ||
  match hay with
  | [] => false
  | _ :: hay' => contains needle hay'
  end.

(** [x in xs] for a set or list of strings. *)
Definition mem (x : text) (xs : list text) : bool := existsb (text_eqb x) xs.

(** [s.split(sep)[0]] for a one-character separator. *)
Fixpoint split_first (sep : ascii) (s : text) : text :=
  match s with
  | c :: s' => if Ascii.eqb c sep then [] else c :: split_first sep s'
  | [] => []
  end.

Definition is_empty (s : text) : bool :=
  match s with [] => true | _ :: _ => false end.

Definition len (s : text) : Z := Z.of_nat (length s).

End PyStr.

(** ** The fragment of Python's [re] the services use

    A backtracking matcher with Python's priorities: alternatives are
    tried left to right, repetition is greedy, and the first way to match
    wins.  Every repetition in the program's patterns is over a character
    class, so [Star] takes a class. *)

Module Re.
Import PyStr.

Inductive regex : Type :=
| Eps
| Cls (p : ascii -> bool)
| Seq (r1 r2 : regex)
| Alt (r1 r2 : regex)
| Star (p : ascii -> bool)
| Grp (r : regex)
| Bol (multiline : bool)
| Eol.

(** Where the matcher stands: how many characters lie behind it, the
    last of them, and what group 1 holds. *)
Record cursor : Type := {
  pos : nat;
  prev : option ascii;
  cap : option text
}.

Definition origin : cursor := {| pos := 0; prev := None; cap := None |}.

Definition advance (c : ascii) (cu : cursor) : cursor :=
  {| pos := S (pos cu); prev := Some c; cap := cap cu |}.

Definition capture (g : text) (cu : cursor) : cursor :=
  {| pos := pos cu; prev := prev cu; cap := Some g |}.

Definition newline : ascii := "010"%char.

(** [^]: the start of the string, and with [re.MULTILINE] also the
    position after a newline. *)
Definition at_bol (multiline : bool) (cu : cursor) : bool :=
  match prev cu with
  | None => true
  | Some c => multiline && Ascii.eqb c newline
  end.

(** [$] without [re.MULTILINE]: the end of the string, or the position
    of a newline that ends the string. *)
Definition at_eol (s : text) : bool :=
  match s with
  | [] => true
  | [c] => Ascii.eqb c newline
  | _ => false
  end.

Section Run.
Context {A : Type}.

Fixpoint star (p : ascii -> bool) (cu : cursor) (s : text)
    (k : cursor -> text -> option A) : option A :=
  match s with
  | c :: s' =>
      if p c then
        match star p (advance c cu) s' k with
        | Some a => Some a
        | None => k cu s
        end
      else k cu s
  | [] => k cu s
  end.

Fixpoint run (r : regex) (cu : cursor) (s : text)
    (k : cursor -> text -> option A) : option A :=
  match r with
  | Eps => k cu s
  | Cls p =>
      match s with
      | c :: s' => if p c then k (advance c cu) s' else None
      | [] => None
      end
  | Seq r1 r2 => run r1 cu s (fun cu' s' => run r2 cu' s' k)
  | Alt r1 r2 =>
      match run r1 cu s k with
      | Some a => Some a
      | None => run r2 cu s k
      end
  | Star p => star p cu s k
  | Grp r1 =>
      run r1 cu s
        (fun cu' s' => k (capture (firstn (pos cu' - pos cu) s) cu') s')
  | Bol m => if at_bol m cu then k cu s else None
  | Eol => if at_eol s then k cu s else None
  end.
End Run.

(** A match: where it ends, what is left of the subject, group 1. *)
Definition accept (cu : cursor) (s : text) : option (cursor * text) :=
  Some (cu, s).

(** The match of [r] that starts where the cursor stands. *)
Definition match_here (r : regex) (cu : cursor) (s : text)
  : option (cursor * text) :=
  run r cu s accept.

(** [re.match(r, s)]. *)
Definition rmatch (r : regex) (s : text) : option (cursor * text) :=
  match_here r origin s.

(** [re.search(r, s)]: the match at the leftmost position that has one. *)
Fixpoint search_from (r : regex) (cu : cursor) (s : text)
  : option (cursor * text) :=
  match match_here r cu s with
  | Some m => Some m
  | None =>
      match s with
      | c :: s' => search_from r (advance c cu) s'
      | [] => None
      end
  end.

Definition search (r : regex) (s : text) : option (cursor * text) :=
  search_from r origin s.

(** [re.search(r, s).group(1)], when there is a match. *)
Definition search_group (r : regex) (s : text) : option text :=
  match search r s with
  | Some (cu, _) => cap cu
  | None => None
  end.

(** The scan of [re.findall] and [re.sub]: matches are looked for from
    left to right and do not overlap.  [skip] counts the characters of
    the last match still to be passed.  (The patterns of the program
    never match the empty string.) *)
Fixpoint findall_from (r : regex) (cu : cursor) (s : text) (skip : nat)
  : list text :=
  match s with
  | [] => []
  | c :: s' =>
      match skip with
      | S n => findall_from r (advance c cu) s' n
      | O =>
          match match_here r cu s with
          | Some (cu', _) =>
              match cap cu' with
              | Some g => g :: findall_from r (advance c cu) s' (pos cu' - pos cu - 1)
              | None => findall_from r (advance c cu) s' (pos cu' - pos cu - 1)
              end
          | None => findall_from r (advance c cu) s' 0
          end
      end
  end.

(** [re.findall(r, s)] for a pattern with one group. *)
Definition findall (r : regex) (s : text) : list text :=
  findall_from r origin s 0.

Fixpoint sub_from (r : regex) (cu : cursor) (s : text) (skip : nat) : text :=
  match s with
  | [] => []
  | c :: s' =>
      match skip with
      | S n => sub_from r (advance c cu) s' n
      | O =>
          match match_here r cu s with
          | Some (cu', _) =>
              match pos cu' - pos cu with
              | S n => sub_from r (advance c cu) s' n
              | O => c :: sub_from r (advance c cu) s' 0
              end
          | None => c :: sub_from r (advance c cu) s' 0
          end
      end
  end.

(** [re.sub(r, '', s)]. *)
Definition sub_delete (r : regex) (s : text) : text := sub_from r origin s 0.

(** Building patterns. *)
Definition chr (c : ascii) : regex := Cls (Ascii.eqb c).

Fixpoint lit (s : text) : regex :=
  match s with
  | [] => Eps
  | c :: s' => Seq (chr c) (lit s')
  end.

Definition plus (p : ascii -> bool) : regex := Seq (Cls p) (Star p).

Definition cat (rs : list regex) : regex := fold_right Seq Eps rs.

Definition one_of (cs : text) (c : ascii) : bool := existsb (Ascii.eqb c) cs.

End Re.

(** ** [ValidationService] (app/services/validation_service.py) *)

Module Validation.
Import PyStr.

(** *** [validate_filename] *)

Inductive filename_error : Type :=
| FilenameEmpty            (* "Filename cannot be empty" *)
| FilenameNoContent        (* "Filename must have content" *)
| FilenameTooLong          (* "Filename must be no more than 50 characters" *)
| FilenameUnsafe           (* "Filename can only contain letters, ..." *)
| FilenameReserved (name : text).

(** [\.[^.]*$] *)
Definition extension_pattern : Re.regex :=
  Re.cat [Re.chr "."; Re.Star (fun c => negb (Ascii.eqb c ".")); Re.Eol].

(** The class [[a-zA-Z0-9_-]]. *)
Definition safe_char (c : ascii) : bool :=
  let n := ord c in
  between 97 122 n || between 65 90 n || between 48 57 n
  || Ascii.eqb c "_" || Ascii.eqb c "-".

(** [^[a-zA-Z0-9_-]+$] *)
Definition safe_name_pattern : Re.regex :=
  Re.cat [Re.Bol false; Re.plus safe_char; Re.Eol].

Definition reserved_names : list text :=
  map txt
    ["con"; "prn"; "aux"; "nul";
     "com1"; "com2"; "com3"; "com4"; "com5"; "com6"; "com7"; "com8"; "com9";
     "lpt1"; "lpt2"; "lpt3"; "lpt4"; "lpt5"; "lpt6"; "lpt7"; "lpt8"; "lpt9"].

Definition validate_filename (filename : text) : outcome filename_error text :=
  if is_empty filename then Raise FilenameEmpty else
  let filename := strip filename in
  let filename := Re.sub_delete extension_pattern filename in
  if (len filename <? 1)%Z then Raise FilenameNoContent else
  if (50 <? len filename)%Z then Raise FilenameTooLong else
  if negb (bool_decide (is_Some (Re.rmatch safe_name_pattern filename)))
  then Raise FilenameUnsafe else
  if mem (lower filename) reserved_names then Raise (FilenameReserved filename) else
  if startswith (txt "-") filename || startswith (txt "_") filename
  then Return (txt "file_" ++ filename)
  else Return filename.

(** *** [validate_code] *)

Inductive code_error : Type :=
| CodeEmpty                       (* "Code cannot be empty" *)
| CodeTooShort                    (* "Code is too short to be valid" *)
| CodeTooLong                     (* "Code exceeds maximum length ..." *)
| DangerousImport (imp : text)    (* "Dangerous import detected: ..." *)
| DangerousFunction               (* "Dangerous function detected: ..." *)
| FileOperation                   (* "File operations are not allowed ..." *)
| NetworkOperation                (* "Network operations are not allowed ..." *)
| NoManimImport                   (* "Code must import manim" *)
| NoClass                         (* "Code must define a Scene class" *)
| NoConstruct.                    (* "Code must have a construct method" *)

Definition DANGEROUS_IMPORTS : list text :=
  map txt
    ["os"; "sys"; "subprocess"; "importlib"; "exec"; "eval";
     "open"; "file"; "__import__"; "globals"; "locals";
     "compile"; "execfile"; "input"; "raw_input"].

Definition DANGEROUS_KEYWORDS : list text :=
  map txt
    ["exec("; "eval("; "compile("; "__import__(";
     "globals("; "locals("; "vars("; "dir(";
     "getattr("; "setattr("; "delattr("; "hasattr(";
     "input("; "raw_input("].

(** [(?:^|\n)\s*(?:import|from)\s+([^\s\n]+)], with [re.MULTILINE]. *)
Definition import_pattern : Re.regex :=
  Re.cat [Re.Alt (Re.Bol true) (Re.chr Re.newline);
          Re.Star isspace;
          Re.Alt (Re.lit (txt "import")) (Re.lit (txt "from"));
          Re.plus isspace;
          Re.Grp (Re.plus (fun c => negb (isspace c || Ascii.eqb c Re.newline)))].

(** [word\s*\(] *)
Definition call_of (word : string) : Re.regex :=
  Re.cat [Re.lit (txt word); Re.Star isspace; Re.chr "("].

Definition file_patterns : list Re.regex :=
  [call_of "open"; call_of "file"; call_of ".write"; call_of ".read";
   call_of ".readlines"].

Definition network_patterns : list text :=
  map txt ["urllib"; "requests"; "http"; "socket"; "urllib2"].

(** The loop over the imports found: the first one whose leading
    component is denylisted. *)
Definition dangerous_import (imports : list text) : option text :=
  find (fun imp => mem (strip (split_first "." imp)) DANGEROUS_IMPORTS) imports.

Definition validate_code (code : text) : outcome code_error text :=
  if is_empty code then Raise CodeEmpty else
  let code := strip code in
  if (len code <? 10)%Z then Raise CodeTooShort else
  if (5000 <? len code)%Z then Raise CodeTooLong else
  let code_lower := lower code in
  let imports := Re.findall import_pattern code_lower in
  match dangerous_import imports with
  | Some imp => Raise (DangerousImport imp)
  | None =>
  if existsb (fun keyword => contains keyword code_lower) DANGEROUS_KEYWORDS
  then Raise DangerousFunction else
  if existsb (fun pattern => bool_decide (is_Some (Re.search pattern code_lower)))
       file_patterns
  then Raise FileOperation else
  if existsb (fun pattern => contains pattern code_lower) network_patterns
  then Raise NetworkOperation else
  if negb (contains (txt "from manim import") code_lower)
     && negb (contains (txt "import manim") code_lower)
  then Raise NoManimImport else
  if negb (contains (txt "class ") code_lower) then Raise NoClass else
  if negb (contains (txt "def construct") code_lower) then Raise NoConstruct else
  Return code
  end.

(** *** [check_rate_limit]

    [_rate_limit_storage] is a [defaultdict(deque)]: reading a key that is
    not there yields an empty deque and stores it. *)

Definition popleft_while (old : Z -> bool) : list Z -> list Z :=
  fix go (request_times : list Z) : list Z :=
    match request_times with
    | t :: rest => if old t then go rest else request_times
    | [] => []
    end.

Definition rate_key (client_ip endpoint : text) : text :=
  client_ip ++ txt ":" ++ endpoint.

Definition check_rate_limit (current_time : Z) (client_ip endpoint : text)
    (limit window_minutes : Z) (storage : gmap text (list Z))
  : bool * gmap text (list Z) :=
  let window_seconds := (window_minutes * 60)%Z in
  let key := rate_key client_ip endpoint in
  let request_times := default [] (storage !! key) in
  let request_times :=
    popleft_while (fun t => (t <? current_time - window_seconds)%Z) request_times in
  if (limit <=? Z.of_nat (length request_times))%Z
  then (false, <[key := request_times]> storage)
  else (true, <[key := request_times ++ [current_time]]> storage).

(** [clean_rate_limit_storage]: the sweep over every key. *)
Definition clean_rate_limit_storage (current_time max_age_hours : Z)
    (storage : gmap text (list Z)) : gmap text (list Z) :=
  let max_age_seconds := (max_age_hours * 3600)%Z in
  filter (fun kv => kv.2 <> [])
    (popleft_while (fun t => (t <? current_time - max_age_seconds)%Z) <$> storage).

End Validation.

(** ** What every service shares: exceptions and the log *)

Inductive exn : Type :=
| ValueError (msg : text)
| TypeError (msg : text)
| OSError (msg : text)
| OverflowError (msg : text).

(** [str(e)] *)
Definition exn_str (e : exn) : text :=
  match e with ValueError m | TypeError m | OSError m | OverflowError m => m end.

Inductive Status : Type := queued | rendering | ready | error.

(** The [ValueError] of a request the validators refuse, by the check
    that raised it. *)
Inductive BadRequest : Type :=
| InvalidFilename (e : Validation.filename_error)
| InvalidCode (e : Validation.code_error).

(** The lines the services write to the log, by template. *)
Inductive LogRecord : Type :=
| RenderRequest (filename : text)
| RenderValidationFailed (e : BadRequest)
| CreatedRenderJob (job_id filename : text)
| JobAdded (job_id : text)
| StatusChanged (job_id : text) (old_status new_status : Status)
| JobRemoved (job_id : text)
| CleanedUp (count : nat)
| RateLimitStorageCleaned (removed : nat)
| CleanupFailure (e : text)
| JobNotFound (job_id : text)
| StartingRender (job_id : text)
| SavedCode (path : text)
| SaveFailed (e : text)
| ExecutingManim (cmd : list text)
| ManimSucceeded (output_path : text)
| ManimFailedWithCode (returncode : Z)
| ManimTimedOut (timeout_sec : Z)
| ManimException (e : text)
| RenderCompleted (job_id : text)
| RenderFailed (job_id : text)
| CodeFileCleaned (path : text)
| CodeCleanupFailed (e : text)
| ProcessingError (job_id : text) (e : text).

(** ** The floats of the retention check

    Python divides in binary64: the result is the 53-bit value nearest
    to the exact quotient, the one with the even last bit when two are
    equally near.  A value is kept as [mant * 2 ^ expo].  The quotients
    the program forms (a difference of two [datetime]s, in seconds and
    in hours) lie between [2 ^ -32] and [2 ^ 64] in size, far inside the
    exponents binary64 has, so the bounds of the exponent play no part. *)

Module PyFloat.
Open Scope Z_scope.

Record float : Type := { mant : Z; expo : Z }.

(** The value as a fraction. *)
Definition numer (x : float) : Z := mant x * 2 ^ Z.max 0 (expo x).
Definition denom (x : float) : Z := 2 ^ Z.max 0 (- expo x).

(** The [k] with [2 ^ k <= n / d < 2 ^ (k + 1)], for positive [n], [d]. *)
Definition magnitude (n d : Z) : Z :=
  let k := Z.log2 n - Z.log2 d in
  if d * 2 ^ Z.max 0 k <=? n * 2 ^ Z.max 0 (- k) then k else k - 1.

(** [n / d] rounded to 53 bits, for positive [n] and [d]. *)
Definition round_pos (n d : Z) : float :=
  let e := magnitude n d - 52 in
  let N := n * 2 ^ Z.max 0 (- e) in
  let D := d * 2 ^ Z.max 0 e in
  let q := N / D in
  let r := N mod D in
  {| mant := if 2 * r <? D then q
             else if D <? 2 * r then q + 1
             else if Z.even q then q else q + 1;
     expo := e |}.

(** [n / d] for integers, [d] positive: the exact quotient, rounded
    once. *)
Definition true_divide (n d : Z) : float :=
  match n with
  | 0 => {| mant := 0; expo := 0 |}
  | Zpos _ => round_pos n d
  | Zneg _ =>
      let x := round_pos (- n) d in {| mant := - mant x; expo := expo x |}
  end.

(** [x / d] for a float and a positive integer that is a float as it
    stands. *)
Definition div_int (x : float) (d : Z) : float :=
  true_divide (numer x) (denom x * d).

(** [x > n] for a float and an integer: Python compares the two values
    exactly. *)
Definition gt_int (x : float) (n : Z) : bool := n * denom x <? numer x.

End PyFloat.

(** ** The job store (app/services/job_store.py, app/models.py) *)

Module Store.
Import PyStr.

Definition status_eqb (a b : Status) : bool :=
  match a, b with
  | queued, queued | rendering, rendering | ready, ready | error, error => true
  | _, _ => false
  end.

(** [models.JobStore], the record of one job. *)
Record JobStore : Type := {
  id : text;
  status : Status;
  filename : text;
  code : text;
  created_at : Z;
  updated_at : Z;
  video_path : option text;
  error_message : option text
}.

(** An entry of [_job_history]: the fields of the job, [completed_at] and
    [total_processing_time]. *)
Record HistoryRecord : Type := {
  job_data : JobStore;
  completed_at : Z;
  total_processing_time : Z
}.

(** A Python [dict] keeps its keys in the order they were first inserted,
    and that order is what iterating it shows: [_jobs] is the list of its
    items. *)
Definition dict (V : Type) : Type := list (text * V).

Definition dict_get {V} (k : text) (d : dict V) : option V :=
  option_map snd (find (fun kv => text_eqb (fst kv) k) d).

Fixpoint dict_set {V} (k : text) (v : V) (d : dict V) : dict V :=
  match d with
  | [] => [(k, v)]
  | (k', v') :: d' =>
      if text_eqb k' k then (k, v) :: d' else (k', v') :: dict_set k v d'
  end.

(** [d.pop(k)]: the keys of a dictionary are distinct, so dropping the
    items with the key drops the one item there is. *)
Definition dict_pop {V} (k : text) (d : dict V) : dict V :=
  List.filter (fun kv => negb (text_eqb (fst kv) k)) d.

Definition dict_values {V} (d : dict V) : list V := map snd d.

Record EnhancedJobStore : Type := {
  _jobs : dict JobStore;
  _job_history : list HistoryRecord
}.

Definition empty_store : EnhancedJobStore :=
  {| _jobs := []; _job_history := [] |}.

(** One keyword argument of [update_job]. *)
Inductive update : Type :=
| set_id (v : text)
| set_status (v : Status)
| set_filename (v : text)
| set_code (v : text)
| set_created_at (v : Z)
| set_updated_at (v : Z)
| set_video_path (v : option text)
| set_error_message (v : option text)
| set_unknown (field : text).   (* a name the record does not have *)

(** [if hasattr(job, field): setattr(job, field, value)] *)
Definition setattr (job : JobStore) (u : update) : JobStore :=
  match u with
  | set_id v =>
      {| id := v; status := status job; filename := filename job; code := code job;
         created_at := created_at job; updated_at := updated_at job;
         video_path := video_path job; error_message := error_message job |}
  | set_status v =>
      {| id := id job; status := v; filename := filename job; code := code job;
         created_at := created_at job; updated_at := updated_at job;
         video_path := video_path job; error_message := error_message job |}
  | set_filename v =>
      {| id := id job; status := status job; filename := v; code := code job;
         created_at := created_at job; updated_at := updated_at job;
         video_path := video_path job; error_message := error_message job |}
  | set_code v =>
      {| id := id job; status := status job; filename := filename job; code := v;
         created_at := created_at job; updated_at := updated_at job;
         video_path := video_path job; error_message := error_message job |}
  | set_created_at v =>
      {| id := id job; status := status job; filename := filename job; code := code job;
         created_at := v; updated_at := updated_at job;
         video_path := video_path job; error_message := error_message job |}
  | set_updated_at v =>
      {| id := id job; status := status job; filename := filename job; code := code job;
         created_at := created_at job; updated_at := v;
         video_path := video_path job; error_message := error_message job |}
  | set_video_path v =>
      {| id := id job; status := status job; filename := filename job; code := code job;
         created_at := created_at job; updated_at := updated_at job;
         video_path := v; error_message := error_message job |}
  | set_error_message v =>
      {| id := id job; status := status job; filename := filename job; code := code job;
         created_at := created_at job; updated_at := updated_at job;
         video_path := video_path job; error_message := v |}
  | set_unknown _ => job
  end.

(** [dataclasses.asdict] raises [TypeError] unless its argument is an
    instance of a dataclass.  [is_dataclass] says whether the job records
    are. *)
Definition asdict (is_dataclass : bool) (job : JobStore) : outcome exn JobStore :=
  if is_dataclass then Return job
  else Raise (TypeError (txt "asdict() should be called on dataclass instances")).

(** The records of this program are instances of [models.JobStore], which
    is declared [class JobStore(BaseModel)]: a pydantic model, not a
    dataclass. *)
Definition JobStore_is_dataclass : bool := false.

(** [_job_history[-1000:]] *)
Definition last_1000 {A} (l : list A) : list A := skipn (length l - 1000) l.

Definition _archive_job (is_dataclass : bool) (now : Z) (job : JobStore)
    (history : list HistoryRecord) : outcome exn (list HistoryRecord) :=
  match asdict is_dataclass job with
  | Raise e => Raise e
  | Return data =>
      let record :=
        {| job_data := data; completed_at := now;
           total_processing_time := (now - created_at job)%Z |} in
      let history := history ++ [record] in
      Return (if (1000 <? Z.of_nat (length history))%Z
              then last_1000 history else history)
  end.

Definition is_terminal (s : Status) : bool :=
  match s with ready | error => true | queued | rendering => false end.

(** [get_job] *)
Definition get_job (job_id : text) (store : EnhancedJobStore) : option JobStore :=
  dict_get job_id (_jobs store).

(** [add_job]: the store after the call, and the line logged. *)
Definition add_job (job : JobStore) (store : EnhancedJobStore)
  : EnhancedJobStore * list LogRecord :=
  ({| _jobs := dict_set (id job) job (_jobs store);
      _job_history := _job_history store |},
   [JobAdded (id job)]).

(** [update_job]: the value returned or the exception raised, the store
    after the call (the fields are assigned before the job is archived,
    and stay assigned when archiving raises) and the lines logged. *)
Definition update_job (is_dataclass : bool) (now : Z) (job_id : text)
    (updates : list update) (store : EnhancedJobStore)
  : outcome exn bool * EnhancedJobStore * list LogRecord :=
  match get_job job_id store with
  | None => (Return false, store, [])
  | Some job =>
      let old_status := status job in
      let job := fold_left setattr updates job in
      let job := setattr job (set_updated_at now) in
      let jobs := dict_set job_id job (_jobs store) in
      let new_status := status job in
      if status_eqb old_status new_status
      then (Return true,
            {| _jobs := jobs; _job_history := _job_history store |}, [])
      else
        let logged := [StatusChanged job_id old_status new_status] in
        if is_terminal new_status then
          match _archive_job is_dataclass now job (_job_history store) with
          | Raise e =>
              (Raise e, {| _jobs := jobs; _job_history := _job_history store |},
               logged)
          | Return history =>
              (Return true, {| _jobs := jobs; _job_history := history |}, logged)
          end
        else (Return true,
              {| _jobs := jobs; _job_history := _job_history store |}, logged)
  end.

(** [get_jobs_by_status] *)
Definition get_jobs_by_status (s : Status) (store : EnhancedJobStore)
  : list JobStore :=
  List.filter (fun job => status_eqb (status job) s) (dict_values (_jobs store)).

(** [get_active_jobs] *)
Definition get_active_jobs (store : EnhancedJobStore) : list JobStore :=
  List.filter (fun job => negb (is_terminal (status job))) (dict_values (_jobs store)).

(** [remove_job] *)
Definition remove_job (job_id : text) (store : EnhancedJobStore)
  : bool * EnhancedJobStore * list LogRecord :=
  match dict_get job_id (_jobs store) with
  | Some _ =>
      (true,
       {| _jobs := dict_pop job_id (_jobs store);
          _job_history := _job_history store |},
       [JobRemoved job_id])
  | None => (false, store, [])
  end.

(** One hour, in the microseconds instants are counted in. *)
Definition hour : Z := 3600 * 1000000.

(** [timedelta.total_seconds()]: the microseconds of the difference
    divided by [10 ** 6]. *)
Definition total_seconds (delta : Z) : PyFloat.float :=
  PyFloat.true_divide delta 1000000.

(** [(current_time - job_time).total_seconds() / 3600 > max_age_hours] *)
Definition too_old (current_time max_age_hours : Z) (job : JobStore) : bool :=
  let age_hours :=
    PyFloat.div_int (total_seconds (current_time - created_at job)) 3600 in
  PyFloat.gt_int age_hours max_age_hours.

(** [timedelta(hours=h)], in microseconds.  A [timedelta] holds at most
    999999999 days either way; beyond that the constructor raises (its
    message names the number of days). *)
Definition timedelta_hours (h : Z) : outcome exn Z :=
  if ((-999999999 <=? h / 24) && (h / 24 <=? 999999999))%Z
  then Return (h * hour)%Z
  else Raise (OverflowError (txt "days; must have magnitude <= 999999999")).

(** The first and the last instant a [datetime] can hold: the start of
    the year 1 and the end of the year 9999, counted from 1970. *)
Definition datetime_min : Z := -62135596800 * 1000000.
Definition datetime_max : Z := 253402300799 * 1000000 + 999999.

(** [d - delta] for a [datetime] and a [timedelta]. *)
Definition datetime_sub (d delta : Z) : outcome exn Z :=
  let r := (d - delta)%Z in
  if ((datetime_min <=? r) && (r <=? datetime_max))%Z then Return r
  else Raise (OverflowError (txt "date value out of range")).

(** [current_time - timedelta(hours=max_age_hours * 7)] *)
Definition history_cutoff (current_time max_age_hours : Z) : outcome exn Z :=
  match timedelta_hours (max_age_hours * 7) with
  | Raise e => Raise e
  | Return delta => datetime_sub current_time delta
  end.

(** [cleanup_old_jobs]: the count returned or the exception raised, the
    store after the call and the lines logged.  The jobs are removed
    before the cutoff of the history is computed. *)
Definition cleanup_old_jobs (current_time max_age_hours : Z)
    (store : EnhancedJobStore)
  : outcome exn nat * EnhancedJobStore * list LogRecord :=
  let jobs_to_remove :=
    map fst (List.filter (fun kv => too_old current_time max_age_hours (snd kv))
               (_jobs store)) in
  let '(store, removed_log) :=
    fold_left
      (fun acc job_id =>
         let '(_, store', logged) := remove_job job_id (fst acc) in
         (store', snd acc ++ logged))
      jobs_to_remove (store, []) in
  match history_cutoff current_time max_age_hours with
  | Raise e => (Raise e, store, removed_log)
  | Return cutoff =>
      let history :=
        List.filter (fun record => (cutoff <? completed_at record)%Z)
          (_job_history store) in
      (Return (length jobs_to_remove),
       {| _jobs := _jobs store; _job_history := history |},
       removed_log ++
       match jobs_to_remove with
       | [] => []
       | _ :: _ => [CleanedUp (length jobs_to_remove)]
       end)
  end.

(** [list.sort(key=...)] is a stable sort: elements with equal keys keep
    the order they had. *)
Fixpoint insert_by_created (job : JobStore) (sorted : list JobStore)
  : list JobStore :=
  match sorted with
  | [] => [job]
  | j :: rest =>
      if (created_at job <=? created_at j)%Z then job :: sorted
      else j :: insert_by_created job rest
  end.

Definition sort_by_created (jobs : list JobStore) : list JobStore :=
  fold_right insert_by_created [] jobs.

(** [next(i for i, j in enumerate(jobs, start) if j.id == job_id)], [None]
    standing for [StopIteration]. *)
Fixpoint position_from (start : nat) (job_id : text) (jobs : list JobStore)
  : option nat :=
  match jobs with
  | [] => None
  | j :: rest =>
      if text_eqb (id j) job_id then Some start
      else position_from (S start) job_id rest
  end.

(** [get_queue_position] *)
Definition get_queue_position (job_id : text) (store : EnhancedJobStore)
  : option nat :=
  match get_job job_id store with
  | None => None
  | Some job =>
      if negb (status_eqb (status job) queued) then None
      else
        let queued_jobs := get_jobs_by_status queued store in
        let queued_jobs := sort_by_created queued_jobs in
        position_from 1 job_id queued_jobs
  end.

End Store.

(** ** The render service (app/services/render_service.py) *)

Module Render.
Import PyStr Store.

(** *** [_get_scene_class_name] *)

(** [class\s+(\w+)\s*\(\s*Scene\s*\)] *)
Definition scene_pattern : Re.regex :=
  Re.cat [Re.lit (txt "class"); Re.plus isspace; Re.Grp (Re.plus isword);
          Re.Star isspace; Re.chr "("; Re.Star isspace; Re.lit (txt "Scene");
          Re.Star isspace; Re.chr ")"].

(** [class\s+(\w+)\s*\(] *)
Definition any_class_pattern : Re.regex :=
  Re.cat [Re.lit (txt "class"); Re.plus isspace; Re.Grp (Re.plus isword);
          Re.Star isspace; Re.chr "("].

Definition _get_scene_class_name (code : text) : outcome exn text :=
  match Re.search_group scene_pattern code with
  | Some name => Return name
  | None =>
      match Re.search_group any_class_pattern code with
      | Some name => Return name
      | None => Raise (ValueError (txt "No Scene class found in code"))
      end
  end.

(** *** The world a render task acts on *)

(** How the rendering subprocess ends: [process.communicate()] returns
    with an exit code, [asyncio.wait_for] times out, or something else
    is raised (the tool cannot be started, say). *)
Inductive ProcessOutcome : Type :=
| Exited (returncode : Z)
| TimedOut
| Crashed (e : text).

(** What lies outside the program during one run of a task. *)
Record Outside : Type := {
  utcnow : Z;                        (* [datetime.utcnow()] *)
  code_stamp : text;                 (* [strftime] when the code is saved *)
  video_stamp : text;                (* [strftime] when the output is named *)
  write_error : option text;         (* [write_text] raises *)
  manim : ProcessOutcome;
  video_exists : bool;               (* [video_path.exists()] *)
  unlink_error : option text;        (* [unlink] raises *)
  RENDER_TIMEOUT_SEC : Z;
  MANIM_QUALITY : text
}.

Record World : Type := {
  job_store : EnhancedJobStore;
  code_dir : dict text;              (* the scratch files and their content *)
  logged : list LogRecord
}.

(** Code that reads and writes the world and may raise. *)
Definition M (A : Type) : Type := World -> outcome exn A * World.

Definition ret {A} (a : A) : M A := fun w => (Return a, w).

Definition raise {A} (e : exn) : M A := fun w => (Raise e, w).

Definition bind {A B} (m : M A) (k : A -> M B) : M B :=
  fun w =>
    match m w with
    | (Return a, w') => k a w'
    | (Raise e, w') => (Raise e, w')
    end.

(** [try: body  except Exception as e: handler] *)
Definition try_except {A} (body : M A) (handler : exn -> M A) : M A :=
  fun w =>
    match body w with
    | (Return a, w') => (Return a, w')
    | (Raise e, w') => handler e w'
    end.

Notation "x <- m ;; k" := (bind m (fun x => k))
  (at level 100, m at next level, right associativity).
Notation "m ;;; k" := (bind m (fun _ => k))
  (at level 100, right associativity).

(** The outcome of code that leaves the world alone. *)
Definition lift {A} (o : outcome exn A) : M A := fun w => (o, w).

Definition logger (line : LogRecord) : M unit :=
  fun w =>
    (Return tt,
     {| job_store := job_store w; code_dir := code_dir w;
        logged := logged w ++ [line] |}).

(** A method of the store, run on the store of the world. *)
Definition on_store {A}
    (method : EnhancedJobStore -> outcome exn A * EnhancedJobStore * list LogRecord)
  : M A :=
  fun w =>
    let '(result, store, lines) := method (job_store w) in
    (result,
     {| job_store := store; code_dir := code_dir w;
        logged := logged w ++ lines |}).

Definition write_text (path content : text) : M unit :=
  fun w =>
    (Return tt,
     {| job_store := job_store w;
        code_dir := dict_set path content (code_dir w);
        logged := logged w |}).

Definition unlink (path : text) : M unit :=
  fun w =>
    match dict_get path (code_dir w) with
    | None => (Raise (OSError (txt "No such file or directory")), w)
    | Some _ =>
        (Return tt,
         {| job_store := job_store w;
            code_dir := dict_pop path (code_dir w);
            logged := logged w |})
    end.

(** *** The methods of [RenderService] *)

Inductive directory : Type := in_code_dir | in_videos_dir.

Definition path_in (d : directory) (name : text) : text :=
  match d with
  | in_code_dir => txt "app/storage/code/" ++ name
  | in_videos_dir => txt "app/storage/videos/" ++ name
  end.

Definition _get_safe_filepath (timestamp filename extension : text) : M text :=
  let safe_filename := filename ++ txt "_" ++ timestamp ++ extension in
  if text_eqb extension (txt ".py") then ret (path_in in_code_dir safe_filename)
  else if text_eqb extension (txt ".mp4")
  then ret (path_in in_videos_dir safe_filename)
  else raise (ValueError (txt "Unsupported file extension: " ++ extension)).

Definition _save_code_file (out : Outside) (filename code : text) : M text :=
  code_path <- _get_safe_filepath (code_stamp out) filename (txt ".py") ;;
  try_except
    (match write_error out with
     | Some e => raise (OSError e)
     | None => write_text code_path code
     end ;;;
     logger (SavedCode code_path) ;;;
     ret code_path)
    (fun e =>
       logger (SaveFailed (exn_str e)) ;;;
       raise (ValueError (txt "Failed to save code file: " ++ exn_str e))).

(** [_execute_manim_render]: every way the subprocess can fail gives
    [False]; what went wrong goes to the log only. *)
Definition _execute_manim_render (out : Outside)
    (code_path scene_class output_name : text) : M bool :=
  let cmd :=
    [txt "manim"; code_path; scene_class;
     txt "--quality=" ++ lower (MANIM_QUALITY out);
     txt "--output_file=" ++ output_name;
     txt "--disable_caching"; txt "--write_to_movie"] in
  logger (ExecutingManim cmd) ;;;
  match manim out with
  | Exited returncode =>
      if (returncode =? 0)%Z
      then logger (ManimSucceeded output_name) ;;; ret true
      else logger (ManimFailedWithCode returncode) ;;; ret false
  | TimedOut => logger (ManimTimedOut (RENDER_TIMEOUT_SEC out)) ;;; ret false
  | Crashed e => logger (ManimException e) ;;; ret false
  end.

Definition update_job (is_dataclass : bool) (out : Outside) (job_id : text)
    (updates : list update) : M bool :=
  on_store (Store.update_job is_dataclass (utcnow out) job_id updates).

(** [create_render_job], up to the point where the task is scheduled. *)
Definition create_render_job (job_id : text) (current_time : Z)
    (filename code : text) : M unit :=
  on_store (fun store =>
    let '(store', lines) :=
      add_job
        {| id := job_id; status := queued; filename := filename; code := code;
           created_at := current_time; updated_at := current_time;
           video_path := None; error_message := None |} store in
    (Return tt, store', lines)) ;;;
  logger (CreatedRenderJob job_id filename).

(** [_process_render_job].  The task holds the job object it looked up;
    the fields it reads from it ([filename], [code]) are not among those
    it updates. *)
Definition _process_render_job (is_dataclass : bool) (out : Outside)
    (job_id : text) : M unit :=
  fun w =>
    match get_job job_id (job_store w) with
    | None => logger (JobNotFound job_id) w
    | Some job =>
        try_except
          (logger (StartingRender job_id) ;;;
           update_job is_dataclass out job_id [set_status rendering] ;;;
           code_path <- _save_code_file out (filename job) (code job) ;;
           scene_class <- lift (_get_scene_class_name (code job)) ;;
           video_path <- _get_safe_filepath (video_stamp out) (filename job)
                           (txt ".mp4") ;;
           success <- _execute_manim_render out code_path scene_class
                        (filename job ++ txt "_" ++ video_stamp out ++ txt ".mp4") ;;
           (if success && video_exists out
            then
              update_job is_dataclass out job_id
                [set_status ready; set_video_path (Some video_path)] ;;;
              logger (RenderCompleted job_id)
            else
              update_job is_dataclass out job_id
                [set_status error;
                 set_error_message (Some (txt "Manim rendering failed"))] ;;;
              logger (RenderFailed job_id)) ;;;
           try_except
             (match unlink_error out with
              | Some e => raise (OSError e)
              | None => unlink code_path
              end ;;;
              logger (CodeFileCleaned code_path))
             (fun e => logger (CodeCleanupFailed (exn_str e))))
          (fun e =>
             update_job is_dataclass out job_id
               [set_status error;
                set_error_message
                  (Some (txt "Render processing error: " ++ exn_str e))] ;;;
             logger (ProcessingError job_id (exn_str e)))
          w
    end.

End Render.

(** ** What the patterns mean

    The matcher is an algorithm; [matches] says which stretches of the
    subject a pattern denotes, whatever the order in which the matcher
    finds them. *)

Module ReSpec.
Import PyStr Re.

Inductive matches : regex -> cursor -> text -> cursor -> text -> Prop :=
| m_eps cu s : matches Eps cu s cu s
| m_cls p c cu s :
    p c = true -> matches (Cls p) cu (c :: s) (advance c cu) s
| m_seq r1 r2 cu s cu1 s1 cu2 s2 :
    matches r1 cu s cu1 s1 -> matches r2 cu1 s1 cu2 s2 ->
    matches (Seq r1 r2) cu s cu2 s2
| m_alt_l r1 r2 cu s cu' s' :
    matches r1 cu s cu' s' -> matches (Alt r1 r2) cu s cu' s'
| m_alt_r r1 r2 cu s cu' s' :
    matches r2 cu s cu' s' -> matches (Alt r1 r2) cu s cu' s'
| m_star_stop p cu s : matches (Star p) cu s cu s
| m_star_more p c cu s cu' s' :
    p c = true -> matches (Star p) (advance c cu) s cu' s' ->
    matches (Star p) cu (c :: s) cu' s'
| m_grp r cu s cu' s' :
    matches r cu s cu' s' ->
    matches (Grp r) cu s (capture (firstn (pos cu' - pos cu) s) cu') s'
| m_bol m cu s : at_bol m cu = true -> matches (Bol m) cu s cu s
| m_eol cu s : at_eol s = true -> matches Eol cu s cu s.

(** The cursor after the characters of [w]. *)
Definition advance_over (w : text) (cu : cursor) : cursor :=
  fold_left (fun cu c => advance c cu) w cu.

(** [r] has a match in [s] that starts after [pre] and ends at [cu']. *)
Definition occurs_at (r : regex) (s pre : text) (cu' : cursor) (rest : text)
  : Prop :=
  exists tail, s = pre ++ tail /\
    matches r (advance_over pre origin) tail cu' rest.

Definition all (p : ascii -> bool) (w : text) : Prop := forallb p w = true.

End ReSpec.

(** ** What a class declaration is, for the render service *)

Module SceneSpec.
Import PyStr ReSpec.

(** [code] holds [class name(] at some place: the keyword, white space,
    the name, and an opening parenthesis after optional white space. *)
Definition declares_class (code name : text) : Prop :=
  exists pre ws1 ws2 post,
    code = pre ++ txt "class" ++ ws1 ++ name ++ ws2 ++ txt "(" ++ post
    /\ ws1 <> [] /\ all isspace ws1
    /\ name <> [] /\ all isword name
    /\ all isspace ws2.

(** [code] holds [class name(Scene)] at some place, white space allowed
    around the parentheses and the base. *)
Definition declares_scene (code name : text) : Prop :=
  exists pre ws1 ws2 ws3 ws4 post,
    code = pre ++ txt "class" ++ ws1 ++ name ++ ws2 ++ txt "(" ++ ws3
               ++ txt "Scene" ++ ws4 ++ txt ")" ++ post
    /\ ws1 <> [] /\ all isspace ws1
    /\ name <> [] /\ all isword name
    /\ all isspace ws2 /\ all isspace ws3 /\ all isspace ws4.

End SceneSpec.

(** ** Reading a run of the render task *)

Module RenderSpec.
Import PyStr Store Render.

(** The transitions of one job that the store reported in the log, in the
    order they happened. *)
Fixpoint status_changes (job_id : text) (lines : list LogRecord)
  : list (Status * Status) :=
  match lines with
  | [] => []
  | StatusChanged j old_status new_status :: rest =>
      if text_eqb j job_id
      then (old_status, new_status) :: status_changes job_id rest
      else status_changes job_id rest
  | _ :: rest => status_changes job_id rest
  end.

(** The transitions of the state machine:
    [queued -> rendering -> ready | error]. *)
Definition allowed (step : Status * Status) : bool :=
  match step with
  | (queued, rendering) | (rendering, ready) | (rendering, error) => true
  | _ => false
  end.

(** What one call of [update_job] leaves in the record. *)
Definition updated (now : Z) (updates : list update) (job : JobStore) : JobStore :=
  setattr (fold_left setattr updates job) (set_updated_at now).

(** [success and video_path.exists()] *)
Definition rendered (out : Outside) : bool :=
  match manim out with
  | Exited returncode => (returncode =? 0)%Z
  | TimedOut | Crashed _ => false
  end && video_exists out.

Definition code_path_of (out : Outside) (job : JobStore) : text :=
  path_in in_code_dir (filename job ++ txt "_" ++ code_stamp out ++ txt ".py").

Definition video_path_of (out : Outside) (job : JobStore) : text :=
  path_in in_videos_dir (filename job ++ txt "_" ++ video_stamp out ++ txt ".mp4").

Definition processing_error (msg : text) : list update :=
  [set_status error;
   set_error_message (Some (txt "Render processing error: " ++ msg))].

Definition asdict_message : text :=
  txt "asdict() should be called on dataclass instances".

(** The exception that takes the task out of its normal path before the
    subprocess is started, if any. *)
Definition early_failure (out : Outside) (job : JobStore) : option text :=
  match write_error out with
  | Some e => Some (txt "Failed to save code file: " ++ e)
  | None =>
      match _get_scene_class_name (code job) with
      | Raise e => Some (exn_str e)
      | Return _ => None
      end
  end.

(** The record of the job when the task is over. *)
Definition final_record (is_dataclass : bool) (out : Outside) (job : JobStore)
  : JobStore :=
  let now := utcnow out in
  let job := updated now [set_status rendering] job in
  match early_failure out job with
  | Some msg => updated now (processing_error msg) job
  | None =>
      let job :=
        if rendered out
        then updated now
               [set_status ready; set_video_path (Some (video_path_of out job))] job
        else updated now
               [set_status error;
                set_error_message (Some (txt "Manim rendering failed"))] job in
      if is_dataclass then job
      else updated now (processing_error asdict_message) job
  end.

(** Whether the scratch file of the job is deleted by the task. *)
Definition deletes_scratch (is_dataclass : bool) (out : Outside) (job : JobStore)
  : bool :=
  match early_failure out job with
  | Some _ => false
  | None =>
      is_dataclass
      && match unlink_error out with Some _ => false | None => true end
  end.

(** The line [_execute_manim_render] logs about how the subprocess
    ended. *)
Definition manim_log_line (out : Outside) (job : JobStore) : LogRecord :=
  match manim out with
  | Exited returncode =>
      if (returncode =? 0)%Z
      then ManimSucceeded (filename job ++ txt "_" ++ video_stamp out ++ txt ".mp4")
      else ManimFailedWithCode returncode
  | TimedOut => ManimTimedOut (RENDER_TIMEOUT_SEC out)
  | Crashed e => ManimException e
  end.

(** The same surroundings with another end of the subprocess. *)
Definition with_manim (m : ProcessOutcome) (out : Outside) : Outside :=
  {| utcnow := utcnow out; code_stamp := code_stamp out;
     video_stamp := video_stamp out; write_error := write_error out;
     manim := m; video_exists := video_exists out;
     unlink_error := unlink_error out;
     RENDER_TIMEOUT_SEC := RENDER_TIMEOUT_SEC out;
     MANIM_QUALITY := MANIM_QUALITY out |}.

(** The transitions of the job that the task makes the store report. *)
Definition transitions (is_dataclass : bool) (out : Outside) (job : JobStore)
  : list (Status * Status) :=
  (if status_eqb (status job) rendering then [] else [(status job, rendering)])
  ++ match early_failure out job with
     | Some _ => [(rendering, error)]
     | None =>
         if rendered out
         then (rendering, ready) :: (if is_dataclass then [] else [(ready, error)])
         else [(rendering, error)]
     end.

(** The scratch files when the task is over. *)
Definition final_code_dir (is_dataclass : bool) (out : Outside) (job : JobStore)
    (files : dict text) : dict text :=
  match write_error out with
  | Some _ => files
  | None =>
      let files := dict_set (code_path_of out job) (code job) files in
      if deletes_scratch is_dataclass out job
      then dict_pop (code_path_of out job) files
      else files
  end.

End RenderSpec.

(** ** Reading the rate limiter *)

Module RateSpec.
Import PyStr Validation.

(** The timestamps recorded for a key. *)
Definition recorded (storage : gmap text (list Z)) (key : text) : list Z :=
  default [] (storage !! key).

(** The timestamps of the trailing window: those not older than the
    window. *)
Definition in_window (current_time window_minutes : Z) (times : list Z) : list Z :=
  List.filter (fun t => (current_time - window_minutes * 60 <=? t)%Z) times.

(** A client calling an endpoint at each of the instants of [times], in
    turn: the answers it gets. *)
Fixpoint serve (times : list Z) (client_ip endpoint : text)
    (limit window_minutes : Z) (storage : gmap text (list Z)) : list bool :=
  match times with
  | [] => []
  | t :: later =>
      let '(allowed, storage') :=
        check_rate_limit t client_ip endpoint limit window_minutes storage in
      allowed :: serve later client_ip endpoint limit window_minutes storage'
  end.

(** The storages the service can be in: it starts empty, and is changed
    by requests and sweeps, at instants read from a clock that does not
    run backwards.  The second component is the last instant read. *)
Inductive reachable : gmap text (list Z) -> Z -> Prop :=
| reach_start t : reachable ∅ t
| reach_request storage t now client_ip endpoint limit window_minutes :
    reachable storage t -> (t <= now)%Z ->
    reachable
      (snd (check_rate_limit now client_ip endpoint limit window_minutes storage))
      now
| reach_sweep storage t now max_age_hours :
    reachable storage t -> (t <= now)%Z ->
    reachable (clean_rate_limit_storage now max_age_hours storage) now.

End RateSpec.

(** ** Reading the store *)

Module StoreSpec.
Import PyStr Store.

(** What makes [_jobs] a dictionary of jobs: the keys are distinct, and
    each job is stored under its own identifier. *)
Definition well_formed (store : EnhancedJobStore) : Prop :=
  List.NoDup (map fst (_jobs store))
  /\ Forall (fun kv => id (snd kv) = fst kv) (_jobs store).

(** The job was created more than [max_age_hours] hours before
    [current_time]. *)
Definition older_than (current_time max_age_hours : Z) (job : JobStore) : Prop :=
  (max_age_hours * hour < current_time - created_at job)%Z.

(** An update that leaves the identifier alone. *)
Definition keeps_id (u : update) : Prop :=
  match u with set_id _ => False | _ => True end.

(** The order [sort(key=lambda j: j.created_at)] sorts by. *)
Definition by_created (a b : JobStore) : Prop :=
  (created_at a <= created_at b)%Z.

(** The jobs met before the job [job_id] when the list is gone through. *)
Fixpoint inserted_before (job_id : text) (jobs : list JobStore) : list JobStore :=
  match jobs with
  | [] => []
  | j :: rest =>
      if text_eqb (id j) job_id then [] else j :: inserted_before job_id rest
  end.

(** How many of the jobs are served before [job]: those created earlier,
    and of those created at the same instant the ones inserted before
    it. *)
Definition ahead (job : JobStore) (jobs : list JobStore) : nat :=
  length (List.filter (fun j => (created_at j <? created_at job)%Z) jobs)
  + length (List.filter (fun j => (created_at j =? created_at job)%Z)
              (inserted_before (id job) jobs)).

(** The order of identifiers (the order of Python strings). *)
Fixpoint text_ltb (a b : text) : bool :=
  match a, b with
  | [], [] => false
  | [], _ :: _ => true
  | _ :: _, [] => false
  | x :: a', y :: b' =>
      (ord x <? ord y)%N || ((ord x =? ord y)%N && text_ltb a' b')
  end.

End StoreSpec.

(** ** Reading the code scanner *)

Module ValidationSpec.
Import PyStr ReSpec Validation.

(** [needle] occurs in [hay]. *)
Definition substring (needle hay : text) : Prop :=
  exists pre post, hay = pre ++ needle ++ post.

(** [needle] occurs in [hay] in some letter case. *)
Definition substring_ignoring_case (needle hay : text) : Prop :=
  exists pre mid post, hay = pre ++ mid ++ post /\ lower mid = needle.

(** [word] occurs in [hay] followed, after optional white space, by an
    opening parenthesis. *)
Definition has_call (word hay : text) : Prop :=
  exists pre ws post,
    hay = pre ++ word ++ ws ++ txt "(" ++ post /\ all isspace ws.

Definition file_operations : list string :=
  ["open"; "file"; ".write"; ".read"; ".readlines"]%string.

(** *** What the scan for imports acts on *)

(** A word: a stretch that is not empty and holds no white space. *)
Definition word (w : text) : Prop :=
  w <> [] /\ all (fun c => negb (isspace c)) w.

(** Nothing, or white space, comes first in [post]. *)
Definition word_ends (post : text) : Prop :=
  match post with
  | [] => True
  | c :: _ => isspace c = true
  end.

(** A line starts where [pre] ends: at the start of the text or after
    a newline. *)
Definition line_start (pre : text) : Prop :=
  pre = [] \/ exists b, pre = b ++ [Re.newline].

(** [pre] ends where a line starts, white space apart. *)
Definition opens_line (pre : text) : Prop :=
  exists before indent,
    pre = before ++ indent /\ all isspace indent /\ line_start before.

(** The text [pre ++ s] has an import statement that begins where [s]
    begins: [import] or [from] as the first word of its line, then white
    space, then the word [name], with [post] left over. *)
Definition import_statement (pre s name post : text) : Prop :=
  opens_line pre
  /\ exists keyword gap,
       s = keyword ++ gap ++ name ++ post
       /\ (keyword = txt "import" \/ keyword = txt "from")
       /\ gap <> [] /\ all isspace gap
       /\ word name /\ word_ends post.

(** The scan goes from left to right and its matches do not overlap: it
    acts on an import statement unless that statement begins inside an
    earlier one it acts on (which happens when the keyword is itself the
    word that follows the keyword of the line before), and then it passes
    it over. *)
Inductive acted_on : text -> text -> text -> text -> Prop :=
| acts pre s name post :
    import_statement pre s name post ->
    (forall pre' mid name' post',
       pre = pre' ++ mid -> mid <> [] ->
       import_statement pre' (mid ++ s) name' post' ->
       (length post' < length s)%nat ->
       passed_over pre' (mid ++ s) name' post') ->
    acted_on pre s name post
with passed_over : text -> text -> text -> text -> Prop :=
| passes pre s name post pre' mid name' post' :
    import_statement pre s name post ->
    pre = pre' ++ mid -> mid <> [] ->
    acted_on pre' (mid ++ s) name' post' ->
    (length post' < length s)%nat ->
    passed_over pre s name post.

(** [module] is the part of [name] before its first dot. *)
Definition names_module (name module : text) : Prop :=
  ~ In "."%char module
  /\ (name = module \/ exists rest, name = module ++ "."%char :: rest).

(** The scan for imports acts on a statement that names a denylisted
    module. *)
Definition imports_denylisted (code_lower : text) : Prop :=
  exists pre s name post module,
    code_lower = pre ++ s /\ acted_on pre s name post
    /\ names_module name module /\ In module DANGEROUS_IMPORTS.

(** One of the checks for unsafe content fires on the lowercased code. *)
Definition unsafe (code_lower : text) : Prop :=
  imports_denylisted code_lower
  \/ (exists keyword, In keyword DANGEROUS_KEYWORDS /\ substring keyword code_lower)
  \/ (exists word, In word file_operations /\ has_call (txt word) code_lower)
  \/ (exists name, In name network_patterns /\ substring name code_lower).

(** The lowercased code has the three structural markers. *)
Definition structured (code_lower : text) : Prop :=
  (substring (txt "from manim import") code_lower
   \/ substring (txt "import manim") code_lower)
  /\ substring (txt "class ") code_lower
  /\ substring (txt "def construct") code_lower.

End ValidationSpec.

(** ** Submissions used as examples *)

Module Samples.
Import PyStr.

(** A scene as the documentation of the API shows one. *)
Definition demo_scene : text := txt "from manim import *

class Demo(Scene):
    def construct(self):
        text = Text('Demo')
        self.add(text)".

(** The only class of this submission derives from [VGroup]. *)
Definition helper_only : text := txt "from manim import *

class Helper(VGroup):
    def construct(self):
        self.add(Circle())".

(** A class declared without a list of bases. *)
Definition bare_class : text := txt "from manim import *

class Demo:
    def construct(self):
        pass".

(** [demo_scene] followed by 5000 spaces. *)
Definition padded_scene : text := demo_scene ++ repeat " "%char 5000.

(** A scene whose comment mentions a protocol. *)
Definition commented_scene : text := txt "from manim import *

class Demo(Scene):
    def construct(self):
        # see HTTPS://docs.manim.community
        self.add(Text('Demo'))".


Definition job1 : text := txt "job-1".

(** Surroundings in which nothing goes wrong but, possibly, the
    subprocess. *)
Definition outside (m : Render.ProcessOutcome) : Render.Outside :=
  {| Render.utcnow := 60000000;
     Render.code_stamp := txt "20250823_132820";
     Render.video_stamp := txt "20250823_132820";
     Render.write_error := None;
     Render.manim := m;
     Render.video_exists := true;
     Render.unlink_error := None;
     Render.RENDER_TIMEOUT_SEC := 180;
     Render.MANIM_QUALITY := txt "L" |}.

Definition empty_world : Render.World :=
  {| Render.job_store := Store.empty_store; Render.code_dir := [];
     Render.logged := [] |}.

(** The world right after [create_render_job] has stored the job. *)
Definition submitted (code : text) : Render.World :=
  snd (Render.create_render_job job1 0 (txt "demo") code empty_world).

Definition scratch_path : text := txt "app/storage/code/demo_20250823_132820.py".

Definition queued_job (job_id : text) (created : Z) : Store.JobStore :=
  {| Store.id := job_id; Store.status := queued; Store.filename := txt "demo";
     Store.code := demo_scene; Store.created_at := created;
     Store.updated_at := created; Store.video_path := None;
     Store.error_message := None |}.

(** Two jobs created at the same instant, ["b"] stored before ["a"]. *)
Definition tied_store : Store.EnhancedJobStore :=
  fst (Store.add_job (queued_job (txt "a") 5)
         (fst (Store.add_job (queued_job (txt "b") 5) Store.empty_store))).

(** The same two jobs, stored the other way round. *)
Definition tied_store' : Store.EnhancedJobStore :=
  fst (Store.add_job (queued_job (txt "b") 5)
         (fst (Store.add_job (queued_job (txt "a") 5) Store.empty_store))).

(** A job created at instant 0 and one created 25 hours later. *)
Definition aged_store : Store.EnhancedJobStore :=
  fst (Store.add_job (queued_job (txt "new") (25 * Store.hour))
         (fst (Store.add_job (queued_job (txt "old") 0) Store.empty_store))).

End Samples.

(** ** [ValidationService]: the text inputs of the lesson routes *)

Module Inputs.
Import PyStr.

(** *** [validate_topic] *)

Inductive topic_error : Type :=
| TopicEmpty        (* "Topic cannot be empty" *)
| TopicTooShort     (* "Topic must be at least 3 characters long" *)
| TopicTooLong      (* "Topic must be no more than 120 characters long" *)
| TopicUnsafe       (* "Topic contains potentially unsafe content" *)
| TopicNoAlnum.     (* "Topic must contain alphanumeric characters" *)

(** The class [[\x00-\x1f\x7f-\x9f]]. *)
Definition control_char (c : ascii) : bool :=
  let n := ord c in between 0 31 n || between 127 159 n.

Definition control_pattern : Re.regex := Re.Cls control_char.

(** A literal character under [re.IGNORECASE]: it is matched by the
    characters that lowercase to what it lowercases to (so it is for the
    ASCII characters the patterns of the program are written with). *)
Definition ichr (c : ascii) : Re.regex :=
  Re.Cls (fun x => Ascii.eqb (lower_char x) (lower_char c)).

Fixpoint ilit (s : text) : Re.regex :=
  match s with
  | [] => Re.Eps
  | c :: s' => Re.Seq (ichr c) (ilit s')
  end.

(** [<script[^>]*>], [javascript:], [data:text/html], [vbscript:],
    [onload\s*=] and [onerror\s*=], each with [re.IGNORECASE]. *)
Definition suspicious_patterns : list Re.regex :=
  [Re.cat [ilit (txt "<script"); Re.Star (fun c => negb (Ascii.eqb c ">"));
           ichr ">"];
   ilit (txt "javascript:");
   ilit (txt "data:text/html");
   ilit (txt "vbscript:");
   Re.cat [ilit (txt "onload"); Re.Star isspace; ichr "="];
   Re.cat [ilit (txt "onerror"); Re.Star isspace; ichr "="]].

(** The class [[a-zA-Z0-9]]. *)
Definition alnum_char (c : ascii) : bool :=
  let n := ord c in
  between 97 122 n || between 65 90 n || between 48 57 n.

Definition validate_topic (topic : text) : outcome topic_error text :=
  if is_empty topic then Raise TopicEmpty else
  let topic := strip topic in
  if (len topic <? 3)%Z then Raise TopicTooShort else
  if (120 <? len topic)%Z then Raise TopicTooLong else
  let topic := Re.sub_delete control_pattern topic in
  if existsb (fun pattern => bool_decide (is_Some (Re.search pattern topic)))
       suspicious_patterns
  then Raise TopicUnsafe else
  if negb (bool_decide (is_Some (Re.search (Re.Cls alnum_char) topic)))
  then Raise TopicNoAlnum else
  Return topic.

(** *** [validate_plan]

    The plan is optional: [None] and the empty string both count as no
    plan. *)

Inductive plan_error : Type :=
| PlanTooLong.      (* "Lesson plan guidance must be no more than 500 ..." *)

Definition validate_plan (plan : option text) : outcome plan_error text :=
  match plan with
  | None | Some [] => Return []
  | Some plan =>
      let plan := strip plan in
      if (500 <? len plan)%Z then Raise PlanTooLong else
      Return (Re.sub_delete control_pattern plan)
  end.

End Inputs.

(** ** The rate-limit middleware (app/middleware.py) *)

Module Middleware.
Import PyStr Validation.

(** What the middleware reads of a request: the path of its URL, two
    headers, and the host of the peer when the server knows it. *)
Record Request : Type := {
  path : text;                       (* [request.url.path] *)
  x_forwarded_for : option text;     (* [request.headers.get("X-Forwarded-For")] *)
  x_real_ip : option text;           (* [request.headers.get("X-Real-IP")] *)
  client_host : option text          (* [request.client.host], if [request.client] *)
}.

(** [ValidationService.get_client_ip] *)
Definition get_client_ip (request : Request) : text :=
  match x_forwarded_for request with
  | Some (c :: rest) => strip (split_first "," (c :: rest))
  | Some [] | None =>
      match x_real_ip request with
      | Some (c :: rest) => strip (c :: rest)
      | Some [] | None =>
          match client_host request with
          | Some host => host
          | None => txt "unknown"
          end
      end
  end.

(** The table of limits: requests allowed, and the window in minutes. *)
Definition limits : Store.dict (Z * Z) :=
  [(txt "/api/lesson", (5, 5)%Z);
   (txt "/api/example", (5, 5)%Z);
   (txt "/api/manim", (3, 5)%Z);
   (txt "/api/render", (2, 10)%Z)].

(** What the middleware answers: it hands the request on, or it answers
    429 itself, naming the limit and the window. *)
Inductive Response : Type :=
| CallNext
| TooManyRequests (limit window_minutes : Z).

(** [rate_limit_middleware], at the instant [current_time] that
    [check_rate_limit] reads from the clock. *)
Definition rate_limit_middleware (current_time : Z) (request : Request)
    (storage : gmap text (list Z)) : Response * gmap text (list Z) :=
  if negb (startswith (txt "/api/") (path request)) then (CallNext, storage)
  else
    let client_ip := get_client_ip request in
    let endpoint := path request in
    let '(limit, window_minutes) :=
      default (10, 5)%Z (Store.dict_get endpoint limits) in
    let '(allowed, storage) :=
      check_rate_limit current_time client_ip endpoint limit window_minutes
        storage in
    if negb allowed then (TooManyRequests limit window_minutes, storage)
    else (CallNext, storage).

End Middleware.

(** ** The render route (app/routes.py) *)

Module Routes.
Import PyStr Validation Render.

(** [models.RenderJob], the answer of the render routes. *)
Record RenderJob : Type := {
  jobId : text;
  status : Status;
  videoUrl : option text;
  error : option text
}.

(** [render_animation]: the file name is validated, then the code, then
    the job is created; a [ValueError] of the validators is logged and
    answered with the response 400.  [job_id] is the identifier
    [uuid.uuid4()] yields and [current_time] the reading of the clock;
    [filename] and [code] are the fields of a request the request model
    has let through. *)
Definition render_animation (job_id : text) (current_time : Z)
    (filename code : text) : M (outcome BadRequest RenderJob) :=
  match validate_filename filename with
  | Raise e =>
      logger (RenderValidationFailed (InvalidFilename e)) ;;;
      ret (Raise (InvalidFilename e))
  | Return validated_filename =>
      match validate_code code with
      | Raise e =>
          logger (RenderValidationFailed (InvalidCode e)) ;;;
          ret (Raise (InvalidCode e))
      | Return validated_code =>
          logger (RenderRequest validated_filename) ;;;
          create_render_job job_id current_time validated_filename
            validated_code ;;;
          ret (Return {| jobId := job_id; status := queued;
                         videoUrl := None; error := None |})
      end
  end.

End Routes.

(** ** The history of completed jobs (app/services/job_store.py) *)

Module History.
Import PyStr Store.

(** [l[start:]]: a negative [start] counts from the end, and a [start]
    beyond either end is moved to that end. *)
Definition slice_from {A} (start : Z) (l : list A) : list A :=
  let n := Z.of_nat (length l) in
  let start := if (start <? 0)%Z then Z.max (start + n) 0 else Z.min start n in
  skipn (Z.to_nat start) l.

(** [EnhancedJobStore.get_job_history]: [self._job_history[-limit:]] *)
Definition get_job_history (limit : Z) (store : EnhancedJobStore)
  : list HistoryRecord :=
  slice_from (- limit) (_job_history store).

End History.

(** ** The monitoring routes (app/routes_monitoring.py) *)

Module Monitoring.
Import PyStr Validation Store.

(** What the route [/jobs/history] answers: the count, the records, and
    the three numbers of its summary. *)
Record HistoryReport : Type := {
  history_count : nat;
  jobs : list HistoryRecord;
  total_completed : nat;
  successful : nat;
  failed : nat
}.

(** The route [get_job_history]. *)
Definition get_job_history (limit : Z) (store : EnhancedJobStore) : HistoryReport :=
  let limit := Z.min (Z.max 1 limit) 200 in
  let history := History.get_job_history limit store in
  {| history_count := length history;
     jobs := history;
     total_completed := length history;
     successful :=
       length (List.filter
                 (fun j => status_eqb (status (job_data j)) ready) history);
     failed :=
       length (List.filter
                 (fun j => status_eqb (status (job_data j)) error) history) |}.

(** What the route [/jobs/cleanup] answers: its report, or the response
    500 its handler makes of an exception. *)
Inductive CleanupAnswer : Type :=
| CleanupCompleted (max_age_hours : Z) (jobs_cleaned : nat)
| CleanupFailed.

(** The route [cleanup_old_jobs]: [utcnow] is the reading of the clock
    the store takes and [current_time] the one the limiter takes.  The
    lines logged are those of the store, then the line the sweep of the
    limiter writes with the number of keys it removed, or the line of the
    handler when the store raised. *)
Definition cleanup_old_jobs (utcnow current_time max_age_hours : Z)
    (store : EnhancedJobStore) (storage : gmap text (list Z))
  : CleanupAnswer * EnhancedJobStore * gmap text (list Z) * list LogRecord :=
  let max_age_hours := Z.min (Z.max 1 max_age_hours) 168 in
  match Store.cleanup_old_jobs utcnow max_age_hours store with
  | (Raise e, store, lines) =>
      (CleanupFailed, store, storage, lines ++ [CleanupFailure (exn_str e)])
  | (Return jobs_cleaned, store, lines) =>
      let swept := clean_rate_limit_storage current_time max_age_hours storage in
      (CleanupCompleted max_age_hours jobs_cleaned, store, swept,
       lines ++ [RateLimitStorageCleaned (size storage - size swept)])
  end.

End Monitoring.


(** ** Reading strings *)

Module StrSpec.
Import PyStr.

(** A text that does not begin with white space. *)
Definition starts_clean (s : text) : Prop :=
  match s with
  | c :: _ => isspace c = false
  | [] => True
  end.

(** A text without the character [c]. *)
Definition free_of (c : ascii) (s : text) : Prop :=
  forallb (fun x => negb (Ascii.eqb x c)) s = true.

End StrSpec.

(** ** Reading the text inputs *)

Module InputSpec.
Import PyStr ReSpec ValidationSpec Inputs.

(** The text without its control characters. *)
Definition without_controls (s : text) : text :=
  List.filter (fun c => negb (control_char c)) s.

(** [hay] holds an opening [script] tag in some letter case: the word
    after [<], and a [>] further on with no other [>] in between. *)
Definition has_script_tag (hay : text) : Prop :=
  exists pre tag attrs post,
    hay = pre ++ tag ++ attrs ++ txt ">" ++ post
    /\ lower tag = txt "<script"
    /\ all (fun c => negb (Ascii.eqb c ">")) attrs.

(** [hay] sets the handler [name] in some letter case: the name, optional
    white space, and [=]. *)
Definition sets_handler (name hay : text) : Prop :=
  exists pre mid ws post,
    hay = pre ++ mid ++ ws ++ txt "=" ++ post
    /\ lower mid = name /\ all isspace ws.

(** One of the six patterns for unsafe content is found. *)
Definition suspicious (topic : text) : Prop :=
  has_script_tag topic
  \/ substring_ignoring_case (txt "javascript:") topic
  \/ substring_ignoring_case (txt "data:text/html") topic
  \/ substring_ignoring_case (txt "vbscript:") topic
  \/ sets_handler (txt "onload") topic
  \/ sets_handler (txt "onerror") topic.

End InputSpec.

(** ** Reading the middleware *)

Module LimiterSpec.
Import PyStr Validation Middleware.

(** The limit and the window the middleware applies to a path. *)
Definition limit_of (endpoint : text) : Z * Z :=
  default (10, 5)%Z (Store.dict_get endpoint limits).

(** The storages the service can be in when every request comes through
    the middleware: it starts empty, and is changed by the middleware and
    by sweeps. *)
Inductive served : gmap text (list Z) -> Prop :=
| served_start : served ∅
| served_request storage now request :
    served storage -> served (snd (rate_limit_middleware now request storage))
| served_sweep storage now max_age_hours :
    served storage -> served (clean_rate_limit_storage now max_age_hours storage).

End LimiterSpec.

(** ** Reading the life of a store *)

Module EvolveSpec.
Import PyStr Store StoreSpec.

(** The stores the program can be in: the store starts empty and is
    changed by its methods; the updates are those of fields other than
    the identifier, as every call of the program is. *)
Inductive evolves (is_dataclass : bool) : EnhancedJobStore -> Prop :=
| ev_start : evolves is_dataclass empty_store
| ev_add job store :
    evolves is_dataclass store -> evolves is_dataclass (fst (add_job job store))
| ev_update now job_id updates store :
    evolves is_dataclass store -> Forall keeps_id updates ->
    evolves is_dataclass
      (snd (fst (update_job is_dataclass now job_id updates store)))
| ev_remove job_id store :
    evolves is_dataclass store ->
    evolves is_dataclass (snd (fst (remove_job job_id store)))
| ev_cleanup now max_age_hours store :
    evolves is_dataclass store ->
    evolves is_dataclass (snd (fst (cleanup_old_jobs now max_age_hours store))).

(** The queued jobs in the order they are served. *)
Definition queue (store : EnhancedJobStore) : list JobStore :=
  sort_by_created (get_jobs_by_status queued store).

End EvolveSpec.

(** ** Reading the end of a render task *)

Module TaskSpec.
Import PyStr Store Render RenderSpec.

(** How the task ends: it returns, or the exception of [asdict] leaves
    it, which happens when the handler of the task itself has to bring
    the job to a final status and the records are no dataclass
    instances. *)
Definition task_outcome (is_dataclass : bool) (out : Outside) (job : JobStore)
  : outcome exn unit :=
  if negb is_dataclass
     && match early_failure out job with
        | Some _ => true
        | None => rendered out
        end
  then Raise (TypeError asdict_message)
  else Return tt.

(** The record [create_render_job] stores. *)
Definition new_job (job_id : text) (current_time : Z) (filename code : text)
  : JobStore :=
  {| id := job_id; status := queued; filename := filename; code := code;
     created_at := current_time; updated_at := current_time;
     video_path := None; error_message := None |}.

End TaskSpec.

(** ** Where a class is declared *)

Module EntrySpec.
Import PyStr ReSpec.

(** [code] holds [class name(Scene)] right after [pre]. *)
Definition scene_at (code pre name : text) : Prop :=
  exists ws1 ws2 ws3 ws4 post,
    code = pre ++ txt "class" ++ ws1 ++ name ++ ws2 ++ txt "(" ++ ws3
               ++ txt "Scene" ++ ws4 ++ txt ")" ++ post
    /\ ws1 <> [] /\ all isspace ws1
    /\ name <> [] /\ all isword name
    /\ all isspace ws2 /\ all isspace ws3 /\ all isspace ws4.

(** [code] holds [class name(] right after [pre]. *)
Definition class_at (code pre name : text) : Prop :=
  exists ws1 ws2 post,
    code = pre ++ txt "class" ++ ws1 ++ name ++ ws2 ++ txt "(" ++ post
    /\ ws1 <> [] /\ all isspace ws1
    /\ name <> [] /\ all isword name
    /\ all isspace ws2.

(** A submission with two scenes. *)
Definition two_scenes : text := txt "from manim import *

class Intro(Scene):
    def construct(self):
        self.add(Text('Intro'))

class Outro(Scene):
    def construct(self):
        self.add(Text('Outro'))".

End EntrySpec.

(** ** Polling a job (app/services/render_service.py) *)

Module Polling.
Import PyStr Store.

(** [s.split(sep)] for a one-character separator. *)
Fixpoint split_on (sep : ascii) (s : text) : list text :=
  match s with
  | [] => [[]]
  | c :: s' =>
      if Ascii.eqb c sep then [] :: split_on sep s'
      else
        match split_on sep s' with
        | part :: parts => (c :: part) :: parts
        | [] => [[c]]
        end
  end.

(** [Path(p).name] on a POSIX system: the last component of the path,
    the empty components and the components [.] left out; the empty
    string when there is none. *)
Definition path_name (p : text) : text :=
  List.last (List.filter (fun part => negb (is_empty part || text_eqb part (txt ".")))
          (split_on "/" p))
       [].

(** [RenderService.get_job_status] *)
Definition get_job_status (job_id : text) (store : EnhancedJobStore)
  : option Routes.RenderJob :=
  match get_job job_id store with
  | None => None
  | Some job =>
      let video_url :=
        match status job, video_path job with
        | ready, Some (c :: p) =>
            Some (txt "/static/videos/" ++ path_name (c :: p))
        | _, _ => None
        end in
      Some {| Routes.jobId := id job; Routes.status := status job;
              Routes.videoUrl := video_url;
              Routes.error := error_message job |}
  end.

End Polling.

(** ** The final component of a path *)

Module PathSpec.
Import PyStr StrSpec.

(** What may follow the final component of a path: slashes, and dots
    that stand alone between slashes or at the end. *)
Inductive idle : text -> Prop :=
| idle_end : idle []
| idle_slash t : idle t -> idle ("/"%char :: t)
| idle_dot t : idle t -> idle ("/"%char :: "."%char :: t).

(** [name] is the final component of [path]: the last stretch between
    slashes that is neither empty nor a single dot, and the empty text
    when the path has no such stretch. *)
Definition final_component (path name : text) : Prop :=
  (name = []
   /\ exists after, idle after /\ (path = after \/ path = "."%char :: after))
  \/ (name <> [] /\ name <> txt "." /\ free_of "/" name
      /\ exists before after,
           path = before ++ name ++ after /\ idle after
           /\ (before = [] \/ exists b, before = b ++ txt "/")).

End PathSpec.

(** * Properties *)

(** ** The matcher finds what the patterns denote *)

Section MatcherFacts.
Import PyStr Re ReSpec.

Lemma star_sound {A} p : forall s cu (k : cursor -> text -> option A) a,
  star p cu s k = Some a ->
  exists cu' s', matches (Star p) cu s cu' s' /\ k cu' s' = Some a.
Proof.
  induction s as [|c s IH]; intros cu k a H; simpl in H.
  - exists cu, []. split; [constructor | exact H].
  - destruct (p c) eqn:Hp.
    + destruct (star p (advance c cu) s k) as [a'|] eqn:Hs.
      * injection H as <-. apply IH in Hs as (cu' & s' & Hm & Hk).
        exists cu', s'. split; [now apply m_star_more | exact Hk].
      * exists cu, (c :: s). split; [constructor | exact H].
    + exists cu, (c :: s). split; [constructor | exact H].
Qed.

Lemma run_sound {A} : forall r cu s (k : cursor -> text -> option A) a,
  run r cu s k = Some a ->
  exists cu' s', matches r cu s cu' s' /\ k cu' s' = Some a.
Proof.
  induction r as [|p|r1 IH1 r2 IH2|r1 IH1 r2 IH2|p|r IH|m|];
    intros cu s k a H; simpl in H.
  - exists cu, s. split; [constructor | exact H].
  - destruct s as [|c s]; [discriminate|].
    destruct (p c) eqn:Hp; [|discriminate].
    exists (advance c cu), s. split; [now constructor | exact H].
  - apply IH1 in H as (cu1 & s1 & H1 & H). apply IH2 in H as (cu2 & s2 & H2 & H).
    exists cu2, s2. split; [now apply m_seq with cu1 s1 | exact H].
  - destruct (run r1 cu s k) as [a1|] eqn:E1.
    + injection H as <-. apply IH1 in E1 as (cu' & s' & Hm & Hk).
      exists cu', s'. split; [now apply m_alt_l | exact Hk].
    + apply IH2 in H as (cu' & s' & Hm & Hk).
      exists cu', s'. split; [now apply m_alt_r | exact Hk].
  - now apply star_sound.
  - apply IH in H as (cu' & s' & Hm & Hk).
    eexists _, s'. split; [apply m_grp; exact Hm | exact Hk].
  - destruct (at_bol m cu) eqn:E; [|discriminate].
    exists cu, s. split; [now constructor | exact H].
  - destruct (at_eol s) eqn:E; [|discriminate].
    exists cu, s. split; [now constructor | exact H].
Qed.

Lemma run_complete {A} : forall r cu s cu' s',
  matches r cu s cu' s' ->
  forall k : cursor -> text -> option A,
    is_Some (k cu' s') -> is_Some (run r cu s k).
Proof.
  induction 1; intros k Hk; simpl.
  - exact Hk.
  - now rewrite H.
  - apply IHmatches1. now apply IHmatches2.
  - destruct (IHmatches k Hk) as [a ->]. now exists a.
  - destruct (run r1 cu s k) as [a|]; [now exists a | now apply IHmatches].
  - destruct s as [|c s]; simpl; [exact Hk|].
    destruct (p c); [|exact Hk].
    destruct (star p (advance c cu) s k) as [a|]; [now exists a | exact Hk].
  - rewrite H. destruct (IHmatches k Hk) as [a Ha]. simpl in Ha.
    rewrite Ha. now exists a.
  - apply IHmatches. exact Hk.
  - now rewrite H.
  - now rewrite H.
Qed.

Lemma match_here_sound r cu s cu' s' :
  match_here r cu s = Some (cu', s') -> matches r cu s cu' s'.
Proof.
  unfold match_here. intros H. apply run_sound in H as (cu1 & s1 & Hm & Hk).
  unfold accept in Hk. now injection Hk as <- <-.
Qed.

Lemma match_here_complete r cu s cu' s' :
  matches r cu s cu' s' -> is_Some (match_here r cu s).
Proof.
  intros H. unfold match_here. apply (run_complete H). now exists (cu', s').
Qed.

Lemma advance_over_snoc pre c cu :
  advance_over (pre ++ [c]) cu = advance c (advance_over pre cu).
Proof. unfold advance_over. now rewrite fold_left_app. Qed.

Lemma search_from_sound r : forall s pre cu' s',
  search_from r (advance_over pre origin) s = Some (cu', s') ->
  exists mid tail, s = mid ++ tail /\
    matches r (advance_over (pre ++ mid) origin) tail cu' s'.
Proof.
  induction s as [|c s IH]; intros pre cu' s' H; simpl in H.
  - destruct (match_here r (advance_over pre origin) []) as [m|] eqn:E;
      [|discriminate].
    injection H as ->. exists [], [].
    split; [reflexivity | rewrite app_nil_r; now apply match_here_sound].
  - destruct (match_here r (advance_over pre origin) (c :: s)) as [m|] eqn:E.
    + injection H as ->. exists [], (c :: s).
      split; [reflexivity | rewrite app_nil_r; now apply match_here_sound].
    + rewrite <- advance_over_snoc in H.
      apply IH in H as (mid & tail & -> & Hm).
      exists (c :: mid), tail. split; [reflexivity|].
      now rewrite <- app_assoc in Hm.
Qed.

Lemma search_from_complete r : forall mid tail pre cu' s',
  matches r (advance_over (pre ++ mid) origin) tail cu' s' ->
  is_Some (search_from r (advance_over pre origin) (mid ++ tail)).
Proof.
  induction mid as [|c mid IH]; intros tail pre cu' s' H.
  - rewrite app_nil_r in H. apply match_here_complete in H as [m Hm].
    simpl. destruct tail; simpl; rewrite Hm; now exists m.
  - simpl.
    destruct (match_here r (advance_over pre origin) (c :: mid ++ tail)) as [m|];
      [now exists m|].
    rewrite <- advance_over_snoc. apply IH with cu' s'.
    now rewrite <- app_assoc.
Qed.

(** [re.search] finds a match exactly when the pattern occurs somewhere
    in the subject, and what it returns is an occurrence. *)
Lemma search_sound r s cu' rest :
  search r s = Some (cu', rest) -> exists pre, occurs_at r s pre cu' rest.
Proof.
  intros H. unfold search in H.
  apply search_from_sound with (pre := []) in H as (mid & tail & -> & Hm).
  exists mid, tail. split; [reflexivity | exact Hm].
Qed.

Lemma search_complete r s pre cu' rest :
  occurs_at r s pre cu' rest -> is_Some (search r s).
Proof.
  intros (tail & -> & Hm).
  now apply search_from_complete with (pre := []) (cu' := cu') (s' := rest).
Qed.

End MatcherFacts.

(** ** Reading the patterns *)

Section PatternFacts.
Import PyStr Re ReSpec.

Lemma advance_over_app w1 w2 cu :
  advance_over (w1 ++ w2) cu = advance_over w2 (advance_over w1 cu).
Proof. unfold advance_over. apply fold_left_app. Qed.

Lemma pos_advance_over w : forall cu,
  pos (advance_over w cu) = pos cu + length w.
Proof.
  induction w as [|c w IH]; intros cu; simpl; [lia|].
  change (advance_over (c :: w) cu) with (advance_over w (advance c cu)).
  rewrite IH. simpl. lia.
Qed.

Lemma cap_advance_over w : forall cu, cap (advance_over w cu) = cap cu.
Proof.
  induction w as [|c w IH]; intros cu; [reflexivity|].
  change (advance_over (c :: w) cu) with (advance_over w (advance c cu)).
  now rewrite IH.
Qed.

Lemma matches_eps_inv cu s cu' s' :
  matches Eps cu s cu' s' -> cu' = cu /\ s' = s.
Proof. inversion 1; subst; auto. Qed.

Lemma matches_seq_inv r1 r2 cu s cu' s' :
  matches (Seq r1 r2) cu s cu' s' ->
  exists cu1 s1, matches r1 cu s cu1 s1 /\ matches r2 cu1 s1 cu' s'.
Proof. inversion 1; subst; eauto. Qed.

Lemma matches_chr_inv c cu s cu' s' :
  matches (chr c) cu s cu' s' -> s = c :: s' /\ cu' = advance c cu.
Proof.
  unfold chr. inversion 1; subst.
  match goal with H : Ascii.eqb _ _ = true |- _ => apply Ascii.eqb_eq in H as -> end.
  auto.
Qed.

Lemma matches_chr c cu s : matches (chr c) cu (c :: s) (advance c cu) s.
Proof. unfold chr. constructor. apply Ascii.eqb_refl. Qed.

Lemma matches_lit_inv w : forall cu s cu' s',
  matches (lit w) cu s cu' s' -> s = w ++ s' /\ cu' = advance_over w cu.
Proof.
  induction w as [|c w IH]; intros cu s cu' s' H; simpl in H.
  - apply matches_eps_inv in H as [-> ->]. auto.
  - apply matches_seq_inv in H as (cu1 & s1 & H1 & H2).
    apply matches_chr_inv in H1 as [-> ->].
    apply IH in H2 as [-> ->]. auto.
Qed.

Lemma matches_lit w : forall cu s,
  matches (lit w) cu (w ++ s) (advance_over w cu) s.
Proof.
  induction w as [|c w IH]; intros cu s; simpl.
  - constructor.
  - eapply m_seq; [apply matches_chr | apply IH].
Qed.

Lemma matches_star_inv p cu s cu' s' :
  matches (Star p) cu s cu' s' ->
  exists w, all p w /\ s = w ++ s' /\ cu' = advance_over w cu.
Proof.
  intros H. remember (Star p) as r eqn:Er.
  induction H; try discriminate; injection Er as ->.
  - exists []. repeat split.
  - destruct (IHmatches eq_refl) as (w & Hw & -> & ->).
    exists (c :: w). repeat split. unfold all. simpl. rewrite H. exact Hw.
Qed.

Lemma matches_star p w : forall cu s,
  all p w -> matches (Star p) cu (w ++ s) (advance_over w cu) s.
Proof.
  induction w as [|c w IH]; intros cu s Hw; simpl.
  - constructor.
  - unfold all in Hw. simpl in Hw. apply andb_prop in Hw as [Hc Hw].
    apply m_star_more; [exact Hc | now apply IH].
Qed.

Lemma matches_plus_inv p cu s cu' s' :
  matches (plus p) cu s cu' s' ->
  exists w, w <> [] /\ all p w /\ s = w ++ s' /\ cu' = advance_over w cu.
Proof.
  unfold plus. intros H. apply matches_seq_inv in H as (cu1 & s1 & H1 & H2).
  inversion H1 as [|q c cu0 s0 Hc| | | | | | | |]; subst.
  apply matches_star_inv in H2 as (w & Hw & -> & ->).
  exists (c :: w). repeat split; [discriminate|].
  unfold all. simpl. now rewrite Hc.
Qed.

Lemma matches_plus p w cu s :
  w <> [] -> all p w -> matches (plus p) cu (w ++ s) (advance_over w cu) s.
Proof.
  destruct w as [|c w]; [congruence|]. intros _ Hw.
  unfold all in Hw. simpl in Hw. apply andb_prop in Hw as [Hc Hw].
  unfold plus. simpl. eapply m_seq; [now apply m_cls | now apply matches_star].
Qed.

Lemma matches_grp_plus_inv p cu s cu' s' :
  matches (Grp (plus p)) cu s cu' s' ->
  exists w, w <> [] /\ all p w /\ s = w ++ s'
    /\ cu' = capture w (advance_over w cu).
Proof.
  inversion 1; subst.
  match goal with H : matches (plus p) _ _ _ _ |- _ =>
    apply matches_plus_inv in H as (w & Hne & Hw & -> & ->) end.
  exists w. repeat split; auto.
  rewrite pos_advance_over.
  replace (pos cu + length w - pos cu) with (length w) by lia.
  now rewrite firstn_app, Nat.sub_diag, firstn_all, app_nil_r.
Qed.

Lemma matches_grp_plus p w cu s :
  w <> [] -> all p w ->
  matches (Grp (plus p)) cu (w ++ s) (capture w (advance_over w cu)) s.
Proof.
  intros Hne Hw.
  pose proof (m_grp (matches_plus cu s Hne Hw)) as H.
  rewrite pos_advance_over in H.
  replace (pos cu + length w - pos cu) with (length w) in H by lia.
  now rewrite firstn_app, Nat.sub_diag, firstn_all, app_nil_r in H.
Qed.

Lemma cap_advance c cu : cap (advance c cu) = cap cu.
Proof. reflexivity. Qed.

End PatternFacts.

(** ** Entry-point extraction *)

Section SceneFacts.
Import PyStr Re ReSpec SceneSpec Render.

Lemma any_class_pattern_inv cu s cu' s' :
  matches any_class_pattern cu s cu' s' ->
  exists ws1 name ws2,
    s = txt "class" ++ ws1 ++ name ++ ws2 ++ txt "(" ++ s'
    /\ ws1 <> [] /\ all isspace ws1 /\ name <> [] /\ all isword name
    /\ all isspace ws2 /\ cap cu' = Some name.
Proof.
  unfold any_class_pattern, cat. cbn [fold_right]. intros H.
  apply matches_seq_inv in H as (c1 & s1 & H1 & H).
  apply matches_seq_inv in H as (c2 & s2 & H2 & H).
  apply matches_seq_inv in H as (c3 & s3 & H3 & H).
  apply matches_seq_inv in H as (c4 & s4 & H4 & H).
  apply matches_seq_inv in H as (c5 & s5 & H5 & H).
  apply matches_eps_inv in H as [-> ->].
  apply matches_lit_inv in H1 as [-> ->].
  apply matches_plus_inv in H2 as (ws1 & Hne1 & Hws1 & -> & ->).
  apply matches_grp_plus_inv in H3 as (name & Hne & Hname & -> & ->).
  apply matches_star_inv in H4 as (ws2 & Hws2 & -> & ->).
  apply matches_chr_inv in H5 as [-> ->].
  exists ws1, name, ws2. repeat split; auto.
  repeat first [rewrite cap_advance_over | rewrite cap_advance]. reflexivity.
Qed.

Lemma any_class_pattern_intro cu ws1 name ws2 s' :
  ws1 <> [] -> all isspace ws1 -> name <> [] -> all isword name ->
  all isspace ws2 ->
  exists cu',
    matches any_class_pattern cu
      (txt "class" ++ ws1 ++ name ++ ws2 ++ txt "(" ++ s') cu' s'.
Proof.
  intros Hne1 Hws1 Hne Hname Hws2.
  unfold any_class_pattern, cat. cbn [fold_right]. eexists.
  eapply m_seq; [apply matches_lit|].
  eapply m_seq; [now apply matches_plus|].
  eapply m_seq; [now apply matches_grp_plus|].
  eapply m_seq; [now apply matches_star|].
  eapply m_seq; [apply matches_chr | constructor].
Qed.

Lemma scene_pattern_inv cu s cu' s' :
  matches scene_pattern cu s cu' s' ->
  exists ws1 name ws2 ws3 ws4,
    s = txt "class" ++ ws1 ++ name ++ ws2 ++ txt "(" ++ ws3
          ++ txt "Scene" ++ ws4 ++ txt ")" ++ s'
    /\ ws1 <> [] /\ all isspace ws1 /\ name <> [] /\ all isword name
    /\ all isspace ws2 /\ all isspace ws3 /\ all isspace ws4
    /\ cap cu' = Some name.
Proof.
  unfold scene_pattern, cat. cbn [fold_right]. intros H.
  apply matches_seq_inv in H as (c1 & s1 & H1 & H).
  apply matches_seq_inv in H as (c2 & s2 & H2 & H).
  apply matches_seq_inv in H as (c3 & s3 & H3 & H).
  apply matches_seq_inv in H as (c4 & s4 & H4 & H).
  apply matches_seq_inv in H as (c5 & s5 & H5 & H).
  apply matches_seq_inv in H as (c6 & s6 & H6 & H).
  apply matches_seq_inv in H as (c7 & s7 & H7 & H).
  apply matches_seq_inv in H as (c8 & s8 & H8 & H).
  apply matches_seq_inv in H as (c9 & s9 & H9 & H).
  apply matches_eps_inv in H as [-> ->].
  apply matches_lit_inv in H1 as [-> ->].
  apply matches_plus_inv in H2 as (ws1 & Hne1 & Hws1 & -> & ->).
  apply matches_grp_plus_inv in H3 as (name & Hne & Hname & -> & ->).
  apply matches_star_inv in H4 as (ws2 & Hws2 & -> & ->).
  apply matches_chr_inv in H5 as [-> ->].
  apply matches_star_inv in H6 as (ws3 & Hws3 & -> & ->).
  apply matches_lit_inv in H7 as [-> ->].
  apply matches_star_inv in H8 as (ws4 & Hws4 & -> & ->).
  apply matches_chr_inv in H9 as [-> ->].
  exists ws1, name, ws2, ws3, ws4. repeat split; auto.
  repeat first [rewrite cap_advance_over | rewrite cap_advance]. reflexivity.
Qed.

Lemma scene_pattern_intro cu ws1 name ws2 ws3 ws4 s' :
  ws1 <> [] -> all isspace ws1 -> name <> [] -> all isword name ->
  all isspace ws2 -> all isspace ws3 -> all isspace ws4 ->
  exists cu',
    matches scene_pattern cu
      (txt "class" ++ ws1 ++ name ++ ws2 ++ txt "(" ++ ws3
         ++ txt "Scene" ++ ws4 ++ txt ")" ++ s') cu' s'.
Proof.
  intros Hne1 Hws1 Hne Hname Hws2 Hws3 Hws4.
  unfold scene_pattern, cat. cbn [fold_right]. eexists.
  eapply m_seq; [apply matches_lit|].
  eapply m_seq; [now apply matches_plus|].
  eapply m_seq; [now apply matches_grp_plus|].
  eapply m_seq; [now apply matches_star|].
  eapply m_seq; [apply matches_chr|].
  eapply m_seq; [now apply matches_star|].
  eapply m_seq; [apply matches_lit|].
  eapply m_seq; [now apply matches_star|].
  eapply m_seq; [apply matches_chr | constructor].
Qed.

(** The first pattern finds a name exactly when the code declares a class
    deriving from [Scene], and the name it finds is the name of one. *)
Lemma scene_search_sound code name :
  search_group scene_pattern code = Some name -> declares_scene code name.
Proof.
  unfold search_group. destruct (search scene_pattern code) as [[cu' rest]|] eqn:E;
    [|discriminate].
  intros Hcap. apply search_sound in E as (pre & tail & -> & Hm).
  apply scene_pattern_inv in Hm
    as (ws1 & n & ws2 & ws3 & ws4 & -> & ? & ? & ? & ? & ? & ? & ? & Hc).
  rewrite Hc in Hcap. injection Hcap as ->.
  exists pre, ws1, ws2, ws3, ws4, rest. repeat split; auto.
Qed.

Lemma scene_search_complete code n :
  declares_scene code n -> exists name, search_group scene_pattern code = Some name.
Proof.
  intros (pre & ws1 & ws2 & ws3 & ws4 & post & -> & ? & ? & ? & ? & ? & ? & ?).
  destruct (scene_pattern_intro (advance_over pre origin) (ws1 := ws1)
              (name := n) (ws2 := ws2) (ws3 := ws3) (ws4 := ws4) post)
    as (cu' & Hm); auto.
  assert (Hs : is_Some (search scene_pattern
            (pre ++ txt "class" ++ ws1 ++ n ++ ws2 ++ txt "(" ++ ws3
               ++ txt "Scene" ++ ws4 ++ txt ")" ++ post))).
  { apply search_complete with pre cu' post. eexists. split; [reflexivity|exact Hm]. }
  destruct Hs as [[cu1 rest1] Hs]. unfold search_group. rewrite Hs.
  apply search_sound in Hs as (pre1 & tail1 & _ & Hm1).
  apply scene_pattern_inv in Hm1
    as (? & name & ? & ? & ? & _ & _ & _ & _ & _ & _ & _ & _ & Hc).
  exists name. exact Hc.
Qed.

Lemma class_search_sound code name :
  search_group any_class_pattern code = Some name -> declares_class code name.
Proof.
  unfold search_group.
  destruct (search any_class_pattern code) as [[cu' rest]|] eqn:E; [|discriminate].
  intros Hcap. apply search_sound in E as (pre & tail & -> & Hm).
  apply any_class_pattern_inv in Hm as (ws1 & n & ws2 & -> & ? & ? & ? & ? & ? & Hc).
  rewrite Hc in Hcap. injection Hcap as ->.
  exists pre, ws1, ws2, rest. repeat split; auto.
Qed.

Lemma class_search_complete code n :
  declares_class code n ->
  exists name, search_group any_class_pattern code = Some name.
Proof.
  intros (pre & ws1 & ws2 & post & -> & ? & ? & ? & ? & ?).
  destruct (any_class_pattern_intro (advance_over pre origin) (ws1 := ws1)
              (name := n) (ws2 := ws2) post) as (cu' & Hm); auto.
  assert (Hs : is_Some (search any_class_pattern
            (pre ++ txt "class" ++ ws1 ++ n ++ ws2 ++ txt "(" ++ post))).
  { apply search_complete with pre cu' post. eexists. split; [reflexivity|exact Hm]. }
  destruct Hs as [[cu1 rest1] Hs]. unfold search_group. rewrite Hs.
  apply search_sound in Hs as (pre1 & tail1 & _ & Hm1).
  apply any_class_pattern_inv in Hm1 as (? & name & ? & _ & _ & _ & _ & _ & _ & Hc).
  exists name. exact Hc.
Qed.

(** A class that derives from [Scene] is in particular a class declared
    with a parenthesis. *)
Lemma declares_scene_class code n : declares_scene code n -> declares_class code n.
Proof.
  intros (pre & ws1 & ws2 & ws3 & ws4 & post & -> & ? & ? & ? & ? & ? & ? & ?).
  exists pre, ws1, ws2, (ws3 ++ txt "Scene" ++ ws4 ++ txt ")" ++ post).
  repeat split; auto.
Qed.

End SceneFacts.

Section EntryPoint.
Import PyStr Re ReSpec SceneSpec Render Samples.

(** C2, counterexample.  No class of [helper_only] derives from [Scene],
    the validator lets the submission through, and the extraction does not
    fail: it answers with the class that is there. *)
Lemma get_scene_class_name_falls_back :
  (forall name, ~ declares_scene helper_only name)
  /\ Validation.validate_code helper_only = Return helper_only
  /\ _get_scene_class_name helper_only = Return (txt "Helper").
Proof.
  split; [|split; vm_compute; reflexivity].
  intros name H. apply scene_search_complete in H as (n & H).
  vm_compute in H. discriminate.
Qed.

(** C2, as amended.  Entry-point extraction returns the name of a class
    that derives from [Scene] when the code declares one; when it declares
    none, it falls back to the name of a class declared with a
    parenthesis, whatever its base; it raises "No Scene class found in
    code" only for code in which no class is declared with a
    parenthesis. *)
Theorem get_scene_class_name_spec (code : text) :
  (forall name, _get_scene_class_name code = Return name ->
     declares_scene code name
     \/ ((forall n, ~ declares_scene code n) /\ declares_class code name))
  /\ ((exists n, declares_scene code n) ->
      exists name, _get_scene_class_name code = Return name
                   /\ declares_scene code name)
  /\ ((exists n, declares_class code n) ->
      exists name, _get_scene_class_name code = Return name)
  /\ (forall e, _get_scene_class_name code = Raise e ->
      e = ValueError (txt "No Scene class found in code")
      /\ forall n, ~ declares_class code n).
Proof.
  unfold _get_scene_class_name.
  destruct (search_group scene_pattern code) as [name1|] eqn:E1.
  - apply scene_search_sound in E1 as Hd. split; [|split; [|split]].
    + intros name [= <-]. now left.
    + intros _. now exists name1.
    + intros _. now exists name1.
    + discriminate.
  - assert (Hnone : forall n, ~ declares_scene code n).
    { intros n Hn. apply scene_search_complete in Hn as (name & Hn). congruence. }
    destruct (search_group any_class_pattern code) as [name2|] eqn:E2.
    + apply class_search_sound in E2 as Hd. split; [|split; [|split]].
      * intros name [= <-]. now right.
      * intros (n & Hn). now destruct (Hnone n).
      * intros _. now exists name2.
      * discriminate.
    + split; [|split; [|split]].
      * discriminate.
      * intros (n & Hn). now destruct (Hnone n).
      * intros (n & Hn). apply class_search_complete in Hn as (name & Hn). congruence.
      * intros e [= <-]. split; [reflexivity|].
        intros n Hn. apply class_search_complete in Hn as (name & Hn). congruence.
Qed.

Lemma get_scene_class_name_spec_witness :
  declares_scene demo_scene (txt "Demo")
  \/ ((forall n, ~ declares_scene demo_scene n)
      /\ declares_class demo_scene (txt "Demo")).
Proof.
  apply (proj1 (get_scene_class_name_spec demo_scene) (txt "Demo")).
  vm_compute. reflexivity.
Defined.

End EntryPoint.

(** ** Filename validation *)

Section Filenames.
Import PyStr Re ReSpec Validation.

Lemma safe_name_pattern_inv s cu' s' :
  rmatch safe_name_pattern s = Some (cu', s') ->
  exists stem, s = stem ++ s' /\ stem <> [] /\ all safe_char stem
    /\ (s' = [] \/ s' = [newline]).
Proof.
  intros H. apply match_here_sound in H.
  unfold safe_name_pattern, cat in H. cbn [fold_right] in H.
  apply matches_seq_inv in H as (c1 & s1 & H1 & H).
  apply matches_seq_inv in H as (c2 & s2 & H2 & H).
  apply matches_seq_inv in H as (c3 & s3 & H3 & H).
  apply matches_eps_inv in H as [E1 E2]. subst c3 s3.
  inversion H1; subst. inversion H3 as [| | | | | | | | |cu0 s0 Heol]; subst.
  apply matches_plus_inv in H2 as (stem & Hne & Hstem & -> & _).
  exists stem. repeat split; auto.
  destruct s' as [|c [|c' s'']]; simpl in Heol; try discriminate; auto.
  apply Ascii.eqb_eq in Heol as ->. now right.
Qed.

(** What does hold of every name the validation returns: its characters
    are the safe ones, except that a newline may end it; it does not
    begin with a hyphen or an underscore; it has at most 55 characters. *)
Lemma validate_filename_returns filename name :
  validate_filename filename = Return name ->
  (exists stem tail, name = stem ++ tail /\ stem <> [] /\ all safe_char stem
     /\ (tail = [] \/ tail = [newline]))
  /\ startswith (txt "-") name = false
  /\ startswith (txt "_") name = false
  /\ (length name <= 55)%nat.
Proof.
  unfold validate_filename.
  destruct (is_empty filename); [discriminate|].
  set (stripped := sub_delete extension_pattern (strip filename)).
  destruct (len stripped <? 1)%Z; [discriminate|].
  destruct (50 <? len stripped)%Z eqn:Hlen; [discriminate|].
  destruct (rmatch safe_name_pattern stripped) as [[cu' s']|] eqn:Hm;
    [|rewrite bool_decide_eq_false_2; [discriminate | now intros [x Hx]]].
  rewrite bool_decide_eq_true_2 by (now eexists). simpl negb. cbv iota.
  destruct (mem (lower stripped) reserved_names); [discriminate|].
  apply safe_name_pattern_inv in Hm as (stem & Hs & Hne & Hstem & Htail).
  apply Z.ltb_ge in Hlen. unfold len in Hlen.
  destruct (startswith (txt "-") stripped || startswith (txt "_") stripped) eqn:Hp;
    intros [= <-].
  - split; [|split; [reflexivity | split; [reflexivity |]]].
    + exists (txt "file_" ++ stem), s'. rewrite Hs, <- app_assoc.
      split; [reflexivity|]. split; [discriminate|]. split; [|exact Htail].
      unfold all. rewrite forallb_app. now rewrite Hstem.
    + simpl. lia.
  - apply orb_false_elim in Hp as [Hp1 Hp2].
    split; [|split; [exact Hp1 | split; [exact Hp2 | lia]]].
    exists stem, s'. repeat (split; [assumption|]). exact Htail.
Qed.

(** C9.  The name [abc], a newline, [.txt] is accepted, and the name
    returned ends with the newline: [$] in the pattern of safe names also
    matches before a newline that ends the string, and the name checked
    is the one returned.  A newline is not a letter, a digit, an
    underscore or a hyphen. *)
Theorem validate_filename_keeps_newline :
  validate_filename (txt "abc" ++ [newline] ++ txt ".txt")
    = Return (txt "abc" ++ [newline])
  /\ safe_char newline = false.
Proof. split; vm_compute; reflexivity. Qed.

(** The prefix is added after the length is checked: a name of 50
    characters that begins with an underscore comes back with 55. *)
Lemma validate_filename_55 :
  exists name,
    validate_filename (txt "_" ++ repeat "a"%char 49) = Return name
    /\ length name = 55%nat.
Proof. eexists. split; vm_compute; reflexivity. Qed.

End Filenames.

(** ** The code scanner *)

Section CodeScanner.
Import PyStr Re ReSpec Validation ValidationSpec Samples.

Lemma startswith_spec needle : forall hay,
  startswith needle hay = true <-> exists post, hay = needle ++ post.
Proof.
  induction needle as [|c needle IH]; intros hay; cbn [startswith].
  - split; [intros _; now exists hay | reflexivity].
  - destruct hay as [|d hay].
    + split; [discriminate | intros (post & H); discriminate].
    + rewrite andb_true_iff, Ascii.eqb_eq, IH. split.
      * intros (-> & post & ->). now exists post.
      * intros (post & [= -> ->]). split; [reflexivity | now exists post].
Qed.

Lemma contains_spec needle : forall hay,
  contains needle hay = true <-> substring needle hay.
Proof.
  induction hay as [|d hay IH]; cbn [contains]; rewrite orb_true_iff.
  - rewrite startswith_spec. split.
    + intros [(post & ->)|H]; [|discriminate]. now exists [], post.
    + intros (pre & post & H). left. destruct pre; [|discriminate].
      now exists post.
  - rewrite startswith_spec, IH. split.
    + intros [(post & ->)|(pre & post & ->)]; [now exists [], post|].
      now exists (d :: pre), post.
    + intros ([|c pre] & post & H).
      * left. now exists post.
      * right. injection H as -> ->. now exists pre, post.
Qed.

Lemma contains_false_spec needle hay :
  contains needle hay = false <-> ~ substring needle hay.
Proof.
  rewrite <- contains_spec. destruct (contains needle hay); split; congruence.
Qed.

(** White space stays white space when lowercased, so a character that
    lowers to a letter is not white space. *)
Lemma lower_char_space c : isspace c = true -> lower_char c = c.
Proof.
  destruct c as [[] [] [] [] [] [] [] []]; vm_compute; congruence.
Qed.

Lemma lstrip_keeps pre c mid post :
  isspace c = false ->
  exists pre', lstrip (pre ++ c :: mid ++ post) = pre' ++ c :: mid ++ post.
Proof.
  intros Hc. induction pre as [|d pre IH]; cbn [app lstrip].
  - rewrite Hc. now exists [].
  - destruct (isspace d); [exact IH | now exists (d :: pre)].
Qed.

Lemma strip_keeps pre mid post first last :
  hd_error mid = Some first -> isspace first = false ->
  hd_error (rev mid) = Some last -> isspace last = false ->
  substring mid (strip (pre ++ mid ++ post)).
Proof.
  intros Hf Hfs Hl Hls. unfold strip, rstrip.
  destruct mid as [|c mid]; [discriminate|]. injection Hf as ->.
  cbn [app].
  destruct (@lstrip_keeps pre first mid post Hfs) as (pre' & ->).
  change (pre' ++ first :: mid ++ post) with (pre' ++ (first :: mid) ++ post).
  rewrite !rev_app_distr.
  destruct (rev (first :: mid)) as [|l rmid] eqn:E; [discriminate|].
  injection Hl as ->.
  rewrite <- app_assoc. cbn [app].
  destruct (@lstrip_keeps (rev post) last rmid (rev pre') Hls) as (post' & ->).
  change (post' ++ last :: rmid ++ rev pre')
    with (post' ++ (last :: rmid) ++ rev pre').
  rewrite <- E, !rev_app_distr, !rev_involutive, <- app_assoc.
  now exists pre', (rev post').
Qed.

Lemma lower_app a b : lower (a ++ b) = lower a ++ lower b.
Proof. apply map_app. Qed.

Lemma http_survives code :
  substring_ignoring_case (txt "http") code ->
  code <> [] /\ substring (txt "http") (lower (strip code)).
Proof.
  intros (pre & mid & post & -> & Hmid).
  destruct mid as [|c1 [|c2 [|c3 [|c4 [|c5 mid]]]]]; try discriminate.
  injection Hmid as H1 H2 H3 H4.
  split; [destruct pre; discriminate|].
  destruct (@strip_keeps pre [c1; c2; c3; c4] post c1 c4 eq_refl) as (a & b & ->);
    [| reflexivity | |].
  - destruct (isspace c1) eqn:E; [|reflexivity].
    pose proof (lower_char_space _ E) as E'. rewrite E' in H1. subst c1.
    vm_compute in E. discriminate.
  - destruct (isspace c4) eqn:E; [|reflexivity].
    pose proof (lower_char_space _ E) as E'. rewrite E' in H4. subst c4.
    vm_compute in E. discriminate.
  - exists (lower a), (lower b). rewrite !lower_app. cbn [lower map].
    now rewrite H1, H2, H3, H4.
Qed.

(** C10.  Code in which [http] occurs, in any letter case and at any
    place, is rejected: either an earlier check raises, or the check for
    network operations does. *)
Theorem validate_code_rejects_http (code : text) :
  substring_ignoring_case (txt "http") code -> raises (validate_code code).
Proof.
  intros H. apply http_survives in H as [Hne H]. apply contains_spec in H.
  unfold validate_code.
  destruct code as [|c code]; [congruence|]. cbn [is_empty].
  set (stripped := strip (c :: code)) in *.
  destruct (len stripped <? 10)%Z; [exact I|].
  destruct (5000 <? len stripped)%Z; [exact I|].
  destruct (dangerous_import _); [exact I|].
  destruct (existsb _ DANGEROUS_KEYWORDS); [exact I|].
  destruct (existsb _ file_patterns); [exact I|].
  replace (existsb _ network_patterns) with true; [exact I|].
  symmetry. apply existsb_exists. exists (txt "http").
  split; [|exact H]. right. right. now left.
Qed.

Lemma validate_code_rejects_http_witness :
  raises (validate_code commented_scene).
Proof.
  apply validate_code_rejects_http.
  exists (firstn 79 commented_scene), (txt "HTTP"), (skipn 83 commented_scene).
  split; vm_compute; reflexivity.
Defined.

End CodeScanner.

(** ** The rate limiter *)

Section RateLimiter.
Import PyStr Validation RateSpec.
Open Scope Z_scope.

(** While the timestamps are in the order they were recorded in, popping
    the old ones off the left end leaves exactly those of the window. *)
Lemma popleft_while_sorted cutoff times :
  Sorted Z.le times ->
  popleft_while (fun t => t <? cutoff) times
  = List.filter (fun t => cutoff <=? t) times.
Proof.
  intros Hs. apply Sorted_StronglySorted in Hs; [|intros x y z; lia].
  induction Hs as [|t rest Hrest IH Hall]; [reflexivity|].
  cbn [popleft_while List.filter].
  destruct (Z.ltb_spec t cutoff) as [Hlt|Hge].
  - replace (cutoff <=? t) with false by (symmetry; apply Z.leb_gt; lia).
    exact IH.
  - replace (cutoff <=? t) with true by (symmetry; apply Z.leb_le; lia).
    f_equal. symmetry. apply forallb_filter_id.
    apply forallb_forall. intros x Hx.
    rewrite List.Forall_forall in Hall. apply Hall in Hx. apply Z.leb_le. lia.
Qed.

Lemma recorded_insert (storage : gmap text (list Z)) (key : text)
    (times : list Z) :
  recorded (<[key := times]> storage) key = times.
Proof. unfold recorded. now rewrite lookup_insert_eq. Qed.

Lemma check_rate_limit_unfold now client_ip endpoint limit window storage :
  check_rate_limit now client_ip endpoint limit window storage =
    let key := rate_key client_ip endpoint in
    let times :=
      popleft_while (fun t => t <? now - window * 60) (recorded storage key) in
    if limit <=? Z.of_nat (length times)
    then (false, <[key := times]> storage)
    else (true, <[key := times ++ [now]]> storage).
Proof. reflexivity. Qed.

Lemma recorded_other (storage : gmap text (list Z)) (key k : text)
    (times : list Z) :
  k <> key -> <[key := times]> storage !! k = storage !! k.
Proof. intros H. now apply lookup_insert_ne. Qed.

Lemma in_window_bounds now window times t :
  In t (in_window now window times) <-> In t times /\ now - window * 60 <= t.
Proof. unfold in_window. rewrite filter_In, Z.leb_le. tauto. Qed.

Lemma strongly_sorted_in_window now window times :
  StronglySorted Z.le times -> StronglySorted Z.le (in_window now window times).
Proof.
  unfold in_window. induction 1 as [|t rest Hrest IH Hall]; cbn [List.filter].
  - constructor.
  - destruct (now - window * 60 <=? t); [|exact IH].
    constructor; [exact IH|].
    rewrite List.Forall_forall in *. intros x Hx.
    apply filter_In in Hx as [Hx _]. now apply Hall.
Qed.

Lemma strongly_sorted_snoc times now :
  StronglySorted Z.le times -> Forall (fun t => t <= now) times ->
  StronglySorted Z.le (times ++ [now]).
Proof.
  induction 1 as [|t rest Hrest IH Hall]; intros Hle; cbn [app].
  - repeat constructor.
  - apply List.Forall_cons_iff in Hle as [Ht Hle].
    constructor; [now apply IH|].
    apply List.Forall_app. split; [exact Hall | now constructor].
Qed.

(** One call, for timestamps in the order they were recorded in. *)
Lemma check_rate_limit_window now client_ip endpoint limit window storage :
  let key := rate_key client_ip endpoint in
  Sorted Z.le (recorded storage key) ->
  let counted := in_window now window (recorded storage key) in
  let result := check_rate_limit now client_ip endpoint limit window storage in
  (fst result = true <-> Z.of_nat (length counted) < limit)
  /\ recorded (snd result) key = counted ++ (if fst result then [now] else [])
  /\ (forall k, k <> key -> snd result !! k = storage !! k).
Proof.
  intros key Hs counted result. subst result.
  rewrite check_rate_limit_unfold. cbv zeta. fold key.
  rewrite popleft_while_sorted by exact Hs.
  fold (in_window now window (recorded storage key)). fold counted.
  destruct (Z.leb_spec limit (Z.of_nat (length counted))) as [Hle|Hlt];
    cbn [fst snd].
  - split; [split; [discriminate | lia]|].
    split; [now rewrite recorded_insert, app_nil_r|].
    intros k Hk. now apply recorded_other.
  - split; [split; [lia | reflexivity]|].
    split; [now rewrite recorded_insert|].
    intros k Hk. now apply recorded_other.
Qed.

(** The order is kept as long as the clock does not run backwards. *)
Lemma check_rate_limit_keeps_order now client_ip endpoint limit window storage :
  let key := rate_key client_ip endpoint in
  Sorted Z.le (recorded storage key) ->
  Forall (fun t => t <= now) (recorded storage key) ->
  let storage' :=
    snd (check_rate_limit now client_ip endpoint limit window storage) in
  Sorted Z.le (recorded storage' key)
  /\ Forall (fun t => t <= now) (recorded storage' key).
Proof.
  intros key Hs Hle storage'.
  destruct (check_rate_limit_window now client_ip endpoint limit window storage Hs)
    as (_ & Hrec & _).
  fold key storage' in Hrec. rewrite Hrec.
  apply Sorted_StronglySorted in Hs; [|intros x y z; lia].
  assert (Hw : StronglySorted Z.le (in_window now window (recorded storage key)))
    by now apply strongly_sorted_in_window.
  assert (Hwle : Forall (fun t => t <= now)
                   (in_window now window (recorded storage key))).
  { rewrite List.Forall_forall in *. intros t Ht.
    apply in_window_bounds in Ht as [Ht _]. now apply Hle. }
  destruct (fst (check_rate_limit now client_ip endpoint limit window storage)).
  - split.
    + apply StronglySorted_Sorted. now apply strongly_sorted_snoc.
    + apply List.Forall_app. split; [exact Hwle|]. constructor; [lia | constructor].
  - rewrite app_nil_r. split; [now apply StronglySorted_Sorted | exact Hwle].
Qed.

Lemma popleft_while_suffix old : forall times,
  exists dropped, times = dropped ++ popleft_while old times.
Proof.
  induction times as [|t rest IH]; [now exists []|]. cbn [popleft_while].
  destruct (old t); [|now exists []].
  destruct IH as (dropped & IH). exists (t :: dropped). cbn [app]. now f_equal.
Qed.

Lemma recorded_sweep (now max_age_hours : Z) (storage : gmap text (list Z))
    (key : text) :
  recorded (clean_rate_limit_storage now max_age_hours storage) key
  = popleft_while (fun t => t <? now - max_age_hours * 3600)
      (recorded storage key).
Proof.
  unfold recorded, clean_rate_limit_storage.
  rewrite map_lookup_filter, lookup_fmap.
  destruct (storage !! key) as [times|]; [|reflexivity]. cbn.
  destruct (popleft_while _ times) as [|t rest] eqn:E.
  - rewrite option_guard_False; [reflexivity | auto].
  - rewrite option_guard_True; [reflexivity | discriminate].
Qed.

(** In every storage the service can be in, the timestamps of a key are
    in the order they were recorded in, none later than the clock. *)
Lemma reachable_in_order storage t :
  reachable storage t ->
  forall key, Sorted Z.le (recorded storage key)
              /\ Forall (fun x => x <= t) (recorded storage key).
Proof.
  induction 1 as [t|storage t now ip ep limit window Hr IH Ht
                  |storage t now age Hr IH Ht]; intros key.
  - unfold recorded. rewrite lookup_empty. split; constructor.
  - destruct (IH key) as [Hs Hle].
    destruct (decide (key = rate_key ip ep)) as [->|Hne].
    + apply check_rate_limit_keeps_order; [exact Hs|].
      eapply List.Forall_impl; [|exact Hle]. intros x Hx. cbv beta in *. lia.
    + unfold recorded.
      rewrite check_rate_limit_unfold. cbv zeta.
      destruct (limit <=? _); cbn [snd]; rewrite lookup_insert_ne by congruence;
        (split; [exact Hs|]);
        (eapply List.Forall_impl; [|exact Hle]); intros x Hx; cbv beta in *; lia.
  - destruct (IH key) as [Hs Hle]. rewrite recorded_sweep.
    destruct (popleft_while_suffix (fun t => t <? now - age * 3600)
                (recorded storage key)) as (dropped & Heq).
    set (kept := popleft_while _ _) in *. clearbody kept.
    rewrite Heq in Hs, Hle.
    apply List.Forall_app in Hle as [_ Hle].
    apply Sorted_StronglySorted in Hs; [|intros x y z; lia].
    split.
    + apply StronglySorted_Sorted.
      clear -Hs. induction dropped as [|d dropped IHd]; [exact Hs|].
      apply IHd. now inversion Hs.
    + eapply List.Forall_impl; [|exact Hle]. intros x Hx. cbv beta in *. lia.
Qed.

Ltac compare_times :=
  repeat match goal with
         | |- context [(?a <? ?b)%Z] => destruct (Z.ltb_spec a b); try lia
         end.

Ltac count_times :=
  cbn [length app];
  repeat match goal with
         | |- context [(5 <=? Z.of_nat ?n)%Z] =>
             let b := eval vm_compute in (5 <=? Z.of_nat n)%Z in
             change (5 <=? Z.of_nat n)%Z with b
         end;
  cbv beta iota.

(** Five requests within one window of five minutes, a sixth in the same
    window, a seventh after the window of the first has elapsed. *)
Lemma five_in_five_minutes client_ip endpoint storage t1 t2 t3 t4 t5 t6 t7 :
  recorded storage (rate_key client_ip endpoint) = [] ->
  t1 <= t2 -> t2 <= t3 -> t3 <= t4 -> t4 <= t5 -> t5 <= t6 -> t6 <= t7 ->
  t6 <= t1 + 5 * 60 ->
  t1 + 5 * 60 < t7 ->
  serve [t1; t2; t3; t4; t5; t6; t7] client_ip endpoint 5 5 storage
  = [true; true; true; true; true; false; true].
Proof.
  intros Hnew H12 H23 H34 H45 H56 H67 Hin Hout.
  unfold serve.
  rewrite check_rate_limit_unfold. cbv zeta. rewrite Hnew.
  cbn [popleft_while]. count_times.
  repeat (rewrite check_rate_limit_unfold; cbv zeta; rewrite recorded_insert;
          cbn [popleft_while]; compare_times; count_times).
  all: reflexivity.
Qed.

(** C3.  In every storage the service can be in, a request is let
    through exactly when fewer than [limit] of the timestamps recorded
    for its key lie in the trailing window; the timestamps older than the
    window are dropped, the current one is recorded only when the request
    is let through, and the other keys are left alone.  With a limit of 5
    in 5 minutes: five requests within one window are let through, a
    sixth in that window is rejected, and a request made once the window
    has elapsed is let through again. *)
Theorem rate_limiter_allows_below_limit :
  (forall storage t now client_ip endpoint limit window,
     reachable storage t ->
     let key := rate_key client_ip endpoint in
     let counted := in_window now window (recorded storage key) in
     let result := check_rate_limit now client_ip endpoint limit window storage in
     (fst result = true <-> Z.of_nat (length counted) < limit)
     /\ recorded (snd result) key = counted ++ (if fst result then [now] else [])
     /\ (forall k, k <> key -> snd result !! k = storage !! k))
  /\ (forall client_ip endpoint storage t1 t2 t3 t4 t5 t6 t7,
       recorded storage (rate_key client_ip endpoint) = [] ->
       t1 <= t2 -> t2 <= t3 -> t3 <= t4 -> t4 <= t5 -> t5 <= t6 -> t6 <= t7 ->
       t6 <= t1 + 5 * 60 ->
       t1 + 5 * 60 < t7 ->
       serve [t1; t2; t3; t4; t5; t6; t7] client_ip endpoint 5 5 storage
       = [true; true; true; true; true; false; true]).
Proof.
  split.
  - intros storage t now client_ip endpoint limit window Hr.
    apply check_rate_limit_window.
    apply (reachable_in_order Hr).
  - exact five_in_five_minutes.
Qed.

Lemma rate_limiter_allows_below_limit_witness :
  let ip := txt "203.0.113.7" in
  let endpoint := txt "/api/lesson" in
  (fst (check_rate_limit 100 ip endpoint 5 5 ∅) = true
   <-> Z.of_nat (length (in_window 100 5 (recorded ∅ (rate_key ip endpoint)))) < 5)
  /\ serve [0; 60; 120; 180; 240; 300; 301] ip endpoint 5 5 ∅
     = [true; true; true; true; true; false; true].
Proof.
  intros ip endpoint. split.
  - apply (proj1 rate_limiter_allows_below_limit ∅ 0 100 ip endpoint 5 5
             (reach_start 0)).
  - apply (proj2 rate_limiter_allows_below_limit ip endpoint ∅); [reflexivity|lia..].
Defined.

End RateLimiter.

(** ** The dictionary of jobs *)

Section DictFacts.
Import PyStr Store.
Context {V : Type}.

Lemma text_eqb_eq a : forall b, text_eqb a b = true <-> a = b.
Proof.
  induction a as [|x a IH]; intros [|y b]; simpl; split; try easy.
  - intros H. apply andb_prop in H as [H1 H2].
    apply Ascii.eqb_eq in H1 as ->. now apply IH in H2 as ->.
  - intros [= -> ->]. rewrite Ascii.eqb_refl. now apply IH.
Qed.

Lemma text_eqb_refl a : text_eqb a a = true.
Proof. now apply text_eqb_eq. Qed.

Lemma text_eqb_neq a b : text_eqb a b = false <-> a <> b.
Proof.
  split.
  - intros H E. apply text_eqb_eq in E. congruence.
  - intros H. destruct (text_eqb a b) eqn:E; [|reflexivity].
    apply text_eqb_eq in E. contradiction.
Qed.

Lemma text_eqb_sym a b : text_eqb a b = text_eqb b a.
Proof.
  destruct (text_eqb a b) eqn:E.
  - apply text_eqb_eq in E as ->. symmetry. apply text_eqb_refl.
  - symmetry. apply text_eqb_neq. apply text_eqb_neq in E. congruence.
Qed.

Lemma dict_get_set_same k (v : V) : forall d, dict_get k (dict_set k v d) = Some v.
Proof.
  unfold dict_get. induction d as [|[k' v'] d IH]; simpl.
  - now rewrite text_eqb_refl.
  - destruct (text_eqb k' k) eqn:E; simpl.
    + now rewrite text_eqb_refl.
    + rewrite E. exact IH.
Qed.

Lemma dict_get_set_other k k' (v : V) : k <> k' ->
  forall d, dict_get k' (dict_set k v d) = dict_get k' d.
Proof.
  intros Hne. unfold dict_get. induction d as [|[k1 v1] d IH]; simpl.
  - apply text_eqb_neq in Hne. now rewrite Hne.
  - destruct (text_eqb k1 k) eqn:E; simpl.
    + apply text_eqb_eq in E as ->. apply text_eqb_neq in Hne. now rewrite Hne.
    + destruct (text_eqb k1 k'); [reflexivity | exact IH].
Qed.

Lemma dict_set_set k (v1 v2 : V) : forall d,
  dict_set k v2 (dict_set k v1 d) = dict_set k v2 d.
Proof.
  induction d as [|[k' v'] d IH]; simpl.
  - now rewrite text_eqb_refl.
  - destruct (text_eqb k' k) eqn:E; simpl.
    + now rewrite text_eqb_refl.
    + now rewrite E, IH.
Qed.

Lemma dict_get_pop_same k : forall d : dict V, dict_get k (dict_pop k d) = None.
Proof.
  unfold dict_get, dict_pop. induction d as [|[k' v'] d IH]; simpl; [reflexivity|].
  destruct (text_eqb k' k) eqn:E; simpl; [exact IH|]. now rewrite E.
Qed.

End DictFacts.

Lemma get_job_set_eq job_id job jobs history :
  Store.get_job job_id
    {| Store._jobs := Store.dict_set job_id job jobs;
       Store._job_history := history |}
  = Some job.
Proof. apply dict_get_set_same. Qed.

(** ** One run of the render task *)

Section RenderFacts.
Import PyStr Store Render RenderSpec.

Lemma store_update_job_found is_dataclass now job_id updates store job :
  get_job job_id store = Some job ->
  Store.update_job is_dataclass now job_id updates store =
    let job' := updated now updates job in
    let jobs := dict_set job_id job' (_jobs store) in
    if status_eqb (status job) (status job')
    then (Return true, {| _jobs := jobs; _job_history := _job_history store |}, [])
    else if is_terminal (status job') then
      match _archive_job is_dataclass now job' (_job_history store) with
      | Raise e =>
          (Raise e, {| _jobs := jobs; _job_history := _job_history store |},
           [StatusChanged job_id (status job) (status job')])
      | Return history =>
          (Return true, {| _jobs := jobs; _job_history := history |},
           [StatusChanged job_id (status job) (status job')])
      end
    else (Return true, {| _jobs := jobs; _job_history := _job_history store |},
          [StatusChanged job_id (status job) (status job')]).
Proof. intros H. unfold Store.update_job. now rewrite H. Qed.

Lemma status_eqb_eq a b : status_eqb a b = true <-> a = b.
Proof. destruct a, b; simpl; split; congruence. Qed.

(** One call of [update_job] on a job that is in the store: the record
    it leaves, the transition it logs, and whether it raises. *)
Lemma update_job_run is_dataclass out job_id updates w job :
  get_job job_id (job_store w) = Some job ->
  let job' := updated (utcnow out) updates job in
  let changed := negb (status_eqb (status job) (status job')) in
  exists store' lines,
    update_job is_dataclass out job_id updates w =
      (if changed && is_terminal (status job') && negb is_dataclass
       then Raise (TypeError asdict_message) else Return true,
       {| job_store := store'; code_dir := code_dir w;
          logged := logged w ++ lines |})
    /\ get_job job_id store' = Some job'
    /\ lines = (if changed
                then [StatusChanged job_id (status job) (status job')] else []).
Proof.
  intros Hjob job' changed. unfold update_job, on_store.
  rewrite store_update_job_found with (job := job) by exact Hjob.
  cbv zeta. fold job'. subst changed.
  destruct (status_eqb (status job) (status job')); cbn [negb andb].
  - eexists _, _. split; [reflexivity|]. split; [apply get_job_set_eq | reflexivity].
  - destruct (is_terminal (status job')); cbn [negb andb].
    + unfold _archive_job, asdict. destruct is_dataclass; cbn [negb].
      * eexists _, _. split; [reflexivity|].
        split; [apply get_job_set_eq | reflexivity].
      * eexists _, _. split; [reflexivity|].
        split; [apply get_job_set_eq | reflexivity].
    + eexists _, _. split; [reflexivity|].
      split; [apply get_job_set_eq | reflexivity].
Qed.

Lemma status_changes_app job_id l1 l2 :
  status_changes job_id (l1 ++ l2)
  = status_changes job_id l1 ++ status_changes job_id l2.
Proof.
  induction l1 as [|line l1 IH]; [reflexivity|].
  destruct line; simpl; try exact IH.
  destruct (text_eqb job_id0 job_id); simpl; now rewrite IH.
Qed.

Ltac run_update :=
  match goal with
  | G : get_job ?id ?st = Some ?j
    |- context [update_job ?dc ?out ?id ?ups
                  {| job_store := ?st; code_dir := ?d; logged := ?l |}] =>
      let store' := fresh "store" in
      let lines := fresh "lines" in
      let E := fresh "E" in
      let G' := fresh "G" in
      let L := fresh "L" in
      destruct (@update_job_run dc out id ups
                  {| job_store := st; code_dir := d; logged := l |} j G)
        as (store' & lines & E & G' & L);
      rewrite E; clear E; subst lines
  end.

Lemma status_updated_1 now s job : status (updated now [set_status s] job) = s.
Proof. reflexivity. Qed.

Lemma status_updated_path now s v job :
  status (updated now [set_status s; set_video_path v] job) = s.
Proof. reflexivity. Qed.

Lemma status_updated_message now s m job :
  status (updated now [set_status s; set_error_message m] job) = s.
Proof. reflexivity. Qed.

Lemma code_updated_1 now s job : code (updated now [set_status s] job) = code job.
Proof. reflexivity. Qed.

Lemma filename_updated_1 now s job :
  filename (updated now [set_status s] job) = filename job.
Proof. reflexivity. Qed.

Lemma save_code_file_run out name content w :
  _save_code_file out name content w =
    let path := path_in in_code_dir (name ++ txt "_" ++ code_stamp out ++ txt ".py") in
    match write_error out with
    | Some e =>
        (Raise (ValueError (txt "Failed to save code file: " ++ e)),
         {| job_store := job_store w; code_dir := code_dir w;
            logged := logged w ++ [SaveFailed e] |})
    | None =>
        (Return path,
         {| job_store := job_store w;
            code_dir := dict_set path content (code_dir w);
            logged := logged w ++ [SavedCode path] |})
    end.
Proof.
  unfold _save_code_file, _get_safe_filepath, bind, try_except, ret, raise,
    logger, write_text.
  destruct (write_error out); reflexivity.
Qed.

Lemma video_filepath_run stamp name w :
  _get_safe_filepath stamp name (txt ".mp4") w =
    (Return (path_in in_videos_dir (name ++ txt "_" ++ stamp ++ txt ".mp4")), w).
Proof. reflexivity. Qed.

Lemma execute_manim_render_run out code_path scene_class job w :
  exists lines,
    _execute_manim_render out code_path scene_class
      (filename job ++ txt "_" ++ video_stamp out ++ txt ".mp4") w =
      (Return match manim out with
              | Exited returncode => (returncode =? 0)%Z
              | TimedOut | Crashed _ => false
              end,
       {| job_store := job_store w; code_dir := code_dir w;
          logged := logged w ++ lines |})
    /\ (forall job_id, status_changes job_id lines = [])
    /\ In (manim_log_line out job) lines.
Proof.
  unfold _execute_manim_render, manim_log_line, bind, ret, logger.
  cbn [logged job_store code_dir].
  destruct (manim out) as [rc| |e]; [destruct (rc =? 0)%Z|..];
    cbn [logged job_store code_dir]; eexists;
    (split; [rewrite <- app_assoc; reflexivity
            | split; [reflexivity | right; left; reflexivity]]).
Qed.

Ltac crunch :=
  cbn [andb negb orb is_terminal status_eqb job_store code_dir logged fst snd
       processing_error exn_str];
  rewrite ?status_updated_1, ?status_updated_path, ?status_updated_message,
    ?code_updated_1, ?filename_updated_1;
  cbn [andb negb orb is_terminal status_eqb];
  cbv beta iota.

Ltac changes :=
  cbn [fst snd logged];
  rewrite ?status_changes_app;
  repeat match goal with
         | H : forall job_id, status_changes job_id ?l = [] |- _ => rewrite !H
         end;
  cbn [negb status_changes];
  rewrite ?text_eqb_refl, ?app_nil_r, <- ?app_assoc;
  cbn [app];
  try reflexivity.

Ltac found :=
  cbn [fst snd logged]; rewrite ?in_app_iff; tauto.

Lemma process_render_job_summary is_dataclass out job_id w job :
  get_job job_id (job_store w) = Some job ->
  let w' := snd (_process_render_job is_dataclass out job_id w) in
  get_job job_id (job_store w') = Some (final_record is_dataclass out job)
  /\ code_dir w' = final_code_dir is_dataclass out job (code_dir w)
  /\ status_changes job_id (logged w')
     = status_changes job_id (logged w) ++ transitions is_dataclass out job
  /\ (early_failure out job = None -> In (manim_log_line out job) (logged w')).
Proof.
  intros Hjob. unfold _process_render_job. rewrite Hjob.
  unfold final_record, final_code_dir, transitions, deletes_scratch,
    early_failure, rendered, code_path_of, video_path_of.
  cbv [bind try_except logger ret raise lift].
  crunch. run_update. crunch. rewrite andb_false_r. crunch.
  rewrite save_code_file_run. cbv zeta.
  destruct (write_error out) as [e|]; crunch.
  { run_update. crunch.
    destruct is_dataclass; crunch;
      (split; [assumption | split; [reflexivity | split; [|discriminate]]]);
      destruct (status_eqb (status job) rendering); changes. }
  destruct (_get_scene_class_name (code job)) as [e|scene_class]; crunch.
  { run_update. crunch.
    destruct is_dataclass; crunch;
      (split; [assumption | split; [reflexivity | split; [|discriminate]]]);
      destruct (status_eqb (status job) rendering); changes. }
  rewrite video_filepath_run. crunch.
  match goal with
  | |- context [_execute_manim_render ?o ?a ?b ?c ?W] =>
      destruct (execute_manim_render_run o a b job W) as (lines & E & Hlines & Hin);
      rewrite E; clear E
  end.
  crunch.
  generalize (match manim out with
              | Exited returncode => (returncode =? 0)%Z
              | TimedOut | Crashed _ => false
              end && video_exists out).
  intros ok. destruct ok; crunch; run_update; crunch;
    (destruct is_dataclass; crunch;
     [ destruct (unlink_error out); crunch;
       [| unfold unlink; crunch; rewrite dict_get_set_same; crunch ]
     | run_update; crunch ]);
    (split; [assumption | split; [reflexivity | split; [|intros _; found]]]);
    destruct (status_eqb (status job) rendering); changes.
Qed.

End RenderFacts.

(** ** The life of a job *)

Section Lifecycle.
Import PyStr Store Render RenderSpec Samples.

(** [update_job] itself checks no transition: whatever status a job has,
    the status passed is the status it gets. *)
Lemma update_job_any_status is_dataclass now job_id s store job :
  get_job job_id store = Some job ->
  option_map status
    (get_job job_id (snd (fst (Store.update_job is_dataclass now job_id
                                 [set_status s] store))))
  = Some s.
Proof.
  intros H. rewrite store_update_job_found with (job := job) by exact H.
  cbv zeta. rewrite status_updated_1.
  destruct (status_eqb (status job) s); [cbn; now rewrite get_job_set_eq|].
  destruct (is_terminal s); [|cbn; now rewrite get_job_set_eq].
  unfold _archive_job, asdict.
  destruct is_dataclass; cbn; now rewrite get_job_set_eq.
Qed.

(** Were the records dataclass instances, the task would take a queued
    job through [rendering] to exactly one of [ready] and [error]. *)
Lemma transitions_with_dataclass_records out job_id w job :
  get_job job_id (job_store w) = Some job ->
  status job = queued ->
  let w' := snd (_process_render_job true out job_id w) in
  exists final,
    status_changes job_id (logged w')
      = status_changes job_id (logged w) ++ [(queued, rendering); (rendering, final)]
    /\ is_terminal final = true
    /\ option_map status (get_job job_id (job_store w')) = Some final.
Proof.
  intros Hjob Hq w'.
  destruct (@process_render_job_summary true out _ _ _ Hjob) as (Hrec & _ & Hlog & _).
  fold w' in Hrec, Hlog. rewrite Hrec, Hlog.
  unfold transitions, final_record. rewrite Hq. cbn [status_eqb app].
  destruct (early_failure out job) as [msg|] eqn:E.
  - exists error. replace (early_failure out _) with (Some msg).
    split; [reflexivity | split; reflexivity].
  - replace (early_failure out _) with (@None text).
    destruct (rendered out); [exists ready | exists error];
      (split; [reflexivity | split; reflexivity]).
Qed.

(** C1.  A job whose render succeeds: [update_job] assigns [ready], then
    raises out of [_archive_job], because [asdict] is given a record that
    is no dataclass instance; the handler of the task calls [update_job]
    again, and the job that was [ready] is [error]. *)
Theorem ready_job_turns_to_error :
  let w := snd (_process_render_job JobStore_is_dataclass (outside (Exited 0))
                  job1 (submitted demo_scene)) in
  status_changes job1 (logged w)
    = [(queued, rendering); (rendering, ready); (ready, error)]
  /\ option_map status (get_job job1 (job_store w)) = Some error
  /\ forallb allowed (status_changes job1 (logged w)) = false.
Proof. vm_compute. repeat split. Qed.

(** In the program as it is, this is what happens to every job whose
    render succeeds. *)
Lemma every_rendered_job_turns_to_error out job_id w job :
  get_job job_id (job_store w) = Some job ->
  status job = queued ->
  early_failure out job = None ->
  rendered out = true ->
  let w' := snd (_process_render_job JobStore_is_dataclass out job_id w) in
  status_changes job_id (logged w')
    = status_changes job_id (logged w)
      ++ [(queued, rendering); (rendering, ready); (ready, error)]
  /\ option_map status (get_job job_id (job_store w')) = Some error.
Proof.
  intros Hjob Hq He Hr w'.
  destruct (@process_render_job_summary JobStore_is_dataclass out _ _ _ Hjob)
    as (Hrec & _ & Hlog & _).
  fold w' in Hrec, Hlog. rewrite Hrec, Hlog.
  unfold transitions, final_record. rewrite Hq, He, Hr.
  replace (early_failure out _) with (@None text).
  split; reflexivity.
Qed.

(** C5.  A submission the validator accepts and in which no class is
    declared with a parenthesis: the scratch file is written, extraction
    raises, and the handler of the task does not delete the file.  It is
    still there when the task is over, however the subprocess would have
    ended and whatever the records are. *)
Theorem scratch_file_left_behind (is_dataclass : bool) (m : ProcessOutcome) :
  let w := snd (_process_render_job is_dataclass (outside m) job1
                  (submitted bare_class)) in
  Validation.validate_code bare_class = Return bare_class
  /\ dict_get scratch_path (code_dir w) = Some bare_class
  /\ option_map status (get_job job1 (job_store w)) = Some error.
Proof.
  intros w. split; [vm_compute; reflexivity|].
  assert (Hjob : get_job job1 (job_store (submitted bare_class))
                 = Some {| id := job1; status := queued; filename := txt "demo";
                           code := bare_class; created_at := 0; updated_at := 0;
                           video_path := None; error_message := None |})
    by reflexivity.
  destruct (@process_render_job_summary is_dataclass (outside m) _ _ _ Hjob)
    as (Hrec & Hdir & _).
  fold w in Hrec, Hdir. rewrite Hrec, Hdir.
  split.
  - unfold final_code_dir, deletes_scratch, early_failure. cbn [write_error outside code].
    replace (_get_scene_class_name bare_class)
      with (@Raise exn text (ValueError (txt "No Scene class found in code")))
      by (vm_compute; reflexivity).
    reflexivity.
  - unfold final_record, early_failure. cbn [write_error outside code updated].
    rewrite code_updated_1. cbn [code].
    replace (_get_scene_class_name bare_class)
      with (@Raise exn text (ValueError (txt "No Scene class found in code")))
      by (vm_compute; reflexivity).
    reflexivity.
Qed.

(** In the program as it is, no run of the task deletes its scratch
    file: every path to a terminal status goes through the exception
    raised by [_archive_job], and so past the deletion. *)
Lemma scratch_file_never_deleted out job_id w job :
  get_job job_id (job_store w) = Some job ->
  write_error out = None ->
  let w' := snd (_process_render_job JobStore_is_dataclass out job_id w) in
  dict_get (code_path_of out job) (code_dir w') = Some (code job).
Proof.
  intros Hjob Hw w'.
  destruct (@process_render_job_summary JobStore_is_dataclass out _ _ _ Hjob)
    as (_ & Hdir & _).
  fold w' in Hdir. rewrite Hdir. unfold final_code_dir, deletes_scratch.
  rewrite Hw. cbv zeta.
  destruct (early_failure out job); cbn [JobStore_is_dataclass andb];
    apply dict_get_set_same.
Qed.

(** With dataclass records the file is deleted exactly when the task
    got as far as the subprocess (and [unlink] did not fail). *)
Lemma scratch_file_with_dataclass_records out job_id w job :
  get_job job_id (job_store w) = Some job ->
  write_error out = None ->
  unlink_error out = None ->
  let w' := snd (_process_render_job true out job_id w) in
  dict_get (code_path_of out job) (code_dir w')
  = match early_failure out job with
    | Some _ => Some (code job)
    | None => None
    end.
Proof.
  intros Hjob Hw Hu w'.
  destruct (@process_render_job_summary true out _ _ _ Hjob) as (_ & Hdir & _).
  fold w' in Hdir. rewrite Hdir. unfold final_code_dir, deletes_scratch.
  rewrite Hw, Hu. cbv zeta.
  destruct (early_failure out job); cbn [andb].
  - apply dict_get_set_same.
  - apply dict_get_pop_same.
Qed.

(** C6, counterexample.  The message recorded on the job for a timeout is
    the message recorded for the exit code 1, in the program as it is and
    also if the records were dataclass instances. *)
Lemma timeout_message_is_exit_message :
  let message is_dataclass m :=
    option_map error_message
      (get_job job1
         (job_store (snd (_process_render_job is_dataclass (outside m) job1
                            (submitted demo_scene))))) in
  message JobStore_is_dataclass TimedOut = message JobStore_is_dataclass (Exited 1)
  /\ message JobStore_is_dataclass TimedOut
     = Some (Some (txt "Render processing error: asdict() should be called on dataclass instances"))
  /\ message true TimedOut = message true (Exited 1)
  /\ message true TimedOut = Some (Some (txt "Manim rendering failed")).
Proof. vm_compute. repeat split. Qed.

(** C6, as amended.  When rendering fails (the subprocess times out, exits
    with a nonzero code or cannot be run, or the output is missing), the
    job ends in [error] with a message recorded.  The record of the job,
    and so its message, is the same after a timeout and after a nonzero
    exit; the two are told apart in the log only, by the line
    [_execute_manim_render] writes. *)
Theorem render_failure_recorded (is_dataclass : bool) (out : Outside)
    (job_id : text) (w : World) (job : JobStore) (returncode : Z) :
  get_job job_id (job_store w) = Some job ->
  returncode <> 0%Z ->
  let after m := snd (_process_render_job is_dataclass (with_manim m out) job_id w) in
  (forall m, rendered (with_manim m out) = false ->
     exists record msg,
       get_job job_id (job_store (after m)) = Some record
       /\ status record = error /\ error_message record = Some msg)
  /\ get_job job_id (job_store (after TimedOut))
     = get_job job_id (job_store (after (Exited returncode)))
  /\ (early_failure out job = None ->
      In (ManimTimedOut (RENDER_TIMEOUT_SEC out)) (logged (after TimedOut))
      /\ In (ManimFailedWithCode returncode) (logged (after (Exited returncode)))).
Proof.
  intros Hjob Hrc after. unfold after. clear after.
  assert (Hsum := fun m =>
    @process_render_job_summary is_dataclass (with_manim m out) _ _ _ Hjob).
  cbv zeta in Hsum.
  assert (Hrc' : (returncode =? 0)%Z = false) by now apply Z.eqb_neq.
  split; [|split].
  - intros m Hm. destruct (Hsum m) as (Hrec & _). rewrite Hrec.
    exists (final_record is_dataclass (with_manim m out) job).
    unfold final_record. rewrite Hm.
    destruct (early_failure (with_manim m out) _);
      [|destruct is_dataclass]; eexists;
      (split; [reflexivity | split; reflexivity]).
  - destruct (Hsum TimedOut) as (-> & _).
    destruct (Hsum (Exited returncode)) as (-> & _).
    unfold final_record, early_failure, rendered.
    cbn [with_manim manim write_error utcnow video_exists].
    rewrite Hrc'. reflexivity.
  - intros He.
    destruct (Hsum TimedOut) as (_ & _ & _ & H1).
    destruct (Hsum (Exited returncode)) as (_ & _ & _ & H2).
    unfold manim_log_line in H1, H2. cbn [with_manim manim RENDER_TIMEOUT_SEC] in H1, H2.
    rewrite Hrc' in H2. split; [apply H1 | apply H2]; exact He.
Qed.

Lemma render_failure_recorded_witness :
  get_job job1 (job_store (snd (_process_render_job JobStore_is_dataclass
                                  (with_manim TimedOut (outside TimedOut)) job1
                                  (submitted demo_scene))))
  = get_job job1 (job_store (snd (_process_render_job JobStore_is_dataclass
                                  (with_manim (Exited 2) (outside TimedOut)) job1
                                  (submitted demo_scene)))).
Proof.
  refine (proj1 (proj2 (@render_failure_recorded JobStore_is_dataclass
            (outside TimedOut) job1 (submitted demo_scene) _ 2 _ _))).
  - reflexivity.
  - discriminate.
Defined.

End Lifecycle.

(** ** The floats of the retention check *)

Section FloatFacts.
Import PyStr PyFloat Store.
Open Scope Z_scope.

Lemma pow2_pos z : 0 < 2 ^ Z.max 0 z.
Proof. apply Z.pow_pos_nonneg; lia. Qed.

(** Powers of two with the exponents split by sign. *)
Lemma pow2_shift t e :
  2 ^ Z.max 0 (t - e) * (2 ^ Z.max 0 (- t) * 2 ^ Z.max 0 e)
  = 2 ^ Z.max 0 (e - t) * (2 ^ Z.max 0 t * 2 ^ Z.max 0 (- e)).
Proof. rewrite <- !Z.pow_add_r by lia. f_equal. lia. Qed.

Lemma magnitude_le n d :
  0 < n -> 0 < d ->
  let k := magnitude n d in
  d * 2 ^ Z.max 0 k <= n * 2 ^ Z.max 0 (- k)
  /\ n * 2 ^ Z.max 0 (- k) < 2 * (d * 2 ^ Z.max 0 k).
Proof.
  intros Hn Hd. unfold magnitude.
  pose proof (Z.log2_spec n Hn) as [Hn1 Hn2].
  pose proof (Z.log2_spec d Hd) as [Hd1 Hd2].
  pose proof (Z.log2_nonneg n) as Ha. pose proof (Z.log2_nonneg d) as Hb.
  set (a := Z.log2 n) in *. set (b := Z.log2 d) in *.
  rewrite Z.pow_succ_r in Hn2, Hd2 by lia.
  destruct (Z.leb_spec (d * 2 ^ Z.max 0 (a - b)) (n * 2 ^ Z.max 0 (- (a - b))))
    as [Hle|Hgt]; cbv zeta.
  - split; [exact Hle|].
    assert (2 ^ Z.max 0 (- (a - b)) * 2 ^ a = 2 ^ Z.max 0 (a - b) * 2 ^ b) as E
      by (rewrite <- !Z.pow_add_r by lia; f_equal; lia).
    pose proof (pow2_pos (a - b)). pose proof (pow2_pos (- (a - b))).
    assert (0 < 2 ^ a) by (apply Z.pow_pos_nonneg; lia).
    assert (0 < 2 ^ b) by (apply Z.pow_pos_nonneg; lia).
    nia.
  - split.
    + assert (2 ^ Z.max 0 (a - b - 1) * (2 * 2 ^ b)
              = 2 ^ Z.max 0 (- (a - b - 1)) * 2 ^ a) as E.
      { replace (2 * 2 ^ b) with (2 ^ (b + 1)) by (rewrite Z.pow_add_r; lia).
        rewrite <- !Z.pow_add_r by lia. f_equal. lia. }
      pose proof (pow2_pos (a - b - 1)). pose proof (pow2_pos (- (a - b - 1))).
      assert (0 < 2 ^ a) by (apply Z.pow_pos_nonneg; lia).
      assert (0 < 2 ^ b) by (apply Z.pow_pos_nonneg; lia).
      nia.
    + assert (2 * (2 ^ Z.max 0 (a - b - 1) * 2 ^ Z.max 0 (- (a - b)))
              = 2 ^ Z.max 0 (a - b) * 2 ^ Z.max 0 (- (a - b - 1))) as E.
      { replace 2 with (2 ^ 1) at 1 by reflexivity.
        rewrite <- !Z.pow_add_r by lia. f_equal. lia. }
      pose proof (pow2_pos (a - b - 1)). pose proof (pow2_pos (- (a - b - 1))).
      pose proof (pow2_pos (a - b)). pose proof (pow2_pos (- (a - b))).
      nia.
Qed.


(** [round_pos] gives a 53-bit value nearest to the quotient, the even
    one of two that are equally near. *)
Lemma round_pos_nearest n d :
  0 < n -> 0 < d ->
  let x := round_pos n d in
  let N := n * 2 ^ Z.max 0 (- expo x) in
  let D := d * 2 ^ Z.max 0 (expo x) in
  2 ^ 52 * D <= N < 2 ^ 53 * D
  /\ 2 ^ 52 <= mant x <= 2 ^ 53
  /\ 2 * Z.abs (N - mant x * D) <= D
  /\ (2 * Z.abs (N - mant x * D) = D -> Z.even (mant x) = true).
Proof.
  intros Hn Hd. unfold round_pos. cbn [expo mant].
  pose proof (magnitude_le Hn Hd) as [Hlo Hhi]. cbv zeta in Hlo, Hhi.
  set (k := magnitude n d) in *.
  pose proof (pow2_shift k (k - 52)) as Hs.
  replace (Z.max 0 (k - (k - 52))) with 52 in Hs by lia.
  replace (Z.max 0 (k - 52 - k)) with 0 in Hs by lia.
  pose proof (pow2_pos k). pose proof (pow2_pos (- k)).
  pose proof (pow2_pos (k - 52)). pose proof (pow2_pos (- (k - 52))).
  set (N := n * 2 ^ Z.max 0 (- (k - 52))).
  set (D := d * 2 ^ Z.max 0 (k - 52)).
  assert (HD : 0 < D) by (subst D; nia).
  assert (HN : 2 ^ 52 * D <= N < 2 ^ 53 * D).
  { subst N D. change (2 ^ 53) with (2 * 2 ^ 52). change (2 ^ 0) with 1 in Hs.
    set (p := 2 ^ 52) in *. assert (0 < p) by (subst p; reflexivity).
    clearbody p. nia. }
  pose proof (Z.div_mod N D ltac:(lia)) as Hdm.
  pose proof (Z.mod_pos_bound N D HD) as Hr.
  set (q := N / D) in *. set (r := N mod D) in *.
  assert (Hq : 2 ^ 52 <= q < 2 ^ 53) by (clearbody q r N D; nia).
  cbv zeta. split; [exact HN|].
  change (2 ^ 53) with (2 * 2 ^ 52) in *. set (p := 2 ^ 52) in *.
  clearbody q r N D p.
  destruct (Z.ltb_spec (2 * r) D) as [Hlt|Hge].
  { split; [lia|]. split; [nia|]. intros E. exfalso. nia. }
  destruct (Z.ltb_spec D (2 * r)) as [Hlt2|Hge2].
  { split; [lia|]. split; [nia|]. intros E. exfalso. nia. }
  destruct (Z.even q) eqn:Ev.
  - split; [lia|]. split; [nia|]. intros _. exact Ev.
  - split; [lia|]. split; [nia|]. intros _.
    rewrite Z.even_add, Ev. reflexivity.
Qed.

(** Rounding keeps the order: [round_pos] stays on the same side of every
    53-bit value [A * 2 ^ t] as the quotient. *)
Lemma round_pos_lower n d A t :
  0 < n -> 0 < d -> 0 <= A < 2 ^ 53 ->
  A * 2 ^ Z.max 0 t * d <= n * 2 ^ Z.max 0 (- t) ->
  A * 2 ^ Z.max 0 t * denom (round_pos n d)
  <= numer (round_pos n d) * 2 ^ Z.max 0 (- t).
Proof.
  intros Hn Hd HA Hle.
  pose proof (round_pos_nearest Hn Hd) as (HN & Hm & Hnear & _).
  cbv zeta in HN, Hm, Hnear. unfold numer, denom.
  set (x := round_pos n d) in *. set (e := expo x) in *. set (m := mant x) in *.
  pose proof (pow2_shift t e) as Hs.
  pose proof (pow2_pos t). pose proof (pow2_pos (- t)).
  pose proof (pow2_pos e). pose proof (pow2_pos (- e)).
  pose proof (pow2_pos (t - e)). pose proof (pow2_pos (e - t)).
  set (Pt := 2 ^ Z.max 0 t) in *. set (Nt := 2 ^ Z.max 0 (- t)) in *.
  set (Pe := 2 ^ Z.max 0 e) in *. set (Ne := 2 ^ Z.max 0 (- e)) in *.
  destruct (Z.le_gt_cases e t) as [Het|Het].
  - replace (Z.max 0 (e - t)) with 0 in Hs by lia. change (2 ^ 0) with 1 in Hs.
    set (W := 2 ^ Z.max 0 (t - e)) in *.
    assert (A * W <= m); [|clearbody Pt Nt Pe Ne W m; nia].
    destruct (Z.le_gt_cases (A * W) m) as [|Hgt]; [assumption|exfalso].
    assert ((m + 1) * (d * Pe) <= n * Ne).
    { assert ((m + 1) * (d * Pe) * Nt <= n * Ne * Nt);
        [|clearbody Pt Nt Pe Ne W m; nia].
      assert (A * W * (d * Pe) * Nt <= n * Ne * Nt)
        by (clearbody Pt Nt Pe Ne W m; nia).
      assert (0 <= d * Pe * Nt) by (clearbody Pt Nt Pe Ne W m; nia).
      clearbody Pt Nt Pe Ne W m. nia. }
    assert (0 < d * Pe) by (clearbody Pt Nt Pe Ne m; nia).
    clearbody Pt Nt Pe Ne W m. lia.
  - replace (Z.max 0 (t - e)) with 0 in Hs by lia. change (2 ^ 0) with 1 in Hs.
    assert (2 <= 2 ^ Z.max 0 (e - t)).
    { change 2 with (2 ^ 1) at 1. apply Z.pow_le_mono_r; lia. }
    set (V := 2 ^ Z.max 0 (e - t)) in *.
    change (2 ^ 53) with (2 * 2 ^ 52) in HA. set (p := 2 ^ 52) in *.
    assert (0 < p) by (subst p; reflexivity).
    assert (A <= m * V) by (clearbody Pt Nt Pe Ne V m p; nia).
    clearbody Pt Nt Pe Ne V m p. nia.
Qed.

Lemma round_pos_upper n d A t :
  0 < n -> 0 < d -> 0 <= A < 2 ^ 53 ->
  n * 2 ^ Z.max 0 (- t) <= A * 2 ^ Z.max 0 t * d ->
  numer (round_pos n d) * 2 ^ Z.max 0 (- t)
  <= A * 2 ^ Z.max 0 t * denom (round_pos n d).
Proof.
  intros Hn Hd HA Hle.
  pose proof (round_pos_nearest Hn Hd) as (HN & Hm & Hnear & _).
  cbv zeta in HN, Hm, Hnear. unfold numer, denom.
  set (x := round_pos n d) in *. set (e := expo x) in *. set (m := mant x) in *.
  pose proof (pow2_shift t e) as Hs.
  pose proof (pow2_pos t). pose proof (pow2_pos (- t)).
  pose proof (pow2_pos e). pose proof (pow2_pos (- e)).
  pose proof (pow2_pos (t - e)). pose proof (pow2_pos (e - t)).
  set (Pt := 2 ^ Z.max 0 t) in *. set (Nt := 2 ^ Z.max 0 (- t)) in *.
  set (Pe := 2 ^ Z.max 0 e) in *. set (Ne := 2 ^ Z.max 0 (- e)) in *.
  assert (0 < d * Pe) by (clearbody Pt Nt Pe Ne m; nia).
  destruct (Z.le_gt_cases e t) as [Het|Het].
  - replace (Z.max 0 (e - t)) with 0 in Hs by lia. change (2 ^ 0) with 1 in Hs.
    set (W := 2 ^ Z.max 0 (t - e)) in *.
    assert (m <= A * W); [|clearbody Pt Nt Pe Ne W m; nia].
    destruct (Z.le_gt_cases m (A * W)) as [|Hgt]; [assumption|exfalso].
    assert (n * Ne <= (m - 1) * (d * Pe)).
    { assert (n * Ne * Nt <= (m - 1) * (d * Pe) * Nt);
        [|clearbody Pt Nt Pe Ne W m; nia].
      assert (n * Ne * Nt <= A * W * (d * Pe) * Nt)
        by (clearbody Pt Nt Pe Ne W m; nia).
      assert (0 <= d * Pe * Nt) by (clearbody Pt Nt Pe Ne W m; nia).
      clearbody Pt Nt Pe Ne W m. nia. }
    clearbody Pt Nt Pe Ne W m. lia.
  - exfalso.
    replace (Z.max 0 (t - e)) with 0 in Hs by lia. change (2 ^ 0) with 1 in Hs.
    assert (2 <= 2 ^ Z.max 0 (e - t)).
    { change 2 with (2 ^ 1) at 1. apply Z.pow_le_mono_r; lia. }
    set (V := 2 ^ Z.max 0 (e - t)) in *.
    change (2 ^ 53) with (2 * 2 ^ 52) in HA. set (p := 2 ^ 52) in *.
    assert (0 < p) by (subst p; reflexivity).
    assert (n * Ne * V * Nt <= A * (d * Pe) * Nt)
      by (clearbody Pt Nt Pe Ne V m p; nia).
    assert (p * (d * Pe) * V <= n * Ne * V) by (clearbody Pt Nt Pe Ne V m p; nia).
    assert (p * V * ((d * Pe) * Nt) <= A * ((d * Pe) * Nt))
      by (clearbody Pt Nt Pe Ne V m p; nia).
    assert (0 < d * Pe * Nt) by (clearbody Pt Nt Pe Ne V m p; nia).
    clearbody Pt Nt Pe Ne V m p. nia.
Qed.

Lemma denom_pos x : 0 < denom x.
Proof. apply pow2_pos. Qed.

Lemma true_divide_lower n d A t :
  0 < d -> 0 <= A < 2 ^ 53 ->
  A * 2 ^ Z.max 0 t * d <= n * 2 ^ Z.max 0 (- t) ->
  A * 2 ^ Z.max 0 t * denom (true_divide n d)
  <= numer (true_divide n d) * 2 ^ Z.max 0 (- t).
Proof.
  intros Hd HA Hle. pose proof (pow2_pos t). pose proof (pow2_pos (- t)).
  destruct n as [|n|n]; cbn [true_divide].
  - assert (A = 0) as -> by nia. unfold numer. cbn [mant]. lia.
  - now apply round_pos_lower.
  - exfalso. assert (Z.neg n < 0) by lia. nia.
Qed.

Lemma true_divide_upper n d A t :
  0 < d -> 0 <= A < 2 ^ 53 ->
  n * 2 ^ Z.max 0 (- t) <= A * 2 ^ Z.max 0 t * d ->
  numer (true_divide n d) * 2 ^ Z.max 0 (- t)
  <= A * 2 ^ Z.max 0 t * denom (true_divide n d).
Proof.
  intros Hd HA Hle. pose proof (pow2_pos t). pose proof (pow2_pos (- t)).
  destruct n as [|n|n]; cbn [true_divide].
  - pose proof (denom_pos {| mant := 0; expo := 0 |}).
    unfold numer. cbn [mant]. nia.
  - now apply round_pos_upper.
  - pose proof (@round_pos_nearest (- Z.neg n) d ltac:(lia) Hd) as (_ & Hm & _).
    cbv zeta in Hm. unfold numer, denom. cbn [mant expo].
    pose proof (pow2_pos (expo (round_pos (- Z.neg n) d))).
    pose proof (pow2_pos (- expo (round_pos (- Z.neg n) d))).
    assert (0 < 2 ^ 52) by reflexivity. nia.
Qed.

(** For the ages the service works with, and far beyond, the float
    quotient compares with [max_age_hours] as the exact age does. *)
Lemma too_old_exact current_time max_age_hours job :
  0 <= max_age_hours < 2 ^ 21 ->
  too_old current_time max_age_hours job
  = (max_age_hours * hour <? current_time - created_at job).
Proof.
  intros Hage. unfold too_old, total_seconds, div_int, gt_int, hour. cbv zeta.
  change (2 ^ 21) with 2097152 in Hage.
  set (us := current_time - created_at job). set (H := max_age_hours) in *.
  set (ts := true_divide us 1000000).
  pose proof (denom_pos ts) as Hts.
  set (ag := true_divide (numer ts) (denom ts * 3600)).
  pose proof (denom_pos ag) as Hag.
  destruct (Z.ltb_spec (H * (3600 * 1000000)) us) as [Hold|Hyoung].
  - apply Z.ltb_lt.
    pose proof (@true_divide_lower us 1000000 (3600 * H * 2 ^ 20 + 1) (-20)
                  ltac:(lia)) as H1.
    change (2 ^ Z.max 0 (-20)) with 1 in H1.
    change (2 ^ Z.max 0 (- -20)) with 1048576 in H1.
    change (2 ^ 20) with 1048576 in H1. change (2 ^ 53) with 9007199254740992 in H1.
    specialize (H1 ltac:(lia) ltac:(lia)). fold ts in H1.
    pose proof (@true_divide_lower (numer ts) (denom ts * 3600) (H * 2 ^ 32 + 1)
                  (-32) ltac:(lia)) as H2.
    change (2 ^ Z.max 0 (-32)) with 1 in H2.
    change (2 ^ Z.max 0 (- -32)) with 4294967296 in H2.
    change (2 ^ 32) with 4294967296 in H2. change (2 ^ 53) with 9007199254740992 in H2.
    specialize (H2 ltac:(lia)). fold ag in H2.
    assert ((H * 4294967296 + 1) * 1 * (denom ts * 3600) <= numer ts * 4294967296)
      as H3 by (clearbody ts; nia).
    specialize (H2 H3). clearbody ag ts. nia.
  - apply Z.ltb_ge.
    pose proof (@true_divide_upper us 1000000 (3600 * H) 0 ltac:(lia)) as H1.
    change (2 ^ Z.max 0 (- 0)) with 1 in H1. change (2 ^ Z.max 0 0) with 1 in H1.
    change (2 ^ 53) with 9007199254740992 in H1.
    specialize (H1 ltac:(lia) ltac:(lia)). fold ts in H1.
    pose proof (@true_divide_upper (numer ts) (denom ts * 3600) H 0 ltac:(lia)) as H2.
    change (2 ^ Z.max 0 (- 0)) with 1 in H2. change (2 ^ Z.max 0 0) with 1 in H2.
    change (2 ^ 53) with 9007199254740992 in H2.
    specialize (H2 ltac:(lia)). fold ag in H2.
    assert (numer ts * 1 <= H * 1 * (denom ts * 3600)) as H3 by (clearbody ts; nia).
    specialize (H2 H3). clearbody ag ts. nia.
Qed.

End FloatFacts.

(** ** Retention *)

Section Retention.
Import PyStr Store StoreSpec.
Open Scope Z_scope.

Lemma dict_pop_absent {V} k : forall d : dict V,
  dict_get k d = None -> dict_pop k d = d.
Proof.
  unfold dict_get, dict_pop. induction d as [|[k' v] d IH]; [reflexivity|].
  cbn [find List.filter fst]. destruct (text_eqb k' k); [discriminate|].
  intros H. cbn [negb]. f_equal. now apply IH.
Qed.

Lemma remove_job_jobs job_id store :
  _jobs (snd (fst (remove_job job_id store))) = dict_pop job_id (_jobs store)
  /\ _job_history (snd (fst (remove_job job_id store))) = _job_history store.
Proof.
  unfold remove_job. destruct (dict_get job_id (_jobs store)) eqn:E; cbn.
  - split; reflexivity.
  - split; [symmetry; now apply dict_pop_absent | reflexivity].
Qed.

(** The loop that removes the jobs listed. *)
Lemma remove_all_jobs ids : forall store lines,
  let result :=
    fold_left
      (fun acc job_id =>
         let '(_, store', logged) := remove_job job_id (fst acc) in
         (store', snd acc ++ logged))
      ids (store, lines) in
  _jobs (fst result)
  = List.filter (fun kv => negb (mem (fst kv) ids)) (_jobs store)
  /\ _job_history (fst result) = _job_history store.
Proof.
  induction ids as [|k ids IH]; intros store lines; cbn [fold_left fst snd].
  - split; [|reflexivity]. cbn. induction (_jobs store) as [|kv d IHd]; [reflexivity|].
    cbn. now f_equal.
  - destruct (remove_job_jobs k store) as [Hj Hh].
    destruct (remove_job k store) as [[b store1] logged1]. cbn [fst snd] in *.
    destruct (IH store1 (lines ++ logged1)) as [IHj IHh].
    split; [|now rewrite IHh].
    rewrite IHj, Hj. unfold dict_pop.
    clear. induction (_jobs store) as [|kv d IHd]; [reflexivity|].
    cbn [List.filter].
    change (mem (fst kv) (k :: ids)) with (text_eqb (fst kv) k || mem (fst kv) ids).
    destruct (text_eqb (fst kv) k); cbn [negb orb List.filter]; [exact IHd|].
    destruct (mem (fst kv) ids); cbn [negb]; [exact IHd | now f_equal].
Qed.

Lemma mem_In x xs : mem x xs = true <-> In x xs.
Proof.
  unfold mem. rewrite existsb_exists. split.
  - intros (y & Hy & E). apply text_eqb_eq in E. now subst.
  - intros H. exists x. split; [exact H | apply text_eqb_refl].
Qed.

Lemma filter_filter_neg {A} (p : A -> bool) l :
  List.filter p (List.filter (fun x => negb (p x)) l) = [].
Proof.
  induction l as [|x l IH]; [reflexivity|]. cbn [List.filter].
  destruct (p x) eqn:E; cbn [negb List.filter]; [exact IH|]. now rewrite E.
Qed.

Lemma filter_idem {A} (p : A -> bool) l :
  List.filter p (List.filter p l) = List.filter p l.
Proof.
  induction l as [|x l IH]; [reflexivity|]. cbn [List.filter].
  destruct (p x) eqn:E; [|exact IH]. cbn [List.filter]. rewrite E. now f_equal.
Qed.

(** With distinct keys, the keys of the old jobs single out the old
    jobs. *)
Lemma old_keys {V} (old : V -> bool) (d : dict V) :
  List.NoDup (map fst d) ->
  List.filter
    (fun kv => negb (mem (fst kv) (map fst (List.filter (fun kv => old (snd kv)) d)))) d
  = List.filter (fun kv => negb (old (snd kv))) d.
Proof.
  intros Hnd. apply filter_ext_in. intros [k v] Hin. cbn [fst snd]. f_equal.
  destruct (old v) eqn:E.
  - apply mem_In. apply in_map_iff. exists (k, v). split; [reflexivity|].
    apply filter_In. now split.
  - destruct (mem k _) eqn:M; [|reflexivity].
    apply mem_In in M. apply in_map_iff in M as ([k' v'] & Hk & Hf).
    cbn in Hk. subst k'. apply filter_In in Hf as [Hin' Hold]. cbn in Hold.
    assert (v' = v); [|congruence].
    clear -Hnd Hin Hin'. induction d as [|[k0 v0] d IH]; [contradiction|].
    cbn in Hnd. apply List.NoDup_cons_iff in Hnd as [Hk0 Hnd].
    destruct Hin as [[= -> ->]|Hin], Hin' as [[= ->]|Hin'].
    + reflexivity.
    + destruct Hk0. apply in_map_iff. now exists (k, v').
    + subst. destruct Hk0. apply in_map_iff. now exists (k, v).
    + now apply IH.
Qed.

Lemma dict_get_filter {V} (p : V -> bool) k : forall d : dict V,
  List.NoDup (map fst d) ->
  dict_get k (List.filter (fun kv => p (snd kv)) d)
  = match dict_get k d with
    | Some v => if p v then Some v else None
    | None => None
    end.
Proof.
  unfold dict_get. induction d as [|[k' v] d IH]; intros Hnd; [reflexivity|].
  cbn in Hnd. apply List.NoDup_cons_iff in Hnd as [Hk Hnd].
  cbn [List.filter find fst snd].
  destruct (text_eqb k' k) eqn:E.
  - apply text_eqb_eq in E as ->. cbn [option_map snd].
    destruct (p v); cbn [find fst]; [now rewrite text_eqb_refl|].
    destruct (find _ (List.filter _ d)) as [[k1 v1]|] eqn:F; [|reflexivity].
    apply find_some in F as [Hin Heq]. cbn in Heq. apply text_eqb_eq in Heq as ->.
    apply filter_In in Hin as [Hin _]. destruct Hk. apply in_map_iff.
    now exists (k, v1).
  - destruct (p v); cbn [find fst]; [rewrite E|]; now apply IH.
Qed.

Lemma filter_length_le {A} (p : A -> bool) l :
  (length (List.filter p l) + length (List.filter (fun x => negb (p x)) l)
   = length l)%nat.
Proof.
  induction l as [|x l IH]; [reflexivity|]. cbn [List.filter].
  destruct (p x); cbn [negb length]; lia.
Qed.

(** What one call returns and leaves, for a dictionary with distinct
    keys. *)
Lemma cleanup_old_jobs_result (current_time max_age_hours : Z)
    (store : EnhancedJobStore) :
  List.NoDup (map fst (_jobs store)) ->
  let kept :=
    List.filter (fun kv => negb (too_old current_time max_age_hours (snd kv)))
      (_jobs store) in
  exists lines,
    cleanup_old_jobs current_time max_age_hours store =
      match history_cutoff current_time max_age_hours with
      | Raise e =>
          (Raise e, {| _jobs := kept; _job_history := _job_history store |}, lines)
      | Return cutoff =>
          (Return (length (List.filter
                             (fun kv => too_old current_time max_age_hours (snd kv))
                             (_jobs store))),
           {| _jobs := kept;
              _job_history :=
                List.filter (fun record => cutoff <? completed_at record)
                  (_job_history store) |},
           lines)
      end.
Proof.
  intros Hnd kept. subst kept.
  set (old := too_old current_time max_age_hours).
  set (ids := map fst (List.filter (fun kv => old (snd kv)) (_jobs store))).
  assert (Hloop := remove_all_jobs ids store []).
  cbv zeta in Hloop. destruct Hloop as [Hjobs Hhist].
  unfold cleanup_old_jobs. fold old. fold ids.
  destruct (fold_left _ ids (store, [])) as [store1 lines1].
  cbn [fst snd] in *. unfold ids in Hjobs. rewrite old_keys in Hjobs by exact Hnd.
  destruct (history_cutoff current_time max_age_hours) as [e|cutoff].
  - eexists. destruct store1 as [jobs1 history1]. cbn [_jobs _job_history] in *.
    now rewrite Hjobs, Hhist.
  - eexists. rewrite Hjobs, Hhist. unfold ids. rewrite length_map. reflexivity.
Qed.

(** For the ages the service passes (the route clamps them to between an
    hour and a week) and a clock that shows a present-day instant, the
    function returns. *)
Lemma cleanup_old_jobs_returns (current_time max_age_hours : Z)
    (store : EnhancedJobStore) :
  0 <= max_age_hours <= 168 ->
  0 <= current_time <= datetime_max ->
  exists count,
    fst (fst (cleanup_old_jobs current_time max_age_hours store)) = Return count.
Proof.
  intros Hage Hnow. unfold cleanup_old_jobs.
  destruct (fold_left _ _ (store, [])) as [store1 lines1].
  unfold history_cutoff, timedelta_hours, datetime_sub.
  assert (H1 : 0 <= max_age_hours * 7 / 24 <= 49).
  { split; [apply Z.div_pos; lia | apply Z.div_le_upper_bound; lia]. }
  replace ((-999999999 <=? max_age_hours * 7 / 24)
           && (max_age_hours * 7 / 24 <=? 999999999)) with true
    by (symmetry; apply andb_true_iff; split; apply Z.leb_le; lia).
  cbv zeta.
  replace ((datetime_min <=? current_time - max_age_hours * 7 * hour)
           && (current_time - max_age_hours * 7 * hour <=? datetime_max)) with true.
  - eexists. reflexivity.
  - symmetry. apply andb_true_iff. unfold datetime_min, datetime_max, hour in *.
    split; apply Z.leb_le; lia.
Qed.

Lemma history_cutoff_value current_time max_age_hours cutoff :
  history_cutoff current_time max_age_hours = Return cutoff ->
  cutoff = current_time - max_age_hours * 7 * hour.
Proof.
  unfold history_cutoff, timedelta_hours, datetime_sub.
  destruct (_ && _); [|discriminate]. cbv zeta.
  destruct (_ && _); [|discriminate]. now intros [= <-].
Qed.

(** Which jobs the filter of [cleanup_old_jobs] keeps. *)
Lemma kept_jobs current_time max_age_hours (jobs : dict JobStore) job_id :
  List.NoDup (map fst jobs) ->
  0 <= max_age_hours < 2 ^ 21 ->
  dict_get job_id
    (List.filter (fun kv => negb (too_old current_time max_age_hours (snd kv))) jobs)
  = match dict_get job_id jobs with
    | Some job =>
        if max_age_hours * hour <? current_time - created_at job
        then None else Some job
    | None => None
    end.
Proof.
  intros Hnd Hage.
  rewrite (dict_get_filter (fun v => negb (too_old current_time max_age_hours v)))
    by exact Hnd.
  destruct (dict_get job_id jobs) as [job|]; [|reflexivity].
  rewrite too_old_exact by exact Hage.
  now destruct (_ <? _).
Qed.

(** Beyond the ages of [too_old_exact] the float quotient can lose the
    last microsecond: at 6291456 hours a job one microsecond older is
    not found too old. *)
Remark too_old_rounds :
  too_old (6291456 * hour + 1) 6291456 (Samples.queued_job (txt "old") 0) = false.
Proof. reflexivity. Qed.

(** C8.  For a maximal age from 0 to [2 ^ 21] hours (the service passes 24,
    and the route an age from 1 to 168), a call of [cleanup_old_jobs] that
    returns has removed exactly the jobs created more than
    [max_age_hours] hours before, and left the others in their order; it
    has kept of the history the records completed after the cutoff of
    seven times that age (so every record older than the cutoff is
    gone), and returns how many jobs it removed.  Called again at the
    same instant it does not raise and finds nothing to remove: it
    returns 0 and leaves the store as it is. *)
Theorem cleanup_old_jobs_spec (current_time max_age_hours : Z)
    (store : EnhancedJobStore) (count : nat) :
  List.NoDup (map fst (_jobs store)) ->
  0 <= max_age_hours < 2 ^ 21 ->
  let result := cleanup_old_jobs current_time max_age_hours store in
  let store' := snd (fst result) in
  fst (fst result) = Return count ->
  (forall job_id job,
     get_job job_id store = Some job ->
     (older_than current_time max_age_hours job -> get_job job_id store' = None)
     /\ (~ older_than current_time max_age_hours job ->
         get_job job_id store' = Some job))
  /\ (forall job_id, get_job job_id store = None -> get_job job_id store' = None)
  /\ _jobs store'
     = List.filter
         (fun kv => negb (max_age_hours * hour <? current_time - created_at (snd kv)))
         (_jobs store)
  /\ count = (length (_jobs store) - length (_jobs store'))%nat
  /\ _job_history store'
     = List.filter
         (fun record => current_time - max_age_hours * 7 * hour <? completed_at record)
         (_job_history store)
  /\ (forall record,
        In record (_job_history store) ->
        completed_at record < current_time - max_age_hours * 7 * hour ->
        ~ In record (_job_history store'))
  /\ cleanup_old_jobs current_time max_age_hours store' = (Return 0%nat, store', []).
Proof.
  intros Hnd Hage result store'.
  destruct (cleanup_old_jobs_result current_time max_age_hours store Hnd)
    as (lines & Hres).
  set (old := too_old current_time max_age_hours) in *.
  assert (Hold : forall job,
            old job = (max_age_hours * hour <? current_time - created_at job))
    by (intros job; now apply too_old_exact).
  subst store' result. rewrite Hres.
  destruct (history_cutoff current_time max_age_hours) as [e|cutoff] eqn:Hcut;
    cbn [fst snd _jobs _job_history]; [discriminate|].
  apply history_cutoff_value in Hcut as Hval. subst cutoff.
  intros [= <-].
  split.
  { intros job_id job Hget. unfold get_job, older_than in *. cbn [_jobs].
    subst old. rewrite kept_jobs, Hget by assumption.
    destruct (Z.ltb_spec (max_age_hours * hour) (current_time - created_at job));
      split; intros; [reflexivity | lia | lia | reflexivity]. }
  split.
  { intros job_id Hget. unfold get_job in *. cbn [_jobs].
    rewrite (dict_get_filter (fun v => negb (old v))) by exact Hnd.
    now rewrite Hget. }
  split.
  { apply filter_ext. intros kv. now rewrite Hold. }
  split.
  { pose proof (filter_length_le (fun kv => old (snd kv)) (_jobs store)). lia. }
  split; [reflexivity|].
  split.
  { intros record _ Hrec Hin. apply filter_In in Hin as [_ Hin].
    apply Z.ltb_lt in Hin. lia. }
  unfold cleanup_old_jobs. cbn [_jobs _job_history]. fold old.
  rewrite (filter_filter_neg (fun kv => old (snd kv))).
  cbn [map fold_left fst snd length app _jobs _job_history].
  rewrite Hcut. now rewrite filter_idem.
Qed.

Lemma cleanup_old_jobs_spec_witness :
  let store' :=
    snd (fst (cleanup_old_jobs (26 * hour) 24 Samples.aged_store)) in
  (forall job_id job,
     get_job job_id Samples.aged_store = Some job ->
     (older_than (26 * hour) 24 job -> get_job job_id store' = None)
     /\ (~ older_than (26 * hour) 24 job -> get_job job_id store' = Some job))
  /\ cleanup_old_jobs (26 * hour) 24 store' = (Return 0%nat, store', []).
Proof.
  pose proof (@cleanup_old_jobs_spec (26 * hour) 24 Samples.aged_store 1) as H.
  cbv zeta in H |- *. split; apply H.
  all: first [ repeat constructor; cbn; intuition discriminate
             | split; [lia | reflexivity]
             | reflexivity ].
Defined.

End Retention.

(** ** What the scan for imports acts on *)

Section ImportFacts.
Import PyStr Re ReSpec Validation ValidationSpec.

Lemma all_app (p : ascii -> bool) a b : all p (a ++ b) <-> all p a /\ all p b.
Proof. unfold all. rewrite forallb_app. apply andb_true_iff. Qed.

Lemma all_cons (p : ascii -> bool) c w : all p (c :: w) <-> p c = true /\ all p w.
Proof. unfold all. cbn [forallb]. apply andb_true_iff. Qed.

(** A repetition takes all of a run that ends where the class does not
    match, when what follows accepts that. *)
Lemma star_max {A} p (k : cursor -> text -> option A) a s :
  match s with [] => True | c :: _ => p c = false end ->
  forall w cu,
    all p w -> k (advance_over w cu) s = Some a -> star p cu (w ++ s) k = Some a.
Proof.
  intros Hs. induction w as [|c w IH]; intros cu Hw Hk.
  - destruct s as [|c s]; cbn [app star]; [exact Hk|]. now rewrite Hs.
  - apply all_cons in Hw as [Hc Hw]. cbn [app star]. rewrite Hc.
    now rewrite (IH (advance c cu) Hw Hk).
Qed.

Lemma plus_max {A} p (k : cursor -> text -> option A) a s w cu :
  match s with [] => True | c :: _ => p c = false end ->
  w <> [] -> all p w -> k (advance_over w cu) s = Some a ->
  run (plus p) cu (w ++ s) k = Some a.
Proof.
  intros Hs Hne Hw Hk. destruct w as [|c w]; [congruence|].
  apply all_cons in Hw as [Hc Hw]. unfold plus. cbn [run app]. rewrite Hc.
  now apply star_max.
Qed.

Lemma grp_plus_max {A} p (k : cursor -> text -> option A) a s w cu :
  match s with [] => True | c :: _ => p c = false end ->
  w <> [] -> all p w -> k (capture w (advance_over w cu)) s = Some a ->
  run (Grp (plus p)) cu (w ++ s) k = Some a.
Proof.
  intros Hs Hne Hw Hk. cbn [run]. apply plus_max; [exact Hs | exact Hne | exact Hw |].
  rewrite pos_advance_over.
  replace (pos cu + length w - pos cu) with (length w) by lia.
  now rewrite firstn_app, Nat.sub_diag, firstn_all, app_nil_r.
Qed.

Lemma run_lit {A} w : forall cu s (k : cursor -> text -> option A),
  run (lit w) cu (w ++ s) k = k (advance_over w cu) s.
Proof.
  induction w as [|c w IH]; intros cu s k; [reflexivity|].
  cbn [lit run app]. unfold chr at 1. cbn [run]. rewrite Ascii.eqb_refl.
  apply IH.
Qed.

Lemma run_keyword {A} keyword cu s (k : cursor -> text -> option A) a :
  keyword = txt "import" \/ keyword = txt "from" ->
  k (advance_over keyword cu) s = Some a ->
  run (Alt (lit (txt "import")) (lit (txt "from"))) cu (keyword ++ s) k = Some a.
Proof.
  intros [-> | ->] Hk; cbn [run].
  - now rewrite run_lit, Hk.
  - replace (run (lit (txt "import")) cu (txt "from" ++ s) k) with (@None A)
      by reflexivity.
    now rewrite run_lit.
Qed.

Lemma at_bol_spec pre :
  at_bol true (advance_over pre origin) = true <-> line_start pre.
Proof.
  unfold line_start.
  induction pre as [|c b _] using rev_ind.
  - split; [now left | reflexivity].
  - rewrite advance_over_snoc. unfold at_bol. cbn [prev advance andb].
    split.
    + intros H. apply Ascii.eqb_eq in H as ->. right. now exists b.
    + intros [H|(b' & H)]; [now destruct b|].
      apply app_inj_tail in H as [_ ->]. apply Ascii.eqb_refl.
Qed.

Lemma nonspace_class c :
  negb (isspace c || Ascii.eqb c newline) = negb (isspace c).
Proof.
  destruct (Ascii.eqb_spec c newline) as [->|]; [reflexivity|].
  now rewrite orb_false_r.
Qed.

Lemma word_class w :
  all (fun c => negb (isspace c || Ascii.eqb c newline)) w
  <-> all (fun c => negb (isspace c)) w.
Proof.
  unfold all. induction w as [|c w IH]; [reflexivity|].
  cbn [forallb]. rewrite nonspace_class, !andb_true_iff. now rewrite IH.
Qed.

(** Every text splits into the word it begins with, possibly empty, and
    a rest that does not go on with the word. *)
Lemma word_span : forall s,
  exists more post,
    s = more ++ post /\ all (fun c => negb (isspace c)) more /\ word_ends post.
Proof.
  induction s as [|c s (more & post & -> & Hmore & Hpost)].
  - exists [], []. now repeat split.
  - destruct (isspace c) eqn:Hc.
    + exists [], (c :: more ++ post). now repeat split.
    + exists (c :: more), post. split; [reflexivity|]. split; [|exact Hpost].
      apply all_cons. now rewrite Hc.
Qed.

(** Where the pattern of the scan matches, and what the match is: white
    space from the start of a line or from a newline on, the keyword,
    white space, and the whole of the word that follows. *)
Lemma import_match cu lead keyword gap name post :
  all isspace lead ->
  at_bol true cu = true \/ (exists lead', lead = newline :: lead') ->
  keyword = txt "import" \/ keyword = txt "from" ->
  gap <> [] -> all isspace gap -> word name -> word_ends post ->
  match_here import_pattern cu (lead ++ keyword ++ gap ++ name ++ post)
  = Some (capture name (advance_over (lead ++ keyword ++ gap ++ name) cu), post).
Proof.
  intros Hlead Hstart Hkw Hgap1 Hgap2 [Hn1 Hn2] Hpost.
  unfold match_here, import_pattern, cat. cbn [fold_right].
  set (group := Grp (plus (fun c => negb (isspace c || Ascii.eqb c newline)))).
  set (keywords := Alt (lit (txt "import")) (lit (txt "from"))).
  assert (Htail : forall cu1 lead1,
            all isspace lead1 ->
            run (Seq (Star isspace)
                   (Seq keywords (Seq (plus isspace) (Seq group Eps))))
              cu1 (lead1 ++ keyword ++ gap ++ name ++ post) accept
            = Some (capture name
                      (advance_over (lead1 ++ keyword ++ gap ++ name) cu1), post)).
  { intros cu1 lead1 Hlead1. cbn [run].
    apply star_max; [destruct Hkw as [-> | ->]; reflexivity | exact Hlead1 |].
    apply run_keyword; [exact Hkw|].
    apply plus_max; [|exact Hgap1 | exact Hgap2 |].
    { destruct name as [|c name]; [congruence|].
      apply all_cons in Hn2 as [Hc _]. cbn [app].
      now apply negb_true_iff in Hc. }
    subst group. apply grp_plus_max; [|exact Hn1 | now apply word_class |].
    { destruct post as [|c post]; [exact I|]. cbn in Hpost.
      now rewrite nonspace_class, Hpost. }
    cbn [run]. unfold accept. now rewrite !advance_over_app. }
  cbn [run] in Htail |- *.
  destruct (at_bol true cu) eqn:Hbol.
  - now rewrite Htail.
  - destruct Hstart as [|(lead' & ->)]; [discriminate|].
    apply all_cons in Hlead as [_ Hlead]. cbn [app]. unfold chr. cbn [run].
    rewrite Ascii.eqb_refl. now rewrite Htail.
Qed.

Lemma import_match_inv cu s cu' rest :
  match_here import_pattern cu s = Some (cu', rest) ->
  exists lead keyword gap name,
    s = lead ++ keyword ++ gap ++ name ++ rest
    /\ all isspace lead
    /\ (at_bol true cu = true \/ exists lead', lead = newline :: lead')
    /\ (keyword = txt "import" \/ keyword = txt "from")
    /\ gap <> [] /\ all isspace gap /\ word name /\ word_ends rest
    /\ cu' = capture name (advance_over (lead ++ keyword ++ gap ++ name) cu).
Proof.
  intros H. pose proof (match_here_sound _ _ _ H) as Hm.
  unfold import_pattern, cat in Hm. cbn [fold_right] in Hm.
  apply matches_seq_inv in Hm as (c1 & s1 & H1 & Hm).
  apply matches_seq_inv in Hm as (c2 & s2 & H2 & Hm).
  apply matches_seq_inv in Hm as (c3 & s3 & H3 & Hm).
  apply matches_seq_inv in Hm as (c4 & s4 & H4 & Hm).
  apply matches_seq_inv in Hm as (c5 & s5 & H5 & Hm).
  apply matches_eps_inv in Hm as [E5 E6]. subst c5 s5.
  apply matches_star_inv in H2 as (ws & Hws & -> & ->).
  apply matches_plus_inv in H4 as (gap & Hg1 & Hg2 & -> & ->).
  apply matches_grp_plus_inv in H5 as (name0 & Hn1 & Hn2 & -> & ->).
  apply word_class in Hn2.
  assert (exists keyword,
            (keyword = txt "import" \/ keyword = txt "from")
            /\ s2 = keyword ++ gap ++ name0 ++ rest) as (keyword & Hkw & ->).
  { inversion H3 as [| | |? ? ? ? ? ? Hl|? ? ? ? ? ? Hl| | | | |]; subst;
      [pose proof (@matches_lit_inv (txt "import") _ _ _ _ Hl) as [-> _]
      |pose proof (@matches_lit_inv (txt "from") _ _ _ _ Hl) as [-> _]]; eauto. }
  assert (exists lead,
            s = lead ++ keyword ++ gap ++ name0 ++ rest
            /\ all isspace lead
            /\ (at_bol true cu = true \/ exists lead', lead = newline :: lead'))
    as (lead & -> & Hlead & Hstart).
  { inversion H1 as [| | |? ? ? ? ? ? Hl|? ? ? ? ? ? Hl| | | | |]; subst.
    - inversion Hl; subst. exists ws. split; [reflexivity|]. split; [exact Hws|].
      now left.
    - apply matches_chr_inv in Hl as [-> _]. exists (newline :: ws).
      split; [reflexivity|]. split; [now apply all_cons|]. right. now exists ws. }
  destruct (word_span rest) as (more & post & Hrest & Hmore & Hpost).
  assert (Hname : word (name0 ++ more)).
  { split; [destruct name0; [congruence | discriminate]|].
    apply all_app. now split. }
  pose proof (@import_match cu lead keyword gap (name0 ++ more) post
                Hlead Hstart Hkw Hg1 Hg2 Hname Hpost) as Hfull.
  assert (lead ++ keyword ++ gap ++ (name0 ++ more) ++ post
          = lead ++ keyword ++ gap ++ name0 ++ rest) as E
    by (rewrite Hrest, <- !app_assoc; reflexivity).
  rewrite E, H in Hfull.
  assert (rest = post) as Epost by congruence.
  assert (more = []) as ->
    by (apply (app_inv_tail post); cbn [app]; now rewrite <- Hrest).
  rewrite app_nil_r in Hfull.
  exists lead, keyword, gap, name0.
  split; [reflexivity|]. split; [exact Hlead|]. split; [exact Hstart|].
  split; [exact Hkw|]. split; [exact Hg1|]. split; [exact Hg2|].
  split; [now split|]. split; [now rewrite Epost | congruence].
Qed.

(** *** Import statements *)

Lemma statement_head pre s name post :
  import_statement pre s name post ->
  exists c s', s = c :: s' /\ isspace c = false.
Proof.
  intros (_ & keyword & gap & -> & [-> | ->] & _);
    eexists _, _; (split; [reflexivity|reflexivity]).
Qed.

Lemma statement_length pre s name post :
  import_statement pre s name post -> (length post < length s)%nat.
Proof.
  intros (_ & keyword & gap & -> & [-> | ->] & _); rewrite !length_app; cbn; lia.
Qed.

(** A run of a class that ends where the class does not match is
    determined by the text. *)
Lemma run_unique (p : ascii -> bool) : forall a1 a2 b1 b2 : text,
  all p a1 -> all p a2 ->
  match b1 with [] => True | c :: _ => p c = false end ->
  match b2 with [] => True | c :: _ => p c = false end ->
  a1 ++ b1 = a2 ++ b2 -> a1 = a2 /\ b1 = b2.
Proof.
  induction a1 as [|x a1 IH]; intros [|y a2] b1 b2 H1 H2 Hb1 Hb2 E; cbn [app] in E.
  - now split.
  - subst b1. apply all_cons in H2 as [Hy _]. congruence.
  - subst b2. apply all_cons in H1 as [Hx _]. congruence.
  - injection E as -> E. apply all_cons in H1 as [_ H1]. apply all_cons in H2 as [_ H2].
    destruct (IH a2 b1 b2 H1 H2 Hb1 Hb2 E) as [-> ->]. now split.
Qed.

(** The statement that begins at a place is determined by the text. *)
Lemma statement_unique pre pre' s name1 post1 name2 post2 :
  import_statement pre s name1 post1 -> import_statement pre' s name2 post2 ->
  name1 = name2 /\ post1 = post2.
Proof.
  intros (_ & k1 & g1 & E1 & Hk1 & Hg1 & Hb1 & [Hn1 Hw1] & He1)
         (_ & k2 & g2 & E2 & Hk2 & Hg2 & Hb2 & [Hn2 Hw2] & He2).
  rewrite E1 in E2.
  assert (k1 = k2) as <-
    by (destruct Hk1 as [-> | ->], Hk2 as [-> | ->];
        first [reflexivity | discriminate E2]).
  apply app_inv_head in E2.
  destruct (@run_unique isspace g1 g2 (name1 ++ post1) (name2 ++ post2))
    as [_ E]; try assumption.
  - destruct name1 as [|c n]; [congruence|]. apply all_cons in Hw1 as [Hc _].
    now apply negb_true_iff in Hc.
  - destruct name2 as [|c n]; [congruence|]. apply all_cons in Hw2 as [Hc _].
    now apply negb_true_iff in Hc.
  - apply (@run_unique (fun c => negb (isspace c))); try assumption.
    + destruct post1 as [|c q]; [exact I|]. cbn in He1. now rewrite He1.
    + destruct post2 as [|c q]; [exact I|]. cbn in He2. now rewrite He2.
Qed.

Lemma acted_statement pre s name post :
  acted_on pre s name post -> import_statement pre s name post.
Proof. now inversion 1. Qed.

Lemma acted_inside pre s name post :
  acted_on pre s name post ->
  forall pre' mid name' post',
    pre = pre' ++ mid -> mid <> [] ->
    import_statement pre' (mid ++ s) name' post' ->
    (length post' < length s)%nat ->
    passed_over pre' (mid ++ s) name' post'.
Proof. now inversion 1. Qed.

(** The scan does not both act on a statement and pass it over. *)
Lemma acted_not_passed : forall k pre s name post name' post',
  (length pre <= k)%nat ->
  acted_on pre s name post -> passed_over pre s name' post' -> False.
Proof.
  induction k as [|k IH]; intros pre s name post name' post' Hk Ha Hp;
    inversion Hp as [? ? ? ? p' mid n2 q2 Hst E Hne Ha2 Hlt]; subst;
    inversion Ha as [? ? ? ? Hst0 Hall]; subst;
    pose proof (Hall p' mid n2 q2 eq_refl Hne (acted_statement Ha2) Hlt) as Hp2;
    rewrite length_app in Hk; destruct mid as [|c mid]; try congruence;
    cbn [length] in Hk; [lia|].
  apply (IH p' (c :: mid ++ s) n2 q2 n2 q2); [lia | exact Ha2 | exact Hp2].
Qed.

(** *** The scan *)

Lemma findall_from_skip r : forall w cu s,
  findall_from r cu (w ++ s) (length w) = findall_from r (advance_over w cu) s 0.
Proof.
  induction w as [|c w IH]; intros cu s; [reflexivity|].
  cbn [app length findall_from]. apply IH.
Qed.

Lemma findall_from_match r cu w rest cu' g :
  w <> [] -> match_here r cu (w ++ rest) = Some (cu', rest) ->
  pos cu' = pos cu + length w -> cap cu' = Some g ->
  findall_from r cu (w ++ rest) 0 = g :: findall_from r (advance_over w cu) rest 0.
Proof.
  destruct w as [|c w]; [congruence|]. intros _ Hm Hpos Hcap.
  cbn [app findall_from] in Hm |- *. rewrite Hm, Hcap, Hpos. f_equal.
  replace (pos cu + length (c :: w) - pos cu - 1) with (length w) by (cbn; lia).
  exact (findall_from_skip r w (advance c cu) rest).
Qed.

End ImportFacts.

Section ImportScan.
Import PyStr Re ReSpec Validation ValidationSpec.

Lemma statement_not_blank p l t name post :
  import_statement p (l ++ t) name post -> l <> [] -> all isspace l -> False.
Proof.
  intros Hst Hl Hblank. apply statement_head in Hst as (c & s' & E & Hc).
  destruct l as [|x l]; [congruence|]. injection E as -> _.
  apply all_cons in Hblank as [Hx _]. congruence.
Qed.

(** The scan from a place on finds the names of the statements acted
    on from there on, when every statement ahead has a line start
    between the place and itself, and every statement that begins before
    the place is passed over, or acted on and over. *)
Lemma scan_acts : forall k s pre,
  (length s <= k)%nat ->
  (forall mid t name post,
     s = mid ++ t -> import_statement (pre ++ mid) t name post ->
     exists m1 lead,
       mid = m1 ++ lead /\ all isspace lead /\ line_start (pre ++ m1)) ->
  (forall p1 mid name post,
     pre = p1 ++ mid -> mid <> [] -> import_statement p1 (mid ++ s) name post ->
     (acted_on p1 (mid ++ s) name post /\ (length s <= length post)%nat)
     \/ passed_over p1 (mid ++ s) name post) ->
  forall name,
    In name (findall_from import_pattern (advance_over pre origin) s 0)
    <-> exists mid t post, s = mid ++ t /\ acted_on (pre ++ mid) t name post.
Proof.
  induction k as [|k IH]; intros s pre Hk J K name;
    (destruct s as [|c s'];
     [cbn [findall_from]; split; [intros []|];
      intros (mid & t & post & E & Ha); symmetry in E;
      apply app_eq_nil in E as [_ ->];
      apply acted_statement, statement_head in Ha as (? & ? & ? & _); discriminate
     |]); [cbn in Hk; lia|].
  set (cu := advance_over pre origin).
  assert (Hahead : forall lead t n q,
            c :: s' = lead ++ t -> all isspace lead -> line_start pre ->
            import_statement (pre ++ lead) t n q ->
            match_here import_pattern cu (c :: s') <> None).
  { intros lead t n q E Hlead Hbol (_ & kw & gap & -> & Hkw & Hg1 & Hg2 & Hn & Hq).
    rewrite E, (@import_match cu lead kw gap n q); try assumption; [discriminate|].
    left. now apply at_bol_spec. }
  destruct (match_here import_pattern cu (c :: s')) as [[cu' rest]|] eqn:Hm.
  - (* a match begins here *)
    clear Hahead.
    apply import_match_inv in Hm as Hinv.
    destruct Hinv as (lead & kw & gap & n0 & E & Hlead & Hstart & Hkw & Hg1 & Hg2
                      & Hn0 & Hrest & Hcu).
    remember (c :: s') as s eqn:Es. clear c s' Es.
    set (t := kw ++ gap ++ n0 ++ rest) in *.
    set (w := lead ++ kw ++ gap ++ n0) in *.
    assert (Ew : s = w ++ rest) by (subst s w t; now rewrite <- !app_assoc).
    assert (Hw : w <> []).
    { subst w. destruct Hn0 as [Hn0 _].
      destruct lead; [|discriminate]. destruct kw; [|discriminate].
      destruct gap; [|discriminate]. exact Hn0. }
    assert (Hst0 : import_statement (pre ++ lead) t n0 rest).
    { split;
        [|exists kw, gap; split; [reflexivity|]; split; [exact Hkw|];
          split; [exact Hg1|]; split; [exact Hg2|]; split; [exact Hn0 | exact Hrest]].
      destruct Hstart as [Hb|(lead' & ->)].
      - exists pre, lead. split; [reflexivity|]. split; [exact Hlead|].
        now apply at_bol_spec.
      - exists (pre ++ [newline]), lead'. split; [now rewrite <- app_assoc|].
        split; [now apply all_cons in Hlead|]. right. now exists pre. }
    assert (Hbefore : forall p1 l n q,
              pre ++ lead = p1 ++ l -> l <> [] -> import_statement p1 (l ++ t) n q ->
              (acted_on p1 (l ++ t) n q /\ (length s <= length q)%nat)
              \/ passed_over p1 (l ++ t) n q).
    { intros p1 l n q El Hl Hst.
      apply List.app_eq_app in El as (l' & [[E1 E2]|[E1 E2]]).
      - destruct l' as [|x l'].
        + cbn [app] in E2. subst l. exfalso.
          now apply (@statement_not_blank _ _ _ _ _ Hst).
        + assert (l ++ t = (x :: l') ++ s) as El
            by (rewrite E2, E; now rewrite <- app_assoc).
          rewrite El in Hst |- *. apply K; [exact E1 | discriminate | exact Hst].
      - exfalso. rewrite E2 in Hlead. apply all_app in Hlead as [_ Hlead].
        now apply (@statement_not_blank _ _ _ _ _ Hst). }
    assert (HA : acted_on (pre ++ lead) t n0 rest).
    { apply acts; [exact Hst0|]. intros p' mid n' q' Ep Hmid Hst' Hlt.
      destruct (Hbefore p' mid n' q' Ep Hmid Hst') as [[_ Hlen]|Hp]; [|exact Hp].
      exfalso. rewrite E, length_app in Hlen. lia. }
    assert (Hpos : pos cu' = pos cu + length w)
      by (subst cu'; cbn [capture pos]; apply pos_advance_over).
    assert (Hcap : cap cu' = Some n0) by (subst cu'; reflexivity).
    rewrite Ew in Hm |- *.
    rewrite (@findall_from_match import_pattern cu w rest cu' n0 Hw Hm Hpos Hcap).
    rewrite <- Ew. subst cu. rewrite <- advance_over_app.
    assert (Hlen : (length rest <= k)%nat).
    { rewrite Ew, length_app in Hk. destruct w; [congruence|]. cbn in Hk. lia. }
    assert (Hlast : exists n1 x, n0 = n1 ++ [x] /\ isspace x = false).
    { destruct Hn0 as [Hne Hall].
      destruct (exists_last Hne) as (n1 & x & ->). exists n1, x.
      split; [reflexivity|]. apply all_app in Hall as [_ Hx].
      apply all_cons in Hx as [Hx _]. now apply negb_true_iff in Hx. }
    destruct Hlast as (n1 & x & En0 & Hx).
    specialize (IH rest (pre ++ w) Hlen).
    assert (J2 : forall mid t2 name2 post2,
              rest = mid ++ t2 ->
              import_statement ((pre ++ w) ++ mid) t2 name2 post2 ->
              exists m1 lead2,
                mid = m1 ++ lead2 /\ all isspace lead2
                /\ line_start ((pre ++ w) ++ m1)).
    { intros mid t2 name2 post2 _ ((before & indent & Eb & Hindent & Hbol) & _).
      symmetry in Eb.
      apply List.app_eq_app in Eb as (l & [[E1 E2]|[E1 E2]]).
      - exists l, indent. rewrite <- E1. now repeat split.
      - destruct l as [|y l _] using rev_ind.
        + exists [], mid. rewrite app_nil_r in *. cbn [app] in E2.
          rewrite E1, <- E2. now repeat split.
        + exfalso.
          assert (y = x) as ->.
          { subst w. rewrite En0 in E1. rewrite !app_assoc in E1.
            now apply app_inj_tail in E1 as [_ ->]. }
          rewrite E2 in Hindent. apply all_app in Hindent as [Hindent _].
          apply all_app in Hindent as [_ Hindent].
          apply all_cons in Hindent as [Hindent _]. congruence. }
    assert (Hown : forall n q,
              import_statement (pre ++ lead) t n q ->
              acted_on (pre ++ lead) t n q /\ (length rest <= length q)%nat).
    { intros n q Hst'. destruct (statement_unique Hst' Hst0) as [-> ->].
      now split. }
    assert (K2 : forall p1 mid name' post',
              pre ++ w = p1 ++ mid -> mid <> [] ->
              import_statement p1 (mid ++ rest) name' post' ->
              (acted_on p1 (mid ++ rest) name' post'
               /\ (length rest <= length post')%nat)
              \/ passed_over p1 (mid ++ rest) name' post').
    { intros p1 mid name' post' Ep Hmid Hst.
      subst w. rewrite app_assoc in Ep.
      apply List.app_eq_app in Ep as (l & [[E1 E2]|[E1 E2]]).
      - (* the statement begins at or before the one matched *)
        destruct l as [|y l].
        + rewrite app_nil_r in E1. cbn [app] in E2. subst p1 mid.
          left. rewrite <- !app_assoc in Hst |- *. now apply Hown.
        + assert (mid ++ rest = (y :: l) ++ t) as Emid
            by (rewrite E2; subst t; now rewrite <- !app_assoc).
          rewrite Emid in Hst |- *.
          destruct (Hbefore p1 (y :: l) name' post' E1 ltac:(discriminate) Hst)
            as [[Ha Hl]|Hp]; [left|now right].
          split; [exact Ha|]. rewrite Ew, length_app in Hl. lia.
      - (* the statement begins inside the one matched, or with it *)
        destruct l as [|y l].
        + rewrite app_nil_r in E1. cbn [app] in E2. subst p1.
          assert (mid ++ rest = t) as Emid
            by (rewrite <- E2; subst t; now rewrite <- !app_assoc).
          rewrite Emid in Hst |- *. left. now apply Hown.
        + right.
          assert (t = (y :: l) ++ mid ++ rest) as Et.
          { subst t. rewrite (app_assoc (y :: l)), <- E2.
            now rewrite <- !app_assoc. }
          apply passes with (pre' := pre ++ lead) (mid := y :: l)
                            (name' := n0) (post' := rest);
            [exact Hst | exact E1 | discriminate | now rewrite <- Et |].
          rewrite length_app. destruct mid; [congruence|]. cbn. lia. }
    specialize (IH J2 K2 name). cbn [In]. rewrite IH. split.
    + intros [<-|(mid & t2 & post & Erest & Ha)].
      * exists lead, t, rest. split; [exact E | exact HA].
      * exists (w ++ mid), t2, post.
        split; [rewrite Ew, Erest; now rewrite <- app_assoc|].
        now rewrite app_assoc.
    + intros (mid & t2 & post & Es & Ha).
      assert (Hsame : forall q, acted_on (pre ++ lead) t name q -> n0 = name).
      { intros q Ha'.
        now destruct (statement_unique (acted_statement Ha') Hst0) as [-> _]. }
      rewrite E in Es.
      apply List.app_eq_app in Es as (l & [[E1 E2]|[E1 E2]]).
      * destruct l as [|y l].
        -- rewrite app_nil_r in E1. cbn [app] in E2. subst mid t2.
           left. now apply (Hsame post).
        -- exfalso. rewrite E1 in Hlead. apply all_app in Hlead as [_ Hlead].
           rewrite E2 in Ha.
           now apply (@statement_not_blank _ _ _ _ _ (acted_statement Ha)).
      * destruct l as [|y l].
        -- rewrite app_nil_r in E1. cbn [app] in E2. subst mid t2.
           left. now apply (Hsame post).
        -- assert (Eu : (kw ++ gap ++ n0) ++ rest = (y :: l) ++ t2)
             by (rewrite <- E2; subst t; now rewrite <- !app_assoc).
           apply List.app_eq_app in Eu as (l2 & [[E3 E4]|[E3 E4]]).
           ++ destruct l2 as [|z l2].
              ** right. exists [], t2, post. cbn [app] in E4.
                 split; [now rewrite E4|].
                 rewrite app_nil_r in E3 |- *. subst w. rewrite E3, <- E1.
                 exact Ha.
              ** exfalso. pose proof (acted_inside Ha) as Hall.
                 apply (@acted_not_passed (length (pre ++ lead)) (pre ++ lead) t
                          n0 rest n0 rest); [lia | exact HA |].
                 rewrite E2.
                 apply (Hall (pre ++ lead) (y :: l) n0 rest);
                   [rewrite E1; now rewrite app_assoc | discriminate
                   | now rewrite <- E2 | rewrite E4, length_app; cbn; lia].
           ++ right. exists l2, t2, post. split; [exact E4|].
              subst w. rewrite E1, E3 in Ha.
              repeat rewrite <- app_assoc in Ha. repeat rewrite <- app_assoc.
              exact Ha.
  - (* no match begins here *)
    cbn [findall_from]. rewrite Hm. subst cu. rewrite <- advance_over_snoc.
    cbn [length] in Hk.
    specialize (IH s' (pre ++ [c]) ltac:(lia)).
    assert (Hnone : forall n q, import_statement pre (c :: s') n q -> False).
    { intros n q Hst.
      destruct (J [] (c :: s') n q eq_refl) as (m1 & lead & El & _ & Hbol);
        [now rewrite app_nil_r|].
      symmetry in El. apply app_eq_nil in El as [-> ->]. rewrite app_nil_r in Hbol.
      apply (Hahead [] (c :: s') n q eq_refl);
        [reflexivity | exact Hbol | now rewrite app_nil_r | reflexivity]. }
    assert (J' : forall mid t n q,
              s' = mid ++ t -> import_statement ((pre ++ [c]) ++ mid) t n q ->
              exists m1 lead,
                mid = m1 ++ lead /\ all isspace lead
                /\ line_start ((pre ++ [c]) ++ m1)).
    { intros mid t n q Es Hst. rewrite <- app_assoc in Hst. cbn [app] in Hst.
      destruct (J (c :: mid) t n q) as (m1 & lead & El & Hlead & Hbol);
        [now rewrite Es | exact Hst |].
      destruct m1 as [|c0 m1].
      - exfalso. cbn [app] in El. subst lead. rewrite app_nil_r in Hbol.
        apply (Hahead (c :: mid) t n q);
          [now rewrite Es | exact Hlead | exact Hbol | exact Hst | reflexivity].
      - injection El as <- ->. exists m1, lead.
        split; [reflexivity|]. split; [exact Hlead|]. now rewrite <- app_assoc. }
    assert (K' : forall p1 mid n q,
              pre ++ [c] = p1 ++ mid -> mid <> [] ->
              import_statement p1 (mid ++ s') n q ->
              (acted_on p1 (mid ++ s') n q /\ (length s' <= length q)%nat)
              \/ passed_over p1 (mid ++ s') n q).
    { intros p1 mid n q Ep Hmid Hst.
      destruct mid as [|y mid0 _] using rev_ind; [congruence|].
      rewrite app_assoc in Ep. apply app_inj_tail in Ep as [Ep <-].
      rewrite <- app_assoc in Hst |- *. cbn [app] in Hst |- *.
      destruct mid0 as [|z mid0].
      - exfalso. rewrite app_nil_r in Ep. subst p1. cbn [app] in Hst.
        exact (Hnone n q Hst).
      - destruct (K p1 (z :: mid0) n q Ep ltac:(discriminate) Hst)
          as [[Ha Hl]|Hp]; [left|now right].
        split; [exact Ha | cbn in Hl; lia]. }
    rewrite (IH J' K' name). split.
    + intros (mid & t & post & Es & Ha). exists (c :: mid), t, post.
      split; [now rewrite Es|]. now rewrite <- app_assoc in Ha.
    + intros (mid & t & post & Es & Ha). destruct mid as [|c0 mid].
      * exfalso. cbn [app] in Es. subst t. rewrite app_nil_r in Ha.
        exact (Hnone name post (acted_statement Ha)).
      * injection Es as <- ->. exists mid, t, post.
        split; [reflexivity|]. now rewrite <- app_assoc.
Qed.

(** [re.findall] with the pattern of the scan returns the names of the
    statements acted on. *)
Lemma findall_imports code name :
  In name (findall import_pattern code)
  <-> exists pre s post, code = pre ++ s /\ acted_on pre s name post.
Proof.
  unfold findall. change origin with (advance_over [] origin).
  apply (@scan_acts (length code) code [] (le_n _)).
  - intros mid t n q _ ((before & indent & E & Hi & Hb) & _).
    exists before, indent. now repeat split.
  - intros p1 mid n q E Hmid. symmetry in E. apply app_eq_nil in E as [_ ->].
    congruence.
Qed.

(** *** The module a name begins with *)

Lemma split_first_module name : names_module name (split_first "." name).
Proof.
  unfold names_module. induction name as [|c name [IH1 IH2]]; cbn [split_first].
  - split; [intros [] | now left].
  - destruct (Ascii.eqb_spec c ".") as [->|Hc].
    + split; [intros [] | right; now exists name].
    + split; [intros [E|H]; [congruence | contradiction]|].
      destruct IH2 as [E|(rest & E)]; [left | right; exists rest];
        now rewrite E at 1.
Qed.

Lemma names_module_unique name : forall module,
  names_module name module -> module = split_first "." name.
Proof.
  unfold names_module.
  induction name as [|c name IH]; intros module [Hfree Hname].
  - destruct Hname as [<-|(rest & E)]; [reflexivity|]. now destruct module.
  - cbn [split_first]. destruct module as [|m module].
    + destruct Hname as [E|(rest & E)]; [discriminate|].
      injection E as -> _. now rewrite Ascii.eqb_refl.
    + assert (c = m /\ (name = module
                        \/ exists rest, name = module ++ "."%char :: rest))
        as [-> Hrest].
      { destruct Hname as [E|(rest & E)]; injection E as -> E;
          (split; [reflexivity|]); [now left | right; now exists rest]. }
      destruct (Ascii.eqb_spec m ".") as [->|_]; [destruct Hfree; now left|].
      f_equal. apply IH. split; [|exact Hrest].
      intros H. apply Hfree. now right.
Qed.

Lemma split_first_word w :
  all (fun c => negb (isspace c)) w ->
  all (fun c => negb (isspace c)) (split_first "." w).
Proof.
  induction w as [|c w IH]; [reflexivity|]. intros H.
  apply all_cons in H as [Hc H]. cbn [split_first].
  destruct (Ascii.eqb c "."); [reflexivity|]. apply all_cons. auto.
Qed.

Lemma strip_word w : all (fun c => negb (isspace c)) w -> strip w = w.
Proof.
  assert (Hl : forall v, all (fun c => negb (isspace c)) v -> lstrip v = v).
  { intros [|c v] H; [reflexivity|]. apply all_cons in H as [Hc _].
    cbn [lstrip]. apply negb_true_iff in Hc. now rewrite Hc. }
  intros H. unfold strip, rstrip. rewrite (Hl w H), Hl; [apply rev_involutive|].
  unfold all in *. rewrite forallb_forall in *. intros c Hc. apply H.
  now apply in_rev.
Qed.

(** The loop over the imports found stops exactly when the scan acts on
    a statement that names a denylisted module. *)
Lemma dangerous_import_spec code_lower :
  match dangerous_import (findall import_pattern code_lower) with
  | Some _ => imports_denylisted code_lower
  | None => ~ imports_denylisted code_lower
  end.
Proof.
  unfold dangerous_import.
  destruct (find _ (findall import_pattern code_lower)) as [imp|] eqn:F.
  - apply find_some in F as [Hin Hmem].
    apply findall_imports in Hin as (pre & s & post & E & Ha).
    pose proof (acted_statement Ha) as (_ & kw & gap & _ & _ & _ & _ & [_ Hw] & _).
    rewrite strip_word in Hmem by now apply split_first_word.
    exists pre, s, imp, post, (split_first "." imp).
    split; [exact E|]. split; [exact Ha|]. split; [apply split_first_module|].
    now apply mem_In.
  - intros (pre & s & name & post & module & E & Ha & Hmod & Hin).
    pose proof (acted_statement Ha) as (_ & kw & gap & _ & _ & _ & _ & [_ Hw] & _).
    assert (In name (findall import_pattern code_lower)) as Hfound
      by (apply findall_imports; now exists pre, s, post).
    pose proof (find_none _ _ F name Hfound) as Hf. cbv beta in Hf.
    rewrite strip_word in Hf by now apply split_first_word.
    rewrite <- (names_module_unique Hmod) in Hf.
    apply mem_In in Hin. congruence.
Qed.

End ImportScan.

Section CodeScannerSpec.
Import PyStr Re ReSpec Validation ValidationSpec Samples.
Open Scope Z_scope.

Lemma call_of_search word hay :
  is_Some (search (call_of word) hay) <-> has_call (txt word) hay.
Proof.
  split.
  - intros [[cu' rest] H]. apply search_sound in H as (pre & tail & -> & Hm).
    unfold call_of, cat in Hm. cbn [fold_right] in Hm.
    apply matches_seq_inv in Hm as (c1 & s1 & H1 & Hm).
    apply matches_seq_inv in Hm as (c2 & s2 & H2 & Hm).
    apply matches_seq_inv in Hm as (c3 & s3 & H3 & Hm).
    apply matches_eps_inv in Hm as [E1 E2]. subst c3 s3.
    apply matches_lit_inv in H1 as [-> ->].
    apply matches_star_inv in H2 as (ws & Hws & -> & ->).
    apply matches_chr_inv in H3 as [-> ->].
    now exists pre, ws, rest.
  - intros (pre & ws & post & -> & Hws).
    eapply search_complete with (pre := pre). eexists. split; [reflexivity|].
    unfold call_of, cat. cbn [fold_right].
    eapply m_seq; [apply matches_lit|].
    eapply m_seq; [now apply matches_star|].
    eapply m_seq; [apply matches_chr | constructor].
Qed.

Lemma file_patterns_spec code_lower :
  existsb (fun pattern => bool_decide (is_Some (search pattern code_lower)))
    file_patterns = true
  <-> exists word, In word file_operations /\ has_call (txt word) code_lower.
Proof.
  change file_patterns with (map call_of file_operations).
  rewrite existsb_exists. split.
  - intros (p & Hp & H). apply in_map_iff in Hp as (word & <- & Hw).
    apply bool_decide_eq_true in H. exists word. split; [exact Hw|].
    now apply call_of_search.
  - intros (word & Hw & H). exists (call_of word). split; [now apply in_map|].
    apply bool_decide_eq_true. now apply call_of_search.
Qed.

Lemma contains_any_spec names code_lower :
  existsb (fun name => contains name code_lower) names = true
  <-> exists name, In name names /\ substring name code_lower.
Proof.
  rewrite existsb_exists. split; intros (name & Hn & H); exists name;
    (split; [exact Hn|]); now apply contains_spec.
Qed.

(** The scanner, check by check. *)
Lemma validate_code_cases (code : text) :
  let stripped := strip code in
  match validate_code code with
  | Return out =>
      out = stripped /\ code <> []
      /\ 10 <= len stripped <= 5000
      /\ ~ unsafe (lower stripped) /\ structured (lower stripped)
  | Raise _ =>
      code = [] \/ len stripped < 10 \/ 5000 < len stripped
      \/ unsafe (lower stripped) \/ ~ structured (lower stripped)
  end.
Proof.
  intros stripped. unfold validate_code. fold stripped.
  destruct code as [|c code]; [now left|]. cbn [is_empty].
  destruct (Z.ltb_spec (len stripped) 10) as [Hshort|Hmin]; [right; now left|].
  destruct (Z.ltb_spec 5000 (len stripped)) as [Hlong|Hmax];
    [right; right; now left|].
  pose proof (dangerous_import_spec (lower stripped)) as Himp.
  destruct (dangerous_import _) as [imp|];
    [right; right; right; left; now left|].
  destruct (existsb _ DANGEROUS_KEYWORDS) eqn:Hkw;
    [apply contains_any_spec in Hkw; right; right; right; left; right; now left|].
  destruct (existsb _ file_patterns) eqn:Hfile;
    [apply file_patterns_spec in Hfile; right; right; right; left; right; right;
     now left|].
  destruct (existsb _ network_patterns) eqn:Hnet;
    [apply contains_any_spec in Hnet; right; right; right; left; right; right;
     now right|].
  assert (Hsafe : ~ unsafe (lower stripped)).
  { intros [H|[H|[H|H]]].
    - now apply Himp.
    - apply contains_any_spec in H. congruence.
    - apply file_patterns_spec in H. congruence.
    - apply contains_any_spec in H. congruence. }
  destruct (contains (txt "from manim import") (lower stripped)) eqn:M1;
    destruct (contains (txt "import manim") (lower stripped)) eqn:M2;
    cbn [negb andb];
    try (apply contains_false_spec in M1; apply contains_false_spec in M2;
         right; right; right; right; intros [[H|H] _]; contradiction).
  all: destruct (contains (txt "class ") (lower stripped)) eqn:M3; cbn [negb];
    [|apply contains_false_spec in M3; right; right; right; right;
      intros (_ & H & _); contradiction].
  all: destruct (contains (txt "def construct") (lower stripped)) eqn:M4;
    cbn [negb];
    [|apply contains_false_spec in M4; right; right; right; right;
      intros (_ & _ & H); contradiction].
  all: apply contains_spec in M3; apply contains_spec in M4.
  all: split; [reflexivity|]; split; [discriminate|]; split; [lia|];
    split; [exact Hsafe|]; split; [|now split].
  - left. now apply contains_spec.
  - left. now apply contains_spec.
  - right. now apply contains_spec.
Qed.



End CodeScannerSpec.

(** ** The position in the queue *)

Section QueuePosition.
Import PyStr Store StoreSpec Samples.
Open Scope Z_scope.

Lemma insert_by_created_perm job : forall sorted,
  Permutation (insert_by_created job sorted) (job :: sorted).
Proof.
  induction sorted as [|j rest IH]; cbn [insert_by_created]; [reflexivity|].
  destruct (created_at job <=? created_at j); [reflexivity|].
  rewrite IH. apply perm_swap.
Qed.

Lemma sort_by_created_perm jobs : Permutation (sort_by_created jobs) jobs.
Proof.
  induction jobs as [|j rest IH]; [reflexivity|].
  cbn [sort_by_created fold_right]. fold (sort_by_created rest).
  rewrite insert_by_created_perm. now constructor.
Qed.

Lemma insert_by_created_sorted job : forall sorted,
  StronglySorted by_created sorted ->
  StronglySorted by_created (insert_by_created job sorted).
Proof.
  induction 1 as [|j rest Hrest IH Hall]; cbn [insert_by_created].
  - repeat constructor.
  - destruct (Z.leb_spec (created_at job) (created_at j)) as [Hle|Hgt].
    + constructor; [now constructor|].
      constructor; [exact Hle|].
      eapply List.Forall_impl; [|exact Hall]. unfold by_created. intros; lia.
    + constructor; [exact IH|].
      rewrite List.Forall_forall in *. intros x Hx.
      apply (Permutation_in _ (insert_by_created_perm job rest)) in Hx
        as [<-|Hx]; [unfold by_created; lia | now apply Hall].
Qed.

Lemma sort_by_created_sorted jobs :
  StronglySorted by_created (sort_by_created jobs).
Proof.
  induction jobs as [|j rest IH]; [constructor|].
  cbn [sort_by_created fold_right]. now apply insert_by_created_sorted.
Qed.

Lemma filter_none {A} (p : A -> bool) l :
  (forall x, In x l -> p x = false) -> List.filter p l = [].
Proof.
  induction l as [|x l IH]; intros H; [reflexivity|]. cbn [List.filter].
  rewrite (H x) by now left. apply IH. intros y Hy. apply H. now right.
Qed.

Lemma filter_length_perm {A} (p : A -> bool) l l' :
  Permutation l l' -> length (List.filter p l) = length (List.filter p l').
Proof.
  induction 1 as [|x l l' _ IH|x y l|l l' l'' _ IH1 _ IH2]; cbn [List.filter].
  - reflexivity.
  - destruct (p x); cbn [length]; now rewrite IH.
  - destruct (p x), (p y); reflexivity.
  - now rewrite IH1.
Qed.

Lemma position_from_shift job_id jobs : forall n,
  position_from (S n) job_id jobs = option_map S (position_from n job_id jobs).
Proof.
  induction jobs as [|j rest IH]; intros n; cbn [position_from]; [reflexivity|].
  destruct (text_eqb (id j) job_id); [reflexivity | apply IH].
Qed.

(** Where a job lands when it is inserted: after the jobs created
    before it. *)
Lemma position_of_inserted job : forall sorted n,
  StronglySorted by_created sorted ->
  ~ In (id job) (map id sorted) ->
  position_from n (id job) (insert_by_created job sorted)
  = Some (n + length (List.filter
                        (fun j => (created_at j <? created_at job)%Z) sorted))%nat.
Proof.
  induction sorted as [|j rest IH]; intros n Hs Hnew; cbn [insert_by_created].
  - cbn. rewrite text_eqb_refl. f_equal. lia.
  - inversion Hs as [|? ? Hrest Hall]; subst.
    destruct (Z.leb_spec (created_at job) (created_at j)) as [Hle|Hgt].
    + cbn [position_from]. rewrite text_eqb_refl. f_equal.
      rewrite filter_none; [cbn; lia|].
      intros x [<-|Hx]; [apply Z.ltb_ge; lia|].
      rewrite List.Forall_forall in Hall. apply Hall in Hx.
      unfold by_created in Hx. apply Z.ltb_ge. lia.
    + cbn [position_from List.filter].
      replace (created_at j <? created_at job) with true
        by (symmetry; apply Z.ltb_lt; lia).
      assert (Hne : text_eqb (id j) (id job) = false).
      { apply text_eqb_neq. intros E. apply Hnew. left. exact E. }
      rewrite Hne, IH; [f_equal; cbn [length]; lia | exact Hrest|].
      intros Hin. apply Hnew. now right.
Qed.

(** What inserting another job does to the position of a job that is
    already there: it moves back by one when the other is created no
    later. *)
Lemma position_after_insert other job : forall sorted n,
  StronglySorted by_created sorted ->
  List.NoDup (map id sorted) ->
  In job sorted ->
  id other <> id job ->
  position_from n (id job) (insert_by_created other sorted)
  = option_map
      (fun p => (p + if (created_at other <=? created_at job)%Z then 1 else 0)%nat)
      (position_from n (id job) sorted).
Proof.
  induction sorted as [|j rest IH]; intros n Hs Hnd Hin Hne; [contradiction|].
  inversion Hs as [|? ? Hrest Hall]; subst.
  cbn [map] in Hnd. apply List.NoDup_cons_iff in Hnd as [Hj Hnd].
  assert (Hother : text_eqb (id other) (id job) = false) by now apply text_eqb_neq.
  cbn [insert_by_created].
  destruct (Z.leb_spec (created_at other) (created_at j)) as [Hle|Hgt].
  - cbn [position_from]. rewrite Hother.
    assert (Hjob : created_at other <= created_at job).
    { destruct Hin as [<-|Hin]; [exact Hle|].
      rewrite List.Forall_forall in Hall. apply Hall in Hin.
      unfold by_created in Hin. lia. }
    replace (created_at other <=? created_at job) with true
      by (symmetry; now apply Z.leb_le).
    destruct (text_eqb (id j) (id job)); [cbn; f_equal; lia|].
    rewrite !position_from_shift.
    destruct (position_from n (id job) rest); cbn; [f_equal; lia | reflexivity].
  - cbn [position_from].
    destruct (text_eqb (id j) (id job)) eqn:E.
    + apply text_eqb_eq in E.
      assert (job = j).
      { destruct Hin as [<-|Hin]; [reflexivity|].
        destruct Hj. rewrite E. now apply in_map. }
      subst j.
      replace (created_at other <=? created_at job) with false
        by (symmetry; apply Z.leb_gt; lia).
      cbn. f_equal. lia.
    + destruct Hin as [->|Hin]; [now rewrite text_eqb_refl in E|].
      now apply IH.
Qed.

Lemma inserted_before_head job_id j rest :
  id j <> job_id ->
  inserted_before job_id (j :: rest) = j :: inserted_before job_id rest.
Proof.
  intros H. cbn [inserted_before]. apply text_eqb_neq in H. now rewrite H.
Qed.

(** The place of a job in the list sorted by creation time. *)
Lemma position_in_sorted job : forall jobs,
  List.NoDup (map id jobs) ->
  In job jobs ->
  position_from 1 (id job) (sort_by_created jobs) = Some (1 + ahead job jobs)%nat.
Proof.
  induction jobs as [|j rest IH]; intros Hnd Hin; [contradiction|].
  cbn [map] in Hnd. apply List.NoDup_cons_iff in Hnd as [Hj Hnd].
  cbn [sort_by_created fold_right]. fold (sort_by_created rest).
  assert (Hperm := sort_by_created_perm rest).
  destruct (text_eqb (id j) (id job)) eqn:E.
  - apply text_eqb_eq in E.
    assert (job = j).
    { destruct Hin as [<-|Hin]; [reflexivity|].
      destruct Hj. rewrite E. now apply in_map. }
    subst j.
    rewrite position_of_inserted.
    + f_equal. unfold ahead. cbn [inserted_before List.filter length].
      rewrite text_eqb_refl, Z.ltb_irrefl. cbn [length].
      rewrite (filter_length_perm _ Hperm). cbn [List.filter length]. lia.
    + apply sort_by_created_sorted.
    + intros Hin'. apply Hj.
      apply (Permutation_in _ (Permutation_map id Hperm)). exact Hin'.
  - assert (Hne : id j <> id job) by now apply text_eqb_neq.
    destruct Hin as [->|Hin]; [now rewrite text_eqb_refl in E|].
    rewrite position_after_insert.
    + rewrite IH by assumption. cbn [option_map]. f_equal.
      unfold ahead. rewrite inserted_before_head by exact Hne.
      cbn [List.filter].
      destruct (Z.leb_spec (created_at j) (created_at job)) as [Hle|Hgt];
        destruct (Z.ltb_spec (created_at j) (created_at job));
        destruct (Z.eqb_spec (created_at j) (created_at job));
        cbn [length]; lia.
    + apply sort_by_created_sorted.
    + apply (Permutation_NoDup (Permutation_map id (Permutation_sym Hperm))).
      exact Hnd.
    + apply (Permutation_in _ (Permutation_sym Hperm)). exact Hin.
    + exact Hne.
Qed.

Lemma dict_get_In {V} k (v : V) : forall d, dict_get k d = Some v -> In (k, v) d.
Proof.
  unfold dict_get. induction d as [|[k' v'] d IH]; cbn [find fst]; [discriminate|].
  destruct (text_eqb k' k) eqn:E.
  - apply text_eqb_eq in E as ->. cbn. intros [= ->]. now left.
  - intros H. right. now apply IH.
Qed.

Lemma NoDup_map_filter {A B} (f : A -> B) (p : A -> bool) l :
  List.NoDup (map f l) -> List.NoDup (map f (List.filter p l)).
Proof.
  induction l as [|x l IH]; cbn [map List.filter]; intros H; [constructor|].
  apply List.NoDup_cons_iff in H as [Hx H].
  destruct (p x); cbn [map]; [|now apply IH].
  constructor; [|now apply IH].
  intros Hin. apply Hx. apply in_map_iff in Hin as (y & Hy & Hin).
  apply filter_In in Hin as [Hin _]. apply in_map_iff. now exists y.
Qed.

Lemma well_formed_ids store :
  well_formed store -> map id (dict_values (_jobs store)) = map fst (_jobs store).
Proof.
  intros [_ Hid]. unfold dict_values. rewrite map_map.
  apply map_ext_in. intros kv Hkv. rewrite List.Forall_forall in Hid. now apply Hid.
Qed.

(** C7, counterexample.  Two queued jobs created at the same instant:
    the one stored first is the one served first, whichever of the two
    identifiers comes first in the order of identifiers. *)
Lemma queue_position_tie_by_insertion :
  text_ltb (txt "a") (txt "b") = true
  /\ created_at (queued_job (txt "a") 5) = created_at (queued_job (txt "b") 5)
  /\ get_queue_position (txt "b") tied_store = Some 1%nat
  /\ get_queue_position (txt "a") tied_store = Some 2%nat
  /\ get_queue_position (txt "a") tied_store' = Some 1%nat
  /\ get_queue_position (txt "b") tied_store' = Some 2%nat.
Proof. vm_compute. repeat split. Qed.

(** C7, as amended.  The position of a queued job is its rank, counted
    from 1, among the queued jobs in the order of their creation times,
    jobs created at the same instant being taken in the order in which
    they were stored; there is no position for a job that is not in the
    store or is not queued. *)
Theorem get_queue_position_spec (job_id : text) (store : EnhancedJobStore) :
  well_formed store ->
  get_queue_position job_id store
  = match get_job job_id store with
    | Some job =>
        match status job with
        | queued => Some (1 + ahead job (get_jobs_by_status queued store))%nat
        | rendering | ready | error => None
        end
    | None => None
    end.
Proof.
  intros Hwf. unfold get_queue_position.
  destruct (get_job job_id store) as [job|] eqn:Hget; [|reflexivity].
  destruct (status job) eqn:Hs; cbn [status_eqb negb]; try reflexivity.
  apply dict_get_In in Hget.
  assert (Hid : id job = job_id).
  { destruct Hwf as [_ Hid]. rewrite List.Forall_forall in Hid.
    now apply Hid in Hget. }
  rewrite <- Hid. apply position_in_sorted.
  - unfold get_jobs_by_status. apply NoDup_map_filter.
    rewrite well_formed_ids by exact Hwf. apply Hwf.
  - unfold get_jobs_by_status. apply filter_In. split.
    + unfold dict_values. apply in_map_iff. now exists (job_id, job).
    + now rewrite Hs.
Qed.

Lemma get_queue_position_spec_witness :
  get_queue_position (txt "a") tied_store
  = Some (1 + ahead (queued_job (txt "a") 5)
                (get_jobs_by_status queued tied_store))%nat.
Proof.
  refine (@get_queue_position_spec (txt "a") tied_store _).
  split.
  - repeat constructor; cbn; intuition discriminate.
  - repeat constructor.
Defined.

End QueuePosition.

(** ** The store stays a dictionary of jobs *)

Section WellFormed.
Import PyStr Store StoreSpec.

Lemma dict_set_keys {V} k (v : V) : forall d,
  map fst (dict_set k v d)
  = if mem k (map fst d) then map fst d else map fst d ++ [k].
Proof.
  induction d as [|[k' v'] d IH]; [reflexivity|].
  cbn [dict_set map fst mem existsb]. rewrite (text_eqb_sym k k').
  destruct (text_eqb k' k) eqn:E; cbn [orb map fst].
  - apply text_eqb_eq in E. now subst.
  - rewrite IH. unfold mem. destruct (existsb _ _); reflexivity.
Qed.

Lemma dict_set_In {V} k (v : V) kv : forall d,
  In kv (dict_set k v d) -> kv = (k, v) \/ In kv d.
Proof.
  induction d as [|[k' v'] d IH]; cbn [dict_set].
  - intros [<-|[]]. now left.
  - destruct (text_eqb k' k).
    + intros [<-|H]; [now left | right; now right].
    + intros [<-|H]; [right; now left|].
      destruct (IH H); [now left | right; now right].
Qed.

Lemma dict_set_well_formed job_id job store history :
  well_formed store -> id job = job_id ->
  well_formed {| _jobs := dict_set job_id job (_jobs store);
                 _job_history := history |}.
Proof.
  intros [Hnd Hid] Hjob. split; cbn [_jobs].
  - rewrite dict_set_keys. destruct (mem job_id (map fst (_jobs store))) eqn:E;
      [exact Hnd|].
    apply List.NoDup_app; [exact Hnd | repeat constructor; intros [] |].
    intros k Hk [<-|[]]. apply mem_In in Hk. congruence.
  - apply List.Forall_forall. intros kv Hkv.
    apply dict_set_In in Hkv as [->|Hkv]; [exact Hjob|].
    rewrite List.Forall_forall in Hid. now apply Hid.
Qed.

Lemma empty_store_well_formed : well_formed empty_store.
Proof. split; constructor. Qed.

Lemma add_job_well_formed job store :
  well_formed store -> well_formed (fst (add_job job store)).
Proof. intros H. now apply dict_set_well_formed. Qed.

Lemma setattr_keeps_id job u : keeps_id u -> id (setattr job u) = id job.
Proof. destruct u; cbn; tauto. Qed.

Lemma update_job_well_formed is_dataclass now job_id updates store :
  well_formed store -> Forall keeps_id updates ->
  well_formed (snd (fst (Store.update_job is_dataclass now job_id updates store))).
Proof.
  intros Hwf Hups. unfold Store.update_job.
  destruct (get_job job_id store) as [job|] eqn:Hget; [|exact Hwf].
  assert (Hid : id (setattr (fold_left setattr updates job) (set_updated_at now))
                = job_id).
  { cbn [setattr id].
    assert (Hjob : id job = job_id).
    { apply dict_get_In in Hget. destruct Hwf as [_ Hid].
      rewrite List.Forall_forall in Hid. now apply Hid in Hget. }
    clear Hget. revert job Hjob.
    induction Hups as [|u updates Hu _ IH]; intros job Hjob; [exact Hjob|].
    cbn [fold_left]. apply IH. now rewrite setattr_keeps_id. }
  destruct (status_eqb _ _); [now apply dict_set_well_formed|].
  destruct (is_terminal _); [|now apply dict_set_well_formed].
  destruct (_archive_job _ _ _ _); now apply dict_set_well_formed.
Qed.

Lemma cleanup_old_jobs_well_formed now max_age_hours store :
  well_formed store ->
  well_formed (snd (fst (cleanup_old_jobs now max_age_hours store))).
Proof.
  intros [Hnd Hid].
  destruct (cleanup_old_jobs_result now max_age_hours store Hnd) as (lines & Hres).
  rewrite Hres. destruct (history_cutoff now max_age_hours);
    (split; cbn [fst snd _jobs]).
  - now apply NoDup_map_filter.
  - apply List.Forall_forall. intros kv Hkv. apply filter_In in Hkv as [Hkv _].
    rewrite List.Forall_forall in Hid. now apply Hid.
  - now apply NoDup_map_filter.
  - apply List.Forall_forall. intros kv Hkv. apply filter_In in Hkv as [Hkv _].
    rewrite List.Forall_forall in Hid. now apply Hid.
Qed.

End WellFormed.

(** ** The text inputs of the lesson routes *)

Section StripFacts.
Import PyStr StrSpec.

Lemma lstrip_length s : (length (lstrip s) <= length s)%nat.
Proof.
  induction s as [|c s IH]; cbn [lstrip length]; [lia|].
  destruct (isspace c); cbn [length]; lia.
Qed.

Lemma strip_length s : (length (strip s) <= length s)%nat.
Proof.
  unfold strip, rstrip. rewrite length_rev.
  pose proof (lstrip_length (rev (lstrip s))) as H. rewrite length_rev in H.
  pose proof (lstrip_length s). lia.
Qed.

Lemma lstrip_starts_clean s : starts_clean (lstrip s).
Proof.
  induction s as [|c s IH]; cbn [lstrip]; [exact I|].
  destruct (isspace c) eqn:E; [exact IH | exact E].
Qed.

Lemma lstrip_clean s : starts_clean s -> lstrip s = s.
Proof. destruct s as [|c s]; [reflexivity|]. cbn. now intros ->. Qed.

Lemma lstrip_app_clean c : forall a b,
  isspace c = false -> lstrip (a ++ c :: b) = lstrip a ++ c :: b.
Proof.
  intros a b Hc. induction a as [|d a IH]; cbn [app lstrip].
  - now rewrite Hc.
  - destruct (isspace d); [exact IH | reflexivity].
Qed.

Lemma rstrip_app_clean c a b :
  isspace c = false -> rstrip (a ++ c :: b) = a ++ c :: rstrip b.
Proof.
  intros Hc. unfold rstrip. rewrite rev_app_distr. cbn [rev].
  rewrite <- app_assoc. cbn [app].
  rewrite lstrip_app_clean by exact Hc.
  rewrite rev_app_distr. cbn [rev]. rewrite rev_involutive, <- app_assoc.
  reflexivity.
Qed.

(** What [rstrip] leaves is a prefix that ends clean. *)
Lemma rstrip_prefix s : exists spaces, s = rstrip s ++ spaces.
Proof.
  unfold rstrip.
  assert (forall r, exists dropped, r = dropped ++ lstrip r) as H.
  { induction r as [|c r (dropped & IH)]; [now exists []|]. cbn [lstrip].
    destruct (isspace c); [|now exists []].
    exists (c :: dropped). cbn [app]. now f_equal. }
  destruct (H (rev s)) as (dropped & E). exists (rev dropped).
  rewrite <- rev_app_distr, <- E. now rewrite rev_involutive.
Qed.

Lemma rstrip_starts_clean s : starts_clean s -> starts_clean (rstrip s).
Proof.
  intros H. destruct (rstrip_prefix s) as (spaces & E).
  destruct (rstrip s) as [|c r]; [exact I|].
  rewrite E in H. exact H.
Qed.

Lemma rstrip_idem s : rstrip (rstrip s) = rstrip s.
Proof.
  unfold rstrip. rewrite rev_involutive.
  now rewrite (@lstrip_clean (lstrip (rev s))) by apply lstrip_starts_clean.
Qed.

Lemma strip_idem s : strip (strip s) = strip s.
Proof.
  unfold strip.
  rewrite (@lstrip_clean (rstrip (lstrip s)))
    by apply rstrip_starts_clean, lstrip_starts_clean.
  apply rstrip_idem.
Qed.

End StripFacts.

Section TextInputs.
Import PyStr Re ReSpec Validation ValidationSpec Inputs InputSpec.

Lemma sub_from_cls p : forall s cu,
  sub_from (Cls p) cu s 0 = List.filter (fun c => negb (p c)) s.
Proof.
  induction s as [|c s IH]; intros cu; [reflexivity|].
  cbn [sub_from List.filter]. unfold match_here. cbn [run].
  destruct (p c); cbn [negb].
  - unfold accept. cbn [pos advance].
    replace (S (pos cu) - pos cu)%nat with 1%nat by lia. apply IH.
  - f_equal. apply IH.
Qed.

Lemma sub_delete_controls s :
  sub_delete control_pattern s = without_controls s.
Proof. apply sub_from_cls. Qed.

Lemma without_controls_clean s :
  Forall (fun c => control_char c = false) (without_controls s).
Proof.
  apply List.Forall_forall. intros c Hc. apply filter_In in Hc as [_ Hc].
  now destruct (control_char c).
Qed.

Lemma without_controls_length s :
  (length (without_controls s) <= length s)%nat.
Proof.
  unfold without_controls.
  induction s as [|c s IH]; cbn [List.filter length]; [lia|].
  destruct (control_char c); cbn [negb length]; lia.
Qed.

Lemma matches_cls_inv p cu s cu' s' :
  matches (Cls p) cu s cu' s' ->
  exists c, s = c :: s' /\ p c = true /\ cu' = advance c cu.
Proof. intros H. inversion H; subst. now eexists. Qed.

Lemma matches_ilit_inv w : forall cu s cu' s',
  matches (ilit w) cu s cu' s' ->
  exists mid, s = mid ++ s' /\ lower mid = lower w /\ cu' = advance_over mid cu.
Proof.
  induction w as [|c w IH]; intros cu s cu' s' H; cbn [ilit] in H.
  - apply matches_eps_inv in H as [-> ->]. now exists [].
  - apply matches_seq_inv in H as (c1 & s1 & H1 & H).
    apply matches_cls_inv in H1 as (x & -> & Hx & ->).
    apply IH in H as (mid & -> & Hl & ->). apply Ascii.eqb_eq in Hx.
    exists (x :: mid). cbn [lower map app]. unfold lower in Hl.
    now rewrite Hx, Hl.
Qed.

Lemma matches_ilit w : forall mid cu s,
  lower mid = lower w -> matches (ilit w) cu (mid ++ s) (advance_over mid cu) s.
Proof.
  induction w as [|c w IH]; intros [|x mid] cu s H; try discriminate;
    cbn [ilit].
  - constructor.
  - injection H as Hx Hl. cbn [app].
    eapply m_seq; [|apply (IH mid (advance x cu) s Hl)].
    constructor. now apply Ascii.eqb_eq.
Qed.

Lemma ilit_search needle hay :
  lower needle = needle ->
  is_Some (search (ilit needle) hay) <-> substring_ignoring_case needle hay.
Proof.
  intros Hn. split.
  - intros [[cu' rest] H]. apply search_sound in H as (pre & tail & -> & Hm).
    apply matches_ilit_inv in Hm as (mid & -> & Hl & _).
    exists pre, mid, rest. split; [reflexivity | congruence].
  - intros (pre & mid & post & -> & Hl).
    eapply search_complete with (pre := pre). eexists. split; [reflexivity|].
    apply matches_ilit. congruence.
Qed.

Lemma lower_char_gt x : lower_char x = lower_char ">" -> x = ">"%char.
Proof.
  destruct x as [[] [] [] [] [] [] [] []]; vm_compute; congruence.
Qed.

Lemma lower_char_equals x : lower_char x = lower_char "=" -> x = "="%char.
Proof.
  destruct x as [[] [] [] [] [] [] [] []]; vm_compute; congruence.
Qed.

Lemma handler_search name hay :
  lower name = name ->
  is_Some (search (cat [ilit name; Star isspace; ichr "="]) hay)
  <-> sets_handler name hay.
Proof.
  intros Hn. split.
  - intros [[cu' rest] H]. apply search_sound in H as (pre & tail & -> & Hm).
    unfold cat in Hm. cbn [fold_right] in Hm.
    apply matches_seq_inv in Hm as (c1 & s1 & H1 & Hm).
    apply matches_seq_inv in Hm as (c2 & s2 & H2 & Hm).
    apply matches_seq_inv in Hm as (c3 & s3 & H3 & Hm).
    apply matches_eps_inv in Hm as [E1 E2]. subst c3 s3.
    apply matches_ilit_inv in H1 as (mid & -> & Hl & ->).
    apply matches_star_inv in H2 as (ws & Hws & -> & ->).
    apply matches_cls_inv in H3 as (x & -> & Hx & _).
    apply Ascii.eqb_eq, lower_char_equals in Hx as ->.
    exists pre, mid, ws, rest. split; [reflexivity|]. split; [congruence | exact Hws].
  - intros (pre & mid & ws & post & -> & Hl & Hws).
    eapply search_complete with (pre := pre). eexists. split; [reflexivity|].
    unfold cat. cbn [fold_right].
    eapply m_seq; [apply matches_ilit; congruence|].
    eapply m_seq; [now apply matches_star|].
    eapply m_seq; [|constructor].
    cbn [app txt list_ascii_of_string]. constructor. reflexivity.
Qed.

Lemma script_search hay :
  is_Some (search (cat [ilit (txt "<script");
                        Star (fun c => negb (Ascii.eqb c ">")); ichr ">"]) hay)
  <-> has_script_tag hay.
Proof.
  split.
  - intros [[cu' rest] H]. apply search_sound in H as (pre & tail & -> & Hm).
    unfold cat in Hm. cbn [fold_right] in Hm.
    apply matches_seq_inv in Hm as (c1 & s1 & H1 & Hm).
    apply matches_seq_inv in Hm as (c2 & s2 & H2 & Hm).
    apply matches_seq_inv in Hm as (c3 & s3 & H3 & Hm).
    apply matches_eps_inv in Hm as [E1 E2]. subst c3 s3.
    apply matches_ilit_inv in H1 as (mid & -> & Hl & ->).
    apply matches_star_inv in H2 as (ws & Hws & -> & ->).
    apply matches_cls_inv in H3 as (x & -> & Hx & _).
    apply Ascii.eqb_eq, lower_char_gt in Hx as ->.
    exists pre, mid, ws, rest. split; [reflexivity|]. split; [exact Hl | exact Hws].
  - intros (pre & mid & ws & post & -> & Hl & Hws).
    eapply search_complete with (pre := pre). eexists. split; [reflexivity|].
    unfold cat. cbn [fold_right].
    eapply m_seq; [apply matches_ilit; exact Hl|].
    eapply m_seq; [now apply matches_star|].
    eapply m_seq; [|constructor].
    cbn [app txt list_ascii_of_string]. constructor. reflexivity.
Qed.

Lemma suspicious_patterns_spec topic :
  existsb (fun pattern => bool_decide (is_Some (search pattern topic)))
    suspicious_patterns = true
  <-> suspicious topic.
Proof.
  unfold suspicious_patterns, suspicious. cbn [existsb].
  rewrite !orb_true_iff, !bool_decide_eq_true.
  rewrite script_search, !ilit_search, !handler_search by reflexivity.
  intuition discriminate.
Qed.

Lemma cls_search p s :
  is_Some (search (Cls p) s) <-> exists c, In c s /\ p c = true.
Proof.
  split.
  - intros [[cu' rest] H]. apply search_sound in H as (pre & tail & -> & Hm).
    apply matches_cls_inv in Hm as (c & -> & Hc & _).
    exists c. split; [|exact Hc]. apply in_app_iff. right. now left.
  - intros (c & Hin & Hc). apply in_split in Hin as (l1 & l2 & ->).
    eapply search_complete with (pre := l1). eexists. split; [reflexivity|].
    now constructor.
Qed.

(** X1.  [validate_topic] accepts a topic exactly when it is not empty,
    its stripped text has between 3 and 120 characters, and that text with
    its control characters taken out matches none of the six patterns for
    unsafe content and holds an ASCII letter or digit; what it returns is
    that text.  So an accepted topic holds no control character and has
    between 1 and 120 characters (the lower bound of 3 is checked before
    the control characters are taken out). *)
Theorem validate_topic_spec (topic out : text) :
  let stripped := strip topic in
  let cleaned := without_controls stripped in
  (validate_topic topic = Return out <->
     out = cleaned /\ topic <> [] /\ (3 <= len stripped <= 120)%Z
     /\ ~ suspicious cleaned
     /\ (exists c, In c cleaned /\ alnum_char c = true))
  /\ (validate_topic topic = Return out ->
      Forall (fun c => control_char c = false) out
      /\ (1 <= len out <= 120)%Z).
Proof.
  intros stripped cleaned.
  assert (validate_topic topic = Return out <->
     out = cleaned /\ topic <> [] /\ (3 <= len stripped <= 120)%Z
     /\ ~ suspicious cleaned
     /\ (exists c, In c cleaned /\ alnum_char c = true)) as Hiff.
  { unfold validate_topic. fold stripped.
    rewrite sub_delete_controls. fold cleaned.
    pose proof (suspicious_patterns_spec cleaned) as Hs.
    pose proof (cls_search alnum_char cleaned) as Ha.
    destruct topic as [|c0 topic0] eqn:Et; cbn [is_empty].
    { split; [discriminate | intros (_ & H & _); congruence]. }
    rewrite <- Et in *.
    destruct (Z.ltb_spec (len stripped) 3);
      [split; [discriminate | intros (_ & _ & H' & _); lia]|].
    destruct (Z.ltb_spec 120 (len stripped));
      [split; [discriminate | intros (_ & _ & H' & _); lia]|].
    destruct (existsb _ suspicious_patterns).
    { split; [discriminate | intros (_ & _ & _ & H' & _)].
      exfalso. apply H'. now apply Hs. }
    destruct (bool_decide (is_Some (search (Cls alnum_char) cleaned))) eqn:Eb;
      cbn [negb].
    - apply bool_decide_eq_true in Eb. split.
      + intros [= <-]. split; [reflexivity|]. split; [congruence|].
        split; [lia|]. split; [|now apply Ha].
        intros H'. apply Hs in H'. discriminate.
      + now intros (-> & _).
    - apply bool_decide_eq_false in Eb.
      split; [discriminate | intros (_ & _ & _ & _ & H')].
      exfalso. apply Eb. now apply Ha. }
  split; [exact Hiff|].
  intros H. apply Hiff in H as (-> & _ & Hlen & _ & (c & Hc & _)).
  split; [apply without_controls_clean|].
  pose proof (without_controls_length stripped) as Hle. fold cleaned in Hle.
  assert (1 <= length cleaned)%nat as H1
    by (clearbody cleaned; destruct cleaned; [destruct Hc | cbn [length]; lia]).
  unfold len in *. lia.
Qed.

(** X2.  [validate_plan] refuses a plan only when its stripped text has
    more than 500 characters, so a plan of at most 500 characters is
    always accepted; what it returns is the stripped text with its
    control characters taken out, which holds no control character and
    has at most 500 characters; no plan gives the empty text. *)
Theorem validate_plan_spec (plan : option text) :
  let given := default [] plan in
  (raises (validate_plan plan) <-> (500 < len (strip given))%Z)
  /\ (forall out, validate_plan plan = Return out ->
        out = without_controls (strip given)
        /\ Forall (fun c => control_char c = false) out
        /\ (len out <= 500)%Z)
  /\ ((len given <= 500)%Z -> exists out, validate_plan plan = Return out).
Proof.
  intros given.
  assert (validate_plan plan =
          if (500 <? len (strip given))%Z then Raise PlanTooLong
          else Return (without_controls (strip given))) as E.
  { unfold validate_plan, given.
    destruct plan as [[|c p]|]; cbn [default]; try reflexivity.
    now rewrite sub_delete_controls. }
  rewrite E. pose proof (strip_length given) as Hs.
  pose proof (without_controls_length (strip given)) as Hw. unfold len in *.
  destruct (Z.ltb_spec 500 (Z.of_nat (length (strip given)))); cbn [raises].
  - split; [tauto|]. split; [discriminate | lia].
  - split; [split; [tauto | lia]|]. split; [|now eexists].
    intros out [= <-]. split; [reflexivity|].
    split; [apply without_controls_clean | lia].
Qed.

End TextInputs.

(** ** More on file names *)

Section FilenameFacts.
Import PyStr Re ReSpec Validation StrSpec.

(** A repetition takes all it can when what follows accepts that. *)
Lemma star_greedy {A} p (k : cursor -> text -> option A) a : forall w cu,
  all p w -> k (advance_over w cu) [] = Some a -> star p cu w k = Some a.
Proof.
  induction w as [|c w IH]; intros cu Hw Hk; cbn [star]; [exact Hk|].
  unfold all in Hw. cbn [forallb] in Hw. apply andb_true_iff in Hw as [Hc Hw].
  rewrite Hc. now rewrite (IH (advance c cu) Hw Hk).
Qed.

Lemma sub_from_skip r : forall s cu n,
  (length s <= n)%nat -> sub_from r cu s n = [].
Proof.
  induction s as [|c s IH]; intros cu n Hn; [reflexivity|].
  cbn [length] in Hn. destruct n as [|n]; [lia|].
  cbn [sub_from]. apply IH. lia.
Qed.

Lemma free_of_all c s :
  free_of c s <-> all (fun x => negb (Ascii.eqb x c)) s.
Proof. reflexivity. Qed.

Lemma free_of_app c a b : free_of c (a ++ b) <-> free_of c a /\ free_of c b.
Proof. unfold free_of. now rewrite forallb_app, andb_true_iff. Qed.

Lemma free_of_cons c x s :
  free_of c (x :: s) <-> x <> c /\ free_of c s.
Proof.
  unfold free_of. cbn [forallb]. rewrite andb_true_iff, negb_true_iff.
  now rewrite Ascii.eqb_neq.
Qed.

(** A text has no dot, or it has a last one. *)
Lemma last_dot : forall s,
  free_of "." s \/ exists a b, s = a ++ "."%char :: b /\ free_of "." b.
Proof.
  induction s as [|c s [IH|(a & b & -> & Hb)]].
  - now left.
  - destruct (Ascii.eqb_spec c ".") as [->|Hc].
    + right. now exists [], s.
    + left. now apply free_of_cons.
  - right. now exists (c :: a), b.
Qed.

(** The pattern of extensions matches at a dot after which there is no
    other, and takes all that follows. *)
Lemma extension_at_last_dot cu b :
  free_of "." b ->
  match_here extension_pattern cu ("."%char :: b)
  = Some (advance_over b (advance "." cu), []).
Proof.
  intros Hb. unfold match_here, extension_pattern, cat. cbn [fold_right run chr].
  cbn [Ascii.eqb Bool.eqb andb]. cbv beta iota.
  apply star_greedy; [exact Hb | reflexivity].
Qed.

Lemma extension_not_before cu c s :
  (exists a b, s = a ++ "."%char :: b) ->
  match_here extension_pattern cu (c :: s) = None.
Proof.
  intros (a & b & ->).
  destruct (match_here extension_pattern cu (c :: a ++ "."%char :: b))
    as [[cu' s']|] eqn:E; [exfalso | reflexivity].
  apply match_here_sound in E.
  unfold extension_pattern, cat in E. cbn [fold_right] in E.
  apply matches_seq_inv in E as (c1 & s1 & H1 & E).
  apply matches_seq_inv in E as (c2 & s2 & H2 & E).
  apply matches_seq_inv in E as (c3 & s3 & H3 & E).
  apply matches_eps_inv in E as [E1 E2]. subst c3 s3.
  apply matches_chr_inv in H1 as [[= -> <-] ->].
  apply matches_star_inv in H2 as (w & Hw & Hs & ->).
  inversion H3 as [| | | | | | | | |cu0 s0 Heol]; subst.
  assert (In "."%char (w ++ s')) as Hin
    by (rewrite <- Hs; apply in_app_iff; right; now left).
  apply in_app_iff in Hin as [Hin|Hin].
  - unfold all in Hw. rewrite forallb_forall in Hw. apply Hw in Hin.
    discriminate.
  - destruct s' as [|x [|y s'']]; cbn [at_eol] in Heol; try discriminate.
    + destruct Hin.
    + apply Ascii.eqb_eq in Heol as ->. destruct Hin as [Hin|[]]. discriminate.
Qed.

Lemma extension_not_here cu c s :
  c <> "."%char -> match_here extension_pattern cu (c :: s) = None.
Proof.
  intros Hc. unfold match_here, extension_pattern, cat. cbn [fold_right run chr].
  destruct (Ascii.eqb_spec "." c) as [E|_]; [congruence | reflexivity].
Qed.

(** [re.sub(r'\.[^.]*$', '', s)] cuts [s] at its last dot. *)
Lemma sub_delete_extension b : forall a cu,
  free_of "." b -> sub_from extension_pattern cu (a ++ "."%char :: b) 0 = a.
Proof.
  intros a cu Hb. revert cu. induction a as [|c a IH]; intros cu.
  - cbn [app sub_from]. rewrite extension_at_last_dot by exact Hb.
    rewrite pos_advance_over. cbn [pos advance].
    replace (S (pos cu) + length b - pos cu)%nat with (S (length b)) by lia.
    apply sub_from_skip. lia.
  - cbn [app sub_from].
    rewrite extension_not_before by (now exists a, b).
    f_equal. apply IH.
Qed.

Lemma sub_delete_no_dot : forall s cu,
  free_of "." s -> sub_from extension_pattern cu s 0 = s.
Proof.
  induction s as [|c s IH]; intros cu Hs; [reflexivity|].
  apply free_of_cons in Hs as [Hc Hs]. cbn [sub_from].
  rewrite extension_not_here by exact Hc. f_equal. now apply IH.
Qed.

Lemma safe_char_clean c :
  safe_char c = true -> isspace c = false /\ c <> "."%char /\ c <> newline.
Proof.
  destruct c as [[] [] [] [] [] [] [] []]; vm_compute; intuition congruence.
Qed.

Lemma safe_text_free c s :
  safe_char c = false -> all safe_char s -> free_of c s.
Proof.
  intros Hc Hs. unfold all, free_of in *. rewrite forallb_forall in *.
  intros x Hx. apply negb_true_iff, Ascii.eqb_neq. intros ->.
  apply Hs in Hx. congruence.
Qed.

Lemma safe_text_strip s : all safe_char s -> strip s = s.
Proof.
  intros Hs. unfold strip, rstrip.
  assert (forall t, all safe_char t -> starts_clean t) as Hclean.
  { intros [|c t] Ht; [exact I|]. unfold all in Ht. cbn [forallb] in Ht.
    apply andb_true_iff in Ht as [Hc _]. now apply safe_char_clean in Hc. }
  rewrite (@lstrip_clean s) by now apply Hclean.
  rewrite lstrip_clean; [apply rev_involutive|].
  apply Hclean. unfold all in *. rewrite forallb_forall in *.
  intros x Hx. apply Hs. now apply in_rev.
Qed.

Lemma safe_name_matches s :
  s <> [] -> all safe_char s -> is_Some (rmatch safe_name_pattern s).
Proof.
  intros Hne Hs. unfold rmatch.
  apply match_here_complete with (cu' := advance_over s origin) (s' := []).
  unfold safe_name_pattern, cat. cbn [fold_right].
  assert (matches (plus safe_char) origin (s ++ []) (advance_over s origin) [])
    as Hp by now apply matches_plus.
  rewrite app_nil_r in Hp.
  eapply m_seq; [apply m_bol; reflexivity|].
  eapply m_seq; [exact Hp|].
  eapply m_seq; [apply m_eol; reflexivity | apply m_eps].
Qed.

Lemma unsafe_name_no_match s c :
  In c s -> safe_char c = false -> c <> newline ->
  rmatch safe_name_pattern s = None.
Proof.
  intros Hin Hc Hnl.
  destruct (rmatch safe_name_pattern s) as [[cu' s']|] eqn:E; [|reflexivity].
  exfalso. apply safe_name_pattern_inv in E as (stem & -> & _ & Hstem & Htail).
  apply in_app_iff in Hin as [Hin|Hin].
  - unfold all in Hstem. rewrite forallb_forall in Hstem. apply Hstem in Hin.
    congruence.
  - destruct Htail as [-> | ->]; [destruct Hin|].
    destruct Hin as [<-|[]]. congruence.
Qed.

Lemma reserved_names_short r :
  In r reserved_names ->
  (1 <= length r <= 4)%nat /\ forallb Inputs.alnum_char r = true.
Proof.
  unfold reserved_names. cbn [map In].
  intros H. repeat (destruct H as [<-|H]; [split; [cbn; lia | reflexivity]|]).
  destruct H.
Qed.

Lemma lower_alnum_safe c :
  Inputs.alnum_char (lower_char c) = true -> safe_char c = true.
Proof.
  destruct c as [[] [] [] [] [] [] [] []]; vm_compute; congruence.
Qed.

Lemma reserved_stem stem :
  mem (lower stem) reserved_names = true ->
  stem <> [] /\ all safe_char stem /\ (length stem <= 4)%nat.
Proof.
  intros H. apply mem_In, reserved_names_short in H as [Hlen Hr].
  unfold lower in *. rewrite length_map in Hlen.
  split; [destruct stem; [cbn in Hlen; lia | discriminate]|].
  split; [|lia].
  unfold all. rewrite forallb_forall in *. intros c Hc.
  apply lower_alnum_safe, Hr. now apply in_map.
Qed.

(** What [validate_filename] does with a text made of safe characters. *)
Lemma validate_filename_safe name :
  name <> [] -> all safe_char name ->
  validate_filename name =
    if (50 <? len name)%Z then Raise FilenameTooLong else
    if mem (lower name) reserved_names then Raise (FilenameReserved name) else
    if startswith (txt "-") name || startswith (txt "_") name
    then Return (txt "file_" ++ name) else Return name.
Proof.
  intros Hne Hs. unfold validate_filename.
  destruct name as [|c name]; [congruence|]. cbn [is_empty].
  rewrite safe_text_strip by exact Hs. unfold sub_delete.
  rewrite sub_delete_no_dot by (now apply safe_text_free).
  replace (len (c :: name) <? 1)%Z with false
    by (symmetry; apply Z.ltb_ge; unfold len; cbn [length]; lia).
  destruct (50 <? len (c :: name))%Z; [reflexivity|].
  rewrite bool_decide_eq_true_2 by (now apply safe_name_matches).
  reflexivity.
Qed.

Lemma returned_name_chars filename name :
  validate_filename filename = Return name ->
  forall c, In c name -> safe_char c = true \/ c = newline.
Proof.
  intros H.
  apply validate_filename_returns in H
    as ((stem & tail & -> & Hne & Hstem & Htail) & _).
  intros c Hc. apply in_app_iff in Hc as [Hc|Hc].
  - left. unfold all in Hstem. rewrite forallb_forall in Hstem. now apply Hstem.
  - right. destruct Htail as [-> | ->]; [destruct Hc|].
    now destruct Hc as [<-|[]].
Qed.

Lemma returned_name_free filename name c :
  validate_filename filename = Return name ->
  safe_char c = false -> c <> newline -> free_of c name.
Proof.
  intros H Hc Hnl. unfold free_of. rewrite forallb_forall. intros x Hx.
  apply negb_true_iff, Ascii.eqb_neq. intros ->.
  destruct (returned_name_chars filename H c Hx); congruence.
Qed.

(** X3.  A name [validate_filename] returns has between 1 and 55
    characters, each of them a letter, a digit, an underscore or a hyphen
    (a newline apart, which may end it); it holds no dot, slash or
    backslash, and does not begin with a hyphen or an underscore. *)
Theorem validate_filename_output (filename name : text) :
  validate_filename filename = Return name ->
  (1 <= length name <= 55)%nat
  /\ (forall c, In c name -> safe_char c = true \/ c = newline)
  /\ free_of "." name /\ free_of "/" name /\ free_of "\" name
  /\ startswith (txt "-") name = false
  /\ startswith (txt "_") name = false.
Proof.
  intros H.
  pose proof (returned_name_chars filename H) as Hin.
  pose proof (fun c => @returned_name_free filename name c H) as Hfree.
  apply validate_filename_returns in H
    as ((stem & tail & -> & Hne & Hstem & Htail) & Hh & Hu & Hlen).
  split.
  { split; [|exact Hlen]. rewrite length_app.
    destruct stem; [congruence | cbn [length]; lia]. }
  split; [exact Hin|].
  split; [now apply Hfree|]. split; [now apply Hfree|].
  split; [now apply Hfree|]. now split.
Qed.

Lemma validate_filename_output_witness :
  (1 <= length (txt "file__intro") <= 55)%nat
  /\ (forall c, In c (txt "file__intro") -> safe_char c = true \/ c = newline)
  /\ free_of "." (txt "file__intro") /\ free_of "/" (txt "file__intro")
  /\ free_of "\" (txt "file__intro")
  /\ startswith (txt "-") (txt "file__intro") = false
  /\ startswith (txt "_") (txt "file__intro") = false.
Proof.
  apply (@validate_filename_output (txt " _intro.py") (txt "file__intro")).
  vm_compute. reflexivity.
Defined.

(** X4.  Validation is idempotent on the names it returns that have at
    most 50 characters and no newline: validating such a name again gives
    it back.  (A name of 46 to 50 characters that got the prefix [file_]
    is too long for a second pass.) *)
Theorem validate_filename_idempotent (filename name : text) :
  validate_filename filename = Return name ->
  (length name <= 50)%nat ->
  free_of newline name ->
  validate_filename name = Return name.
Proof.
  intros H Hlen Hnl. unfold validate_filename in H.
  destruct (is_empty filename); [discriminate|].
  set (core := sub_delete extension_pattern (strip filename)) in H.
  destruct (len core <? 1)%Z; [discriminate|].
  destruct (50 <? len core)%Z eqn:Hcore; [discriminate|].
  destruct (rmatch safe_name_pattern core) as [[cu' s']|] eqn:Hm;
    [|rewrite bool_decide_eq_false_2 in H; [discriminate | now intros [x Hx]]].
  rewrite bool_decide_eq_true_2 in H by (now eexists). cbn [negb] in H.
  destruct (mem (lower core) reserved_names) eqn:Hres; [discriminate|].
  apply safe_name_pattern_inv in Hm as (stem & Hs & Hne & Hstem & Htail).
  assert (In newline core -> In newline name) as Hin.
  { destruct (startswith (txt "-") core || startswith (txt "_") core);
      injection H as <-; [|trivial].
    intros Hin. do 5 right. exact Hin. }
  assert (core = stem) as Ecore.
  { destruct Htail as [-> | ->]; [now rewrite app_nil_r in Hs|].
    exfalso. unfold free_of in Hnl. rewrite forallb_forall in Hnl.
    specialize (Hnl newline). rewrite Ascii.eqb_refl in Hnl.
    assert (negb true = true) by
      (apply Hnl, Hin; rewrite Hs; apply in_app_iff; right; now left).
    discriminate. }
  clearbody core. clear Hs Htail Hin. subst core.
  destruct (startswith (txt "-") stem || startswith (txt "_") stem) eqn:Hp;
    injection H as <-.
  - assert (forall name, name = txt "file_" ++ stem -> (length name <= 50)%nat ->
                         validate_filename name = Return name) as Hname.
    { intros name -> Hl. rewrite validate_filename_safe; [|discriminate|].
      - replace (50 <? len (txt "file_" ++ stem))%Z with false
          by (symmetry; apply Z.ltb_ge; unfold len; lia).
        destruct (mem (lower (txt "file_" ++ stem)) reserved_names) eqn:Hr.
        + apply mem_In, reserved_names_short in Hr as [Hr _].
          unfold lower in Hr. rewrite length_map in Hr. cbn in Hr. lia.
        + reflexivity.
      - unfold all. rewrite forallb_app. now rewrite Hstem. }
    apply Hname; [reflexivity | exact Hlen].
  - rewrite validate_filename_safe by assumption.
    now rewrite Hcore, Hres, Hp.
Qed.

Lemma validate_filename_idempotent_witness :
  validate_filename (txt "file__intro") = Return (txt "file__intro").
Proof.
  apply (@validate_filename_idempotent (txt " _intro.py") (txt "file__intro"));
    vm_compute; first [reflexivity | lia].
Defined.

(** X5.  A name that Windows reserves for a device ([con], [nul], [com1],
    ...) is refused in any letter case, bare or with any extension. *)
Theorem validate_filename_rejects_reserved (stem ext : text) :
  mem (lower stem) reserved_names = true ->
  raises (validate_filename stem)
  /\ raises (validate_filename (stem ++ txt "." ++ ext)).
Proof.
  intros Hres. destruct (reserved_stem stem Hres) as (Hne & Hs & Hlen).
  assert (raises (validate_filename stem)) as Hbare.
  { rewrite validate_filename_safe by assumption.
    destruct (50 <? len stem)%Z; [exact I|]. now rewrite Hres. }
  split; [exact Hbare|].
  assert (starts_clean (stem ++ txt "." ++ ext)) as Hclean.
  { destruct stem as [|c stem]; [congruence|]. unfold all in Hs.
    cbn [forallb] in Hs. apply andb_true_iff in Hs as [Hc _].
    now apply safe_char_clean in Hc. }
  unfold validate_filename.
  replace (is_empty (stem ++ txt "." ++ ext)) with false
    by (destruct stem; [congruence | reflexivity]).
  unfold strip. rewrite (@lstrip_clean (stem ++ txt "." ++ ext)) by exact Hclean.
  cbn [txt list_ascii_of_string app].
  rewrite rstrip_app_clean by reflexivity.
  unfold sub_delete.
  destruct (last_dot (rstrip ext)) as [Hfree|(e1 & e2 & -> & Hfree)].
  - rewrite sub_delete_extension by exact Hfree.
    revert Hbare. rewrite validate_filename_safe by assumption.
    unfold validate_filename.
    replace (len stem <? 1)%Z with false
      by (symmetry; apply Z.ltb_ge; unfold len; destruct stem;
          [congruence | cbn [length]; lia]).
    destruct (50 <? len stem)%Z; [trivial|].
    rewrite bool_decide_eq_true_2 by (now apply safe_name_matches).
    cbn [negb]. now rewrite Hres.
  - change (stem ++ "."%char :: e1 ++ "."%char :: e2)
      with (stem ++ ("."%char :: e1) ++ "."%char :: e2).
    rewrite app_assoc, sub_delete_extension by exact Hfree.
    destruct (len _ <? 1)%Z; [exact I|].
    destruct (50 <? len _)%Z; [exact I|].
    rewrite (@unsafe_name_no_match (stem ++ "."%char :: e1) "."%char);
      [| apply in_app_iff; right; now left | reflexivity | discriminate].
    rewrite bool_decide_eq_false_2 by (now intros [x Hx]). exact I.
Qed.

Lemma validate_filename_rejects_reserved_witness :
  raises (validate_filename (txt "CON"))
  /\ raises (validate_filename (txt "CON" ++ txt "." ++ txt "txt")).
Proof.
  apply (@validate_filename_rejects_reserved (txt "CON") (txt "txt")).
  vm_compute. reflexivity.
Defined.

End FilenameFacts.

(** ** More on the code scanner *)

Section CodeScannerFacts.
Import PyStr Re ReSpec Validation ValidationSpec Samples.

(** A needle that begins and ends with something other than white space
    is still there, lowercased, after the code is stripped and
    lowercased. *)
Lemma needle_survives needle code first last :
  hd_error needle = Some first -> isspace first = false ->
  hd_error (rev needle) = Some last -> isspace last = false ->
  substring_ignoring_case needle code ->
  code <> [] /\ substring needle (lower (strip code)).
Proof.
  intros Hf Hfs Hl Hls (pre & mid & post & -> & Hmid).
  assert (forall c x, lower_char c = x -> isspace x = false -> isspace c = false)
    as Hclean.
  { intros c x Hc Hx. destruct (isspace c) eqn:E; [|reflexivity].
    rewrite (lower_char_space _ E) in Hc. congruence. }
  destruct mid as [|c mid]; [subst needle; discriminate|].
  split; [destruct pre; discriminate|].
  assert (exists l, hd_error (rev (c :: mid)) = Some l /\ lower_char l = last)
    as (l & Hl' & Hll).
  { subst needle. unfold lower in Hl. rewrite <- map_rev in Hl.
    destruct (rev (c :: mid)) as [|l r]; [discriminate|].
    exists l. split; [reflexivity|]. now injection Hl. }
  subst needle. injection Hf as Hf.
  destruct (@strip_keeps pre (c :: mid) post c l eq_refl) as (a & b & ->);
    [now apply (Hclean c first) | exact Hl' | now apply (Hclean l last) |].
  exists (lower a), (lower b). now rewrite !lower_app.
Qed.

Lemma denylisted_needle_survives needle code :
  In needle (DANGEROUS_KEYWORDS ++ network_patterns) ->
  substring_ignoring_case needle code ->
  code <> [] /\ substring needle (lower (strip code)).
Proof.
  unfold DANGEROUS_KEYWORDS, network_patterns. cbn [map app In].
  intros H.
  repeat (destruct H as [<-|H];
          [eapply needle_survives; reflexivity|]).
  destruct H.
Qed.

(** X6.  Code in which one of the denylisted function names with its
    opening parenthesis, or the name of one of the network libraries,
    occurs in any letter case and at any place (in a comment or a string
    as well) is rejected. *)
Theorem validate_code_rejects_denylisted (needle code : text) :
  In needle (DANGEROUS_KEYWORDS ++ network_patterns) ->
  substring_ignoring_case needle code ->
  raises (validate_code code).
Proof.
  intros Hin H.
  destruct (@denylisted_needle_survives needle code Hin H) as [Hne Hsub].
  unfold validate_code.
  destruct code as [|c code]; [congruence|]. cbn [is_empty].
  set (stripped := strip (c :: code)) in *.
  destruct (len stripped <? 10)%Z; [exact I|].
  destruct (5000 <? len stripped)%Z; [exact I|].
  destruct (dangerous_import _); [exact I|].
  apply in_app_iff in Hin as [Hin|Hin].
  - replace (existsb _ DANGEROUS_KEYWORDS) with true; [exact I|].
    symmetry. apply contains_any_spec. now exists needle.
  - destruct (existsb _ DANGEROUS_KEYWORDS); [exact I|].
    destruct (existsb _ file_patterns); [exact I|].
    replace (existsb _ network_patterns) with true; [exact I|].
    symmetry. apply contains_any_spec. now exists needle.
Qed.

Lemma validate_code_rejects_denylisted_witness :
  raises (validate_code (txt "from manim import *
class Demo(Scene):
    def construct(self):
        # GetAttr(self, name) would do
        self.add(Text('Demo'))")).
Proof.
  apply (@validate_code_rejects_denylisted (txt "getattr(")).
  - vm_compute. tauto.
  - exists (txt "from manim import *
class Demo(Scene):
    def construct(self):
        # "), (txt "GetAttr("), (txt "self, name) would do
        self.add(Text('Demo'))").
    split; reflexivity.
Defined.

Lemma validate_code_strip code :
  strip code <> [] -> validate_code (strip code) = validate_code code.
Proof.
  intros Hs. unfold validate_code.
  destruct code as [|c code]; [now destruct Hs|]. cbn [is_empty].
  rewrite strip_idem.
  destruct (strip (c :: code)); [congruence | reflexivity].
Qed.

(** X7.  The code [validate_code] returns is stripped, and validating it
    again returns it unchanged. *)
Theorem validate_code_idempotent (code out : text) :
  validate_code code = Return out ->
  strip out = out /\ validate_code out = Return out.
Proof.
  intros H. pose proof (validate_code_cases code) as Hc. cbv zeta in Hc.
  rewrite H in Hc. destruct Hc as (-> & _ & Hlen & _).
  split; [apply strip_idem|].
  rewrite validate_code_strip; [exact H|].
  intros E. rewrite E in Hlen. unfold len in Hlen. cbn in Hlen. lia.
Qed.

Lemma validate_code_idempotent_witness :
  strip demo_scene = demo_scene /\ validate_code demo_scene = Return demo_scene.
Proof.
  apply (@validate_code_idempotent padded_scene demo_scene).
  vm_compute. reflexivity.
Defined.

End CodeScannerFacts.

(** ** The sweep and the middleware *)

Section LimiterFacts.
Import PyStr Validation RateSpec Middleware LimiterSpec.
Open Scope Z_scope.

Lemma popleft_while_twice (old1 old2 : Z -> bool) :
  (forall t, old1 t = true -> old2 t = true) ->
  forall times,
    popleft_while old2 (popleft_while old1 times) = popleft_while old2 times.
Proof.
  intros Hold. induction times as [|t rest IH]; [reflexivity|].
  cbn [popleft_while]. destruct (old1 t) eqn:E1.
  - now rewrite (Hold t E1).
  - reflexivity.
Qed.

Lemma popleft_while_length old times :
  (length (popleft_while old times) <= length times)%nat.
Proof.
  destruct (popleft_while_suffix old times) as (dropped & E).
  rewrite E at 2. rewrite length_app. lia.
Qed.

(** What a call answers and records for its key depends on what is
    recorded for that key only. *)
Lemma check_rate_limit_at_key (now : Z) (client_ip endpoint : text)
    (limit window : Z) (storage : gmap text (list Z)) :
  let key := rate_key client_ip endpoint in
  let times :=
    popleft_while (fun t => t <? now - window * 60) (recorded storage key) in
  let result := check_rate_limit now client_ip endpoint limit window storage in
  fst result = negb (limit <=? Z.of_nat (length times))
  /\ recorded (snd result) key = times ++ (if fst result then [now] else []).
Proof.
  intros key times result. subst result.
  rewrite check_rate_limit_unfold. cbv zeta. fold key. fold times.
  destruct (limit <=? Z.of_nat (length times)); cbn [fst snd negb];
    rewrite recorded_insert; [now rewrite app_nil_r | tauto].
Qed.

Lemma serve_same_key (times : list Z) (client_ip endpoint : text)
    (limit window : Z) :
  forall storage storage' : gmap text (list Z),
    recorded storage (rate_key client_ip endpoint)
    = recorded storage' (rate_key client_ip endpoint) ->
    serve times client_ip endpoint limit window storage
    = serve times client_ip endpoint limit window storage'.
Proof.
  induction times as [|t later IH]; intros storage storage' E; [reflexivity|].
  cbn [serve].
  pose proof (check_rate_limit_at_key t client_ip endpoint limit window storage)
    as [H1 H2].
  pose proof (check_rate_limit_at_key t client_ip endpoint limit window storage')
    as [H1' H2'].
  cbv zeta in *. rewrite <- E in H1', H2'.
  destruct (check_rate_limit t client_ip endpoint limit window storage)
    as [allowed s1].
  destruct (check_rate_limit t client_ip endpoint limit window storage')
    as [allowed' s1'].
  cbn [fst snd] in *. rewrite H1, H1'. f_equal.
  apply IH. rewrite H2, H2', H1, H1'. reflexivity.
Qed.

(** Old timestamps popped off a deque beforehand make no difference to
    the calls that would pop them anyway. *)
Lemma serve_popped (times : list Z) (client_ip endpoint : text)
    (limit window : Z) (cutoff : Z) (storage storage' : gmap text (list Z)) :
  recorded storage' (rate_key client_ip endpoint)
  = popleft_while (fun t => t <? cutoff)
      (recorded storage (rate_key client_ip endpoint)) ->
  Forall (fun t => cutoff <= t - window * 60) times ->
  serve times client_ip endpoint limit window storage'
  = serve times client_ip endpoint limit window storage.
Proof.
  intros Hpopped Htimes.
  destruct times as [|t later]; [reflexivity|].
  apply List.Forall_cons_iff in Htimes as [Ht _].
  cbn [serve].
  pose proof (check_rate_limit_at_key t client_ip endpoint limit window storage)
    as [H1 H2].
  pose proof (check_rate_limit_at_key t client_ip endpoint limit window storage')
    as [H1' H2'].
  cbv zeta in *. rewrite Hpopped in H1', H2'.
  rewrite popleft_while_twice in H1', H2'
    by (intros x Hx; apply Z.ltb_lt in Hx; apply Z.ltb_lt; lia).
  destruct (check_rate_limit t client_ip endpoint limit window storage)
    as [allowed s1].
  destruct (check_rate_limit t client_ip endpoint limit window storage')
    as [allowed' s1'].
  cbn [fst snd] in *. rewrite H1, H1'. f_equal.
  apply serve_same_key. rewrite H2, H2', H1, H1'. reflexivity.
Qed.

(** X8.  The sweep does not change what the limiter answers: when the
    sweep keeps the timestamps at least as long as the window lasts, the
    requests a client makes to an endpoint after the sweep are answered as
    they would have been without it. *)
Theorem sweep_keeps_verdicts (swept_at max_age_hours : Z) (times : list Z)
    (client_ip endpoint : text) (limit window_minutes : Z)
    (storage : gmap text (list Z)) :
  window_minutes * 60 <= max_age_hours * 3600 ->
  Forall (fun t => swept_at <= t) times ->
  serve times client_ip endpoint limit window_minutes
    (clean_rate_limit_storage swept_at max_age_hours storage)
  = serve times client_ip endpoint limit window_minutes storage.
Proof.
  intros Hage Htimes.
  apply serve_popped with (cutoff := swept_at - max_age_hours * 3600).
  - apply recorded_sweep.
  - eapply List.Forall_impl; [|exact Htimes]. intros t Ht. cbv beta in *. lia.
Qed.

Lemma sweep_keeps_verdicts_witness :
  let ip := txt "203.0.113.7" in
  let endpoint := txt "/api/render" in
  let storage := snd (check_rate_limit 3000 ip endpoint 2 10 ∅) in
  serve [3600; 3601; 4201] ip endpoint 2 10
    (clean_rate_limit_storage 3600 24 storage)
  = serve [3600; 3601; 4201] ip endpoint 2 10 storage.
Proof.
  intros ip endpoint storage.
  apply (@sweep_keeps_verdicts 3600 24 [3600; 3601; 4201] ip endpoint 2 10 storage).
  - lia.
  - repeat constructor; lia.
Defined.

Lemma limit_of_bounds endpoint :
  2 <= fst (limit_of endpoint) <= 10 /\ 5 <= snd (limit_of endpoint) <= 10.
Proof.
  unfold limit_of, limits, Store.dict_get. cbn [find fst snd].
  repeat (destruct (text_eqb _ endpoint); [cbn; lia|]). cbn. lia.
Qed.

Lemma rate_limit_middleware_unfold (now : Z) (request : Request)
    (storage : gmap text (list Z)) :
  rate_limit_middleware now request storage =
    if negb (startswith (txt "/api/") (path request)) then (CallNext, storage)
    else
      let result :=
        check_rate_limit now (get_client_ip request) (path request)
          (fst (limit_of (path request))) (snd (limit_of (path request)))
          storage in
      (if fst result then CallNext
       else TooManyRequests (fst (limit_of (path request)))
              (snd (limit_of (path request))),
       snd result).
Proof.
  unfold rate_limit_middleware, limit_of.
  destruct (negb _); [reflexivity|].
  destruct (default _ _) as [limit window]. cbn [fst snd].
  now destruct (check_rate_limit _ _ _ _ _ _) as [[|] storage'].
Qed.

(** X9.  What the middleware decides.  A request whose path does not
    begin with [/api/] is handed on and leaves the storage alone.  A
    request to the API is handed on exactly when the address it is counted
    under has made fewer requests to that path within the window than the
    limit of the path allows (5 in 5 minutes for [/api/lesson] and
    [/api/example], 3 in 5 for [/api/manim], 2 in 10 for [/api/render], 10
    in 5 for any other); otherwise it is answered 429 with that limit and
    window; only the entry of that address and path changes. *)
Theorem rate_limit_middleware_spec (storage : gmap text (list Z)) (t now : Z)
    (request : Request) :
  reachable storage t ->
  let limit := fst (limit_of (path request)) in
  let window_minutes := snd (limit_of (path request)) in
  let key := rate_key (get_client_ip request) (path request) in
  let counted := in_window now window_minutes (recorded storage key) in
  let result := rate_limit_middleware now request storage in
  if startswith (txt "/api/") (path request)
  then
    (fst result = CallNext <-> Z.of_nat (length counted) < limit)
    /\ (fst result = TooManyRequests limit window_minutes
        <-> limit <= Z.of_nat (length counted))
    /\ recorded (snd result) key
       = counted ++ (if limit <=? Z.of_nat (length counted) then [] else [now])
    /\ (forall k, k <> key -> snd result !! k = storage !! k)
  else result = (CallNext, storage).
Proof.
  intros Hr limit window_minutes key counted result. subst result.
  rewrite rate_limit_middleware_unfold.
  destruct (startswith (txt "/api/") (path request)); cbn [negb];
    [|reflexivity].
  cbv zeta.
  destruct (reachable_in_order Hr key) as [Hs _].
  destruct (@check_rate_limit_window now (get_client_ip request) (path request)
              limit window_minutes storage Hs) as (Hfst & Hrec & Hother).
  fold limit window_minutes key counted in Hfst, Hrec, Hother |- *.
  cbn [fst snd].
  destruct (fst (check_rate_limit now (get_client_ip request) (path request)
                   limit window_minutes storage)) eqn:E.
  - assert (Z.of_nat (length counted) < limit) as Hlt by now apply Hfst.
    split; [tauto|]. split; [split; [discriminate | lia]|].
    split; [|exact Hother].
    rewrite Hrec. destruct (Z.leb_spec limit (Z.of_nat (length counted)));
      [lia | reflexivity].
  - assert (~ Z.of_nat (length counted) < limit) as Hge
      by (intros H; apply Hfst in H; discriminate).
    split; [split; [discriminate | tauto]|].
    split; [split; [lia | reflexivity]|].
    split; [|exact Hother].
    rewrite Hrec. destruct (Z.leb_spec limit (Z.of_nat (length counted)));
      [reflexivity | lia].
Qed.

Lemma rate_limit_middleware_spec_witness :
  let request :=
    {| path := txt "/api/render"; x_forwarded_for := None;
       x_real_ip := None; client_host := Some (txt "203.0.113.7") |} in
  let storage :=
    snd (check_rate_limit 60 (txt "203.0.113.7") (txt "/api/render") 2 10
           (snd (check_rate_limit 0 (txt "203.0.113.7") (txt "/api/render") 2 10
                   ∅))) in
  fst (rate_limit_middleware 120 request storage) = TooManyRequests 2 10.
Proof.
  intros request storage.
  assert (reachable storage 60) as Hr.
  { apply reach_request with (t := 0); [|lia].
    apply reach_request with (t := 0); [apply reach_start | lia]. }
  pose proof (@rate_limit_middleware_spec storage 60 120 request Hr) as H.
  cbv zeta in H.
  change (startswith (txt "/api/") (path request)) with true in H.
  cbv iota in H. destruct H as (_ & H & _).
  apply H. vm_compute. discriminate.
Defined.

(** X10.  The address a request is counted under is the first entry of
    its [X-Forwarded-For] header when it has one: a request to the API
    that names there an address with nothing recorded for the path is
    handed on, whatever the peer it comes from and whatever that peer has
    sent before. *)
Theorem fresh_forwarded_address_passes (now : Z) (request : Request)
    (storage : gmap text (list Z)) (c : ascii) (rest : text) :
  x_forwarded_for request = Some (c :: rest) ->
  recorded storage
    (rate_key (strip (split_first "," (c :: rest))) (path request)) = [] ->
  fst (rate_limit_middleware now request storage) = CallNext.
Proof.
  intros Hh Hfresh. rewrite rate_limit_middleware_unfold.
  destruct (negb _); [reflexivity|]. cbv zeta. cbn [fst].
  pose proof (check_rate_limit_at_key now (get_client_ip request) (path request)
                (fst (limit_of (path request))) (snd (limit_of (path request)))
                storage) as [H _].
  cbv zeta in H. rewrite H.
  unfold get_client_ip. rewrite Hh, Hfresh. cbn [popleft_while length].
  pose proof (limit_of_bounds (path request)) as [Hb _].
  destruct (Z.leb_spec (fst (limit_of (path request))) (Z.of_nat 0));
    [cbn in *; lia | reflexivity].
Qed.

Lemma fresh_forwarded_address_passes_witness :
  let storage :=
    snd (check_rate_limit 60 (txt "203.0.113.7") (txt "/api/render") 2 10
           (snd (check_rate_limit 0 (txt "203.0.113.7") (txt "/api/render") 2 10
                   ∅))) in
  fst (rate_limit_middleware 120
         {| path := txt "/api/render";
            x_forwarded_for := Some (txt "198.51.100.1, 203.0.113.7");
            x_real_ip := None; client_host := Some (txt "203.0.113.7") |}
         storage)
  = CallNext.
Proof.
  intros storage.
  apply (@fresh_forwarded_address_passes 120 _ storage "1"%char
           (txt "98.51.100.1, 203.0.113.7")).
  - reflexivity.
  - vm_compute. reflexivity.
Defined.

(** X11.  However the requests come, the storage never holds more than
    10 timestamps for a key: the middleware records a request only while
    fewer than the limit of its path are left in the window, and no limit
    is above 10. *)
Theorem served_entries_bounded (storage : gmap text (list Z)) :
  served storage ->
  forall key, (length (recorded storage key) <= 10)%nat.
Proof.
  induction 1 as [|storage now request Hs IH|storage now age Hs IH]; intros key.
  - unfold recorded. rewrite lookup_empty. cbn. lia.
  - rewrite rate_limit_middleware_unfold.
    destruct (negb _); [apply IH|]. cbv zeta. cbn [snd].
    set (ip := get_client_ip request). set (ep := path request).
    destruct (decide (key = rate_key ip ep)) as [->|Hne].
    + pose proof (check_rate_limit_at_key now ip ep (fst (limit_of ep))
                    (snd (limit_of ep)) storage) as [H1 H2].
      cbv zeta in H1, H2. rewrite H2, H1, length_app.
      pose proof (popleft_while_length
                    (fun t => t <? now - snd (limit_of ep) * 60)
                    (recorded storage (rate_key ip ep))) as Hle.
      specialize (IH (rate_key ip ep)).
      pose proof (limit_of_bounds ep) as [Hb _].
      destruct (Z.leb_spec (fst (limit_of ep))
                  (Z.of_nat (length (popleft_while
                     (fun t => t <? now - snd (limit_of ep) * 60)
                     (recorded storage (rate_key ip ep))))));
        cbn [negb length]; lia.
    + unfold recorded. rewrite check_rate_limit_unfold. cbv zeta.
      destruct (_ <=? _); cbn [snd]; rewrite lookup_insert_ne by congruence;
        apply IH.
  - rewrite recorded_sweep.
    pose proof (popleft_while_length (fun t => t <? now - age * 3600)
                  (recorded storage key)).
    specialize (IH key). lia.
Qed.

Lemma served_entries_bounded_witness :
  (length
     (recorded
        (snd (rate_limit_middleware 0
                {| path := txt "/api/status"; x_forwarded_for := None;
                   x_real_ip := None; client_host := None |} ∅))
        (txt "unknown:/api/status")) <= 10)%nat.
Proof.
  apply (@served_entries_bounded
           (snd (rate_limit_middleware 0
                   {| path := txt "/api/status"; x_forwarded_for := None;
                      x_real_ip := None; client_host := None |} ∅))).
  apply served_request. apply served_start.
Defined.

End LimiterFacts.

(** ** The queue as a whole *)

Section QueueFacts.
Import PyStr Store StoreSpec EvolveSpec Samples.

Lemma In_dict_get {V} k (v : V) : forall d : dict V,
  List.NoDup (map fst d) -> In (k, v) d -> dict_get k d = Some v.
Proof.
  unfold dict_get.
  induction d as [|[k' v'] d IH]; cbn [map fst find]; intros Hnd Hin;
    [destruct Hin|].
  apply List.NoDup_cons_iff in Hnd as [Hk Hnd].
  destruct (text_eqb k' k) eqn:E.
  - apply text_eqb_eq in E as ->. destruct Hin as [[= ->]|Hin]; [reflexivity|].
    exfalso. apply Hk. apply in_map_iff. now exists (k, v).
  - destruct Hin as [[= -> ->]|Hin]; [now rewrite text_eqb_refl in E|].
    now apply IH.
Qed.

(** The queued jobs are the jobs stored with the status [queued]. *)
Lemma queued_job_stored store job :
  well_formed store ->
  In job (get_jobs_by_status queued store)
  <-> get_job (id job) store = Some job /\ status job = queued.
Proof.
  intros [Hnd Hid]. unfold get_jobs_by_status, get_job, dict_values.
  rewrite filter_In, in_map_iff, status_eqb_eq. split.
  - intros [([k v] & <- & Hin) Hs]. split; [|exact Hs].
    rewrite List.Forall_forall in Hid. pose proof (Hid _ Hin) as Hk.
    cbn [fst snd] in *. rewrite Hk. now apply In_dict_get.
  - intros [Hget Hs]. split; [|exact Hs].
    exists (id job, job). split; [reflexivity | now apply dict_get_In].
Qed.

Lemma queue_perm store :
  Permutation (queue store) (get_jobs_by_status queued store).
Proof. apply sort_by_created_perm. Qed.

Lemma queue_length store :
  length (queue store) = length (get_jobs_by_status queued store).
Proof. apply Permutation_length, queue_perm. Qed.

Lemma queue_ids_nodup store :
  well_formed store -> List.NoDup (map id (queue store)).
Proof.
  intros Hwf.
  apply (Permutation_NoDup
           (Permutation_map id (Permutation_sym (queue_perm store)))).
  unfold get_jobs_by_status. apply NoDup_map_filter.
  rewrite well_formed_ids by exact Hwf. apply Hwf.
Qed.

Lemma position_from_None job_id : forall jobs n,
  (forall j, In j jobs -> id j <> job_id) -> position_from n job_id jobs = None.
Proof.
  induction jobs as [|e l IH]; intros n H; [reflexivity|]. cbn [position_from].
  destruct (text_eqb (id e) job_id) eqn:E.
  - apply text_eqb_eq in E. exfalso. apply (H e); [now left | exact E].
  - apply IH. intros j Hj. apply H. now right.
Qed.

Lemma position_from_nth job_id : forall jobs n p,
  position_from n job_id jobs = Some p ->
  exists i j, p = (n + i)%nat /\ nth_error jobs i = Some j /\ id j = job_id.
Proof.
  induction jobs as [|e l IH]; intros n p H; [discriminate|].
  cbn [position_from] in H. destruct (text_eqb (id e) job_id) eqn:E.
  - injection H as <-. apply text_eqb_eq in E. exists 0%nat, e.
    split; [lia|]. now split.
  - apply IH in H as (i & j & -> & Hn & Hj). exists (S i), j.
    split; [lia|]. now split.
Qed.

Lemma nth_position_from : forall jobs n i j,
  List.NoDup (map id jobs) -> nth_error jobs i = Some j ->
  position_from n (id j) jobs = Some (n + i)%nat.
Proof.
  induction jobs as [|e l IH]; intros n i j Hnd Hn; [now destruct i|].
  cbn [map] in Hnd. apply List.NoDup_cons_iff in Hnd as [He Hnd].
  cbn [position_from]. destruct i as [|i]; cbn [nth_error] in Hn.
  - injection Hn as ->. rewrite text_eqb_refl. f_equal. lia.
  - destruct (text_eqb (id e) (id j)) eqn:E.
    + apply text_eqb_eq in E. exfalso. apply He. rewrite E.
      apply in_map. eapply nth_error_In. exact Hn.
    + rewrite (IH (S n) i j Hnd Hn). f_equal. lia.
Qed.

Lemma position_from_ge job_id : forall jobs n p,
  position_from n job_id jobs = Some p -> (n <= p)%nat.
Proof.
  intros jobs n p H. apply position_from_nth in H as (i & j & -> & _). lia.
Qed.

Lemma position_from_app job_id : forall l1 l2 n,
  position_from n job_id (l1 ++ l2)
  = match position_from n job_id l1 with
    | Some p => Some p
    | None => position_from (n + length l1) job_id l2
    end.
Proof.
  induction l1 as [|e l1 IH]; intros l2 n; cbn [app position_from length].
  - now rewrite Nat.add_0_r.
  - destruct (text_eqb (id e) job_id); [reflexivity|].
    rewrite IH. now replace (S n + length l1)%nat with (n + S (length l1))%nat by lia.
Qed.

(** With keys that are the identifiers, the position is the place in the
    queue, whether or not the job is there. *)
Lemma get_queue_position_queue job_id store :
  well_formed store ->
  get_queue_position job_id store = position_from 1 job_id (queue store).
Proof.
  intros Hwf. unfold get_queue_position.
  assert (forall j, In j (queue store) ->
                    get_job (id j) store = Some j /\ status j = queued) as Hq.
  { intros j Hj. apply queued_job_stored; [exact Hwf|].
    now apply (Permutation_in _ (queue_perm store)). }
  destruct (get_job job_id store) as [job|] eqn:Hget.
  - destruct (status_eqb (status job) queued) eqn:Hs; [reflexivity|].
    cbn [negb]. symmetry. apply position_from_None. intros j Hj <-.
    apply Hq in Hj as [Hj Hsj]. rewrite Hget in Hj. injection Hj as ->.
    rewrite Hsj in Hs. discriminate.
  - symmetry. apply position_from_None. intros j Hj <-.
    apply Hq in Hj as [Hj _]. congruence.
Qed.

(** X12.  The positions of the queued jobs are the numbers from 1 to the
    number of queued jobs, each given to exactly one job. *)
Theorem queue_positions_are_ranks (store : EnhancedJobStore) :
  well_formed store ->
  let n := length (get_jobs_by_status queued store) in
  (forall job_id p,
     get_queue_position job_id store = Some p -> (1 <= p <= n)%nat)
  /\ (forall p, (1 <= p <= n)%nat ->
        exists job_id, get_queue_position job_id store = Some p)
  /\ (forall a b p,
        get_queue_position a store = Some p ->
        get_queue_position b store = Some p -> a = b).
Proof.
  intros Hwf n. subst n. rewrite <- queue_length.
  pose proof (queue_ids_nodup Hwf) as Hnd.
  split; [|split].
  - intros job_id p H. rewrite get_queue_position_queue in H by exact Hwf.
    apply position_from_nth in H as (i & j & -> & Hn & _).
    assert (i < length (queue store))%nat
      by (apply nth_error_Some; congruence).
    lia.
  - intros p Hp.
    destruct (nth_error (queue store) (p - 1)) as [j|] eqn:Hn.
    + exists (id j). rewrite get_queue_position_queue by exact Hwf.
      rewrite (@nth_position_from (queue store) 1 (p - 1) j Hnd Hn). f_equal. lia.
    + apply nth_error_None in Hn. lia.
  - intros a b p Ha Hb. rewrite get_queue_position_queue in Ha, Hb by exact Hwf.
    apply position_from_nth in Ha as (i & j & -> & Hi & <-).
    apply position_from_nth in Hb as (i' & j' & E & Hi' & <-).
    assert (i' = i) as -> by lia. congruence.
Qed.

Lemma queue_positions_are_ranks_witness :
  let n := length (get_jobs_by_status queued tied_store) in
  (forall job_id p,
     get_queue_position job_id tied_store = Some p -> (1 <= p <= n)%nat)
  /\ (forall p, (1 <= p <= n)%nat ->
        exists job_id, get_queue_position job_id tied_store = Some p)
  /\ (forall a b p,
        get_queue_position a tied_store = Some p ->
        get_queue_position b tied_store = Some p -> a = b).
Proof.
  apply (@queue_positions_are_ranks tied_store).
  apply add_job_well_formed, add_job_well_formed, empty_store_well_formed.
Defined.

(** *** Leaving the queue *)

Lemma insert_by_created_head job : forall l,
  (forall x, In x l -> (created_at job <= created_at x)%Z) ->
  insert_by_created job l = job :: l.
Proof.
  destruct l as [|e l]; [reflexivity|]. intros H. cbn [insert_by_created].
  rewrite (proj2 (Z.leb_le _ _)); [reflexivity|]. apply H. now left.
Qed.

(** The stable sort commutes with taking jobs out. *)
Lemma insert_by_created_filter (P : JobStore -> bool) job : forall s,
  StronglySorted by_created s ->
  List.filter P (insert_by_created job s)
  = if P job then insert_by_created job (List.filter P s) else List.filter P s.
Proof.
  induction 1 as [|e s Hs IH Hall]; cbn [insert_by_created List.filter].
  - destruct (P job); reflexivity.
  - rewrite List.Forall_forall in Hall. unfold by_created in Hall.
    destruct (Z.leb_spec (created_at job) (created_at e)) as [Hle|Hgt].
    + cbn [List.filter]. destruct (P job) eqn:Ej; [|reflexivity].
      symmetry. apply insert_by_created_head. intros x Hx.
      destruct (P e); [destruct Hx as [<-|Hx]; [exact Hle|]|];
        apply filter_In in Hx as [Hx _]; apply Hall in Hx; lia.
    + cbn [List.filter]. rewrite IH.
      destruct (P e) eqn:Ee, (P job) eqn:Ej; cbn [insert_by_created];
        try reflexivity.
      now rewrite (proj2 (Z.leb_gt _ _)) by lia.
Qed.

Lemma sort_by_created_filter (P : JobStore -> bool) : forall l,
  sort_by_created (List.filter P l) = List.filter P (sort_by_created l).
Proof.
  induction l as [|x l IH]; [reflexivity|].
  change (sort_by_created (x :: l))
    with (insert_by_created x (sort_by_created l)).
  rewrite insert_by_created_filter by apply sort_by_created_sorted.
  cbn [List.filter]. destruct (P x); [|exact IH].
  change (sort_by_created (x :: List.filter P l))
    with (insert_by_created x (sort_by_created (List.filter P l))).
  now rewrite IH.
Qed.

Lemma position_from_without x b : forall jobs n,
  List.NoDup (map id jobs) -> b <> x ->
  position_from n b (List.filter (fun j => negb (text_eqb (id j) x)) jobs)
  = match position_from n b jobs, position_from n x jobs with
    | Some q, Some p => Some (if (p <? q)%nat then (q - 1)%nat else q)
    | r, _ => r
    end.
Proof.
  induction jobs as [|e l IH]; intros n Hnd Hbx; [reflexivity|].
  cbn [map] in Hnd. apply List.NoDup_cons_iff in Hnd as [He Hnd].
  cbn [List.filter position_from].
  destruct (text_eqb (id e) x) eqn:Ex; cbn [negb].
  - apply text_eqb_eq in Ex.
    replace (text_eqb (id e) b) with false
      by (symmetry; apply text_eqb_neq; congruence).
    rewrite forallb_filter_id.
    + rewrite position_from_shift.
      destruct (position_from n b l) as [q|] eqn:Eq; cbn [option_map];
        [|reflexivity].
      apply position_from_ge in Eq. f_equal.
      destruct (Nat.ltb_spec n (S q)); lia.
    + apply forallb_forall. intros j Hj. apply negb_true_iff, text_eqb_neq.
      intros Hjx. apply He. rewrite Ex, <- Hjx. now apply in_map.
  - cbn [position_from]. destruct (text_eqb (id e) b) eqn:Eb.
    + destruct (position_from (S n) x l) as [p|] eqn:Ep; [|reflexivity].
      apply position_from_ge in Ep. f_equal.
      destruct (Nat.ltb_spec p n); [lia | reflexivity].
    + now apply IH.
Qed.

Lemma queued_without_updated x job' : forall d : dict JobStore,
  List.NoDup (map fst d) -> Forall (fun kv => id (snd kv) = fst kv) d ->
  status job' <> queued ->
  In x (map fst d) ->
  List.filter (fun job => status_eqb (status job) queued)
    (dict_values (dict_set x job' d))
  = List.filter (fun j => negb (text_eqb (id j) x))
      (List.filter (fun job => status_eqb (status job) queued) (dict_values d)).
Proof.
  intros d Hnd Hid Hs. unfold dict_values.
  assert (status_eqb (status job') queued = false) as Hs'
    by (destruct (status_eqb _ _) eqn:E; [apply status_eqb_eq in E|]; congruence).
  induction d as [|[k v] d IH]; intros Hin; [destruct Hin|].
  cbn [map fst] in Hnd. apply List.NoDup_cons_iff in Hnd as [Hk Hnd].
  apply List.Forall_cons_iff in Hid as [Hv Hid]. cbn [fst snd] in Hv.
  cbn [dict_set]. destruct (text_eqb k x) eqn:E.
  - apply text_eqb_eq in E as ->.
    cbn [map snd List.filter]. rewrite Hs'.
    assert (List.filter (fun j => negb (text_eqb (id j) x))
              (List.filter (fun job => status_eqb (status job) queued)
                 (map snd d))
            = List.filter (fun job => status_eqb (status job) queued) (map snd d))
      as Hrest.
    { apply forallb_filter_id, forallb_forall. intros j Hj.
      apply filter_In in Hj as [Hj _]. apply in_map_iff in Hj as (kv & <- & Hkv).
      apply negb_true_iff, text_eqb_neq. intros Hjx. apply Hk.
      rewrite List.Forall_forall in Hid. rewrite <- Hjx, (Hid _ Hkv).
      now apply in_map. }
    destruct (status_eqb (status v) queued); [|now rewrite Hrest].
    cbn [List.filter]. rewrite Hv, text_eqb_refl. cbn [negb]. now rewrite Hrest.
  - cbn [map snd List.filter].
    destruct Hin as [Hin|Hin];
      [cbn [fst] in Hin; rewrite Hin, text_eqb_refl in E; discriminate|].
    rewrite (IH Hnd Hid Hin).
    destruct (status_eqb (status v) queued); [|reflexivity].
    cbn [List.filter]. rewrite Hv, E. reflexivity.
Qed.

Lemma queued_without_removed x : forall d : dict JobStore,
  Forall (fun kv => id (snd kv) = fst kv) d ->
  List.filter (fun job => status_eqb (status job) queued)
    (dict_values (dict_pop x d))
  = List.filter (fun j => negb (text_eqb (id j) x))
      (List.filter (fun job => status_eqb (status job) queued) (dict_values d)).
Proof.
  unfold dict_values, dict_pop.
  induction d as [|[k v] d IH]; intros Hid; [reflexivity|].
  apply List.Forall_cons_iff in Hid as [Hv Hid]. cbn [fst snd] in Hv.
  cbn [List.filter map fst snd].
  destruct (text_eqb k x) eqn:E; cbn [negb map snd List.filter];
    rewrite (IH Hid);
    (destruct (status_eqb (status v) queued); [|reflexivity]);
    cbn [List.filter]; rewrite Hv, E; reflexivity.
Qed.

Lemma queue_position_without store store' x :
  well_formed store ->
  (forall b, b <> x -> get_job b store' = get_job b store) ->
  get_jobs_by_status queued store'
  = List.filter (fun j => negb (text_eqb (id j) x))
      (get_jobs_by_status queued store) ->
  forall b, b <> x ->
    get_queue_position b store'
    = match get_queue_position b store, get_queue_position x store with
      | Some q, Some p => Some (if (p <? q)%nat then (q - 1)%nat else q)
      | r, _ => r
      end.
Proof.
  intros Hwf Hframe Hq b Hb.
  rewrite (@get_queue_position_queue x store Hwf).
  unfold get_queue_position at 1 2. rewrite (Hframe b Hb).
  destruct (get_job b store) as [jb|]; [|reflexivity].
  destruct (status_eqb (status jb) queued); cbn [negb]; [|reflexivity].
  rewrite Hq, sort_by_created_filter.
  apply position_from_without; [|exact Hb].
  now apply queue_ids_nodup.
Qed.

Lemma update_job_jobs is_dataclass now job_id updates store job :
  get_job job_id store = Some job ->
  _jobs (snd (fst (update_job is_dataclass now job_id updates store)))
  = dict_set job_id (RenderSpec.updated now updates job) (_jobs store).
Proof.
  intros H. rewrite (@store_update_job_found is_dataclass now job_id updates store job H).
  cbv zeta. destruct (status_eqb _ _); [reflexivity|].
  destruct (is_terminal _); [|reflexivity].
  destruct (_archive_job _ _ _ _); reflexivity.
Qed.

Lemma dict_get_pop_other {V} k k' : forall d : dict V,
  k <> k' -> dict_get k' (dict_pop k d) = dict_get k' d.
Proof.
  unfold dict_get, dict_pop. intros d Hk.
  induction d as [|[k0 v0] d IH]; [reflexivity|]. cbn [List.filter fst find].
  destruct (text_eqb k0 k) eqn:E; cbn [negb find fst].
  - apply text_eqb_eq in E as ->.
    replace (text_eqb k k') with false by (symmetry; now apply text_eqb_neq).
    exact IH.
  - destruct (text_eqb k0 k'); [reflexivity | exact IH].
Qed.

(** X13.  When a queued job leaves the queue (an update gives it
    another status, as the render task does when it picks the job up, or
    the job is removed), the jobs behind it move up by one place and the
    jobs before it keep theirs. *)
Theorem leaving_the_queue_moves_up (is_dataclass : bool) (now : Z) (x : text)
    (updates : list update) (store : EnhancedJobStore) (job : JobStore) :
  well_formed store ->
  get_job x store = Some job ->
  status job = queued ->
  status (RenderSpec.updated now updates job) <> queued ->
  exists p,
    get_queue_position x store = Some p
    /\ forall b, b <> x ->
         let moved q := if (p <? q)%nat then (q - 1)%nat else q in
         get_queue_position b
           (snd (fst (update_job is_dataclass now x updates store)))
         = option_map moved (get_queue_position b store)
         /\ get_queue_position b (snd (fst (remove_job x store)))
            = option_map moved (get_queue_position b store).
Proof.
  intros Hwf Hget Hs Hs'.
  assert (In x (map fst (_jobs store))) as Hin
    by (apply dict_get_In in Hget; apply in_map_iff; now exists (x, job)).
  destruct (get_queue_position x store) as [p|] eqn:Hp.
  - exists p. split; [reflexivity|]. intros b Hb moved. subst moved. split.
    + rewrite (@queue_position_without store _ x Hwf); [| | |exact Hb].
      * rewrite Hp. now destruct (get_queue_position b store).
      * intros k Hk. unfold get_job.
        rewrite (@update_job_jobs is_dataclass now x updates store job Hget).
        apply dict_get_set_other. congruence.
      * unfold get_jobs_by_status.
        rewrite (@update_job_jobs is_dataclass now x updates store job Hget).
        apply queued_without_updated; [apply Hwf | apply Hwf | exact Hs' | exact Hin].
    + rewrite (@queue_position_without store _ x Hwf); [| | |exact Hb].
      * rewrite Hp. now destruct (get_queue_position b store).
      * intros k Hk. unfold get_job.
        rewrite (proj1 (remove_job_jobs x store)).
        apply dict_get_pop_other. congruence.
      * unfold get_jobs_by_status.
        rewrite (proj1 (remove_job_jobs x store)).
        apply queued_without_removed. apply Hwf.
  - exfalso. rewrite (@get_queue_position_queue x store Hwf) in Hp.
    assert (id job = x) as Ex.
    { apply dict_get_In in Hget. destruct Hwf as [_ Hid].
      rewrite List.Forall_forall in Hid. now apply Hid in Hget. }
    assert (In job (queue store)) as Hj.
    { apply (Permutation_in _ (Permutation_sym (queue_perm store))).
      apply queued_job_stored; [exact Hwf|]. rewrite Ex. now split. }
    apply In_nth_error in Hj as (i & Hi). rewrite <- Ex in Hp.
    rewrite (@nth_position_from (queue store) 1 i job (queue_ids_nodup Hwf) Hi)
      in Hp.
    discriminate.
Qed.

Lemma leaving_the_queue_moves_up_witness :
  exists p,
    get_queue_position (txt "b") tied_store = Some p
    /\ forall b, b <> txt "b" ->
         let moved q := if (p <? q)%nat then (q - 1)%nat else q in
         get_queue_position b
           (snd (fst (update_job JobStore_is_dataclass 6 (txt "b")
                        [set_status rendering] tied_store)))
         = option_map moved (get_queue_position b tied_store)
         /\ get_queue_position b (snd (fst (remove_job (txt "b") tied_store)))
            = option_map moved (get_queue_position b tied_store).
Proof.
  apply (@leaving_the_queue_moves_up JobStore_is_dataclass 6 (txt "b")
           [set_status rendering] tied_store (queued_job (txt "b") 5)).
  - apply add_job_well_formed, add_job_well_formed, empty_store_well_formed.
  - reflexivity.
  - reflexivity.
  - discriminate.
Defined.

(** *** Joining the queue *)

Lemma dict_set_absent {V} k (v : V) : forall d : dict V,
  dict_get k d = None -> dict_set k v d = d ++ [(k, v)].
Proof.
  unfold dict_get. induction d as [|[k' v'] d IH]; [reflexivity|].
  cbn [find fst dict_set app]. destruct (text_eqb k' k); [discriminate|].
  intros H. now rewrite IH.
Qed.

Lemma insert_by_created_snoc job e : forall s,
  (created_at e <= created_at job)%Z ->
  insert_by_created e (s ++ [job]) = insert_by_created e s ++ [job].
Proof.
  intros s He. induction s as [|y s IH]; cbn [app insert_by_created].
  - now rewrite (proj2 (Z.leb_le _ _)).
  - destruct (created_at e <=? created_at y)%Z; [reflexivity|].
    cbn [app]. now rewrite IH.
Qed.

Lemma sort_by_created_snoc job : forall l,
  (forall j, In j l -> (created_at j <= created_at job)%Z) ->
  sort_by_created (l ++ [job]) = sort_by_created l ++ [job].
Proof.
  induction l as [|e l IH]; intros H; [reflexivity|]. cbn [app].
  change (sort_by_created (e :: l ++ [job]))
    with (insert_by_created e (sort_by_created (l ++ [job]))).
  rewrite IH by (intros j Hj; apply H; now right).
  rewrite insert_by_created_snoc by (apply H; now left). reflexivity.
Qed.

(** X14.  A new queued job that is not older than the jobs already
    queued joins at the back: its position is the number of queued jobs
    plus one, and no other position changes. *)
Theorem new_job_joins_at_the_back (job : JobStore) (store : EnhancedJobStore) :
  well_formed store ->
  get_job (id job) store = None ->
  status job = queued ->
  (forall j, In j (get_jobs_by_status queued store) ->
             (created_at j <= created_at job)%Z) ->
  let store' := fst (add_job job store) in
  get_queue_position (id job) store'
  = Some (S (length (get_jobs_by_status queued store)))
  /\ forall b, b <> id job ->
       get_queue_position b store' = get_queue_position b store.
Proof.
  intros Hwf Hnew Hs Hold store'.
  assert (well_formed store') as Hwf' by now apply add_job_well_formed.
  assert (queue store' = queue store ++ [job]) as Hq.
  { unfold queue, get_jobs_by_status, store', add_job. cbn [fst _jobs].
    unfold get_job in Hnew. rewrite (@dict_set_absent _ (id job) job (_jobs store) Hnew).
    unfold dict_values. rewrite map_app, List.filter_app. cbn [map snd List.filter].
    rewrite Hs. cbn [status_eqb]. now apply sort_by_created_snoc. }
  assert (position_from 1 (id job) (queue store) = None) as Hnone.
  { rewrite <- get_queue_position_queue by exact Hwf.
    unfold get_queue_position. now rewrite Hnew. }
  split.
  - rewrite get_queue_position_queue by exact Hwf'.
    rewrite Hq, position_from_app, Hnone. cbn [position_from].
    rewrite text_eqb_refl, queue_length. reflexivity.
  - intros b Hb. rewrite !get_queue_position_queue by assumption.
    rewrite Hq, position_from_app.
    destruct (position_from 1 b (queue store)); [reflexivity|].
    cbn [position_from].
    now replace (text_eqb (id job) b) with false
      by (symmetry; apply text_eqb_neq; congruence).
Qed.

Lemma new_job_joins_at_the_back_witness :
  let store := fst (add_job (queued_job (txt "b") 5) empty_store) in
  let store' := fst (add_job (queued_job (txt "a") 5) store) in
  get_queue_position (txt "a") store'
  = Some (S (length (get_jobs_by_status queued store)))
  /\ forall b, b <> txt "a" ->
       get_queue_position b store' = get_queue_position b store.
Proof.
  intros store.
  apply (@new_job_joins_at_the_back (queued_job (txt "a") 5) store).
  - apply add_job_well_formed, empty_store_well_formed.
  - reflexivity.
  - reflexivity.
  - intros j [<-|[]]. cbn. lia.
Defined.

End QueueFacts.

(** ** The store over its life *)

Section StoreFacts.
Import PyStr Store StoreSpec EvolveSpec History Samples.

Lemma dict_get_mem {V} k : forall d : dict V,
  is_Some (dict_get k d) -> mem k (map fst d) = true.
Proof.
  intros d [v Hv]. apply dict_get_In in Hv. apply mem_In, in_map_iff.
  now exists (k, v).
Qed.

(** What one call of [update_job] does to the history: nothing, unless
    the records are dataclass instances and the status changes to a final
    one; then the record of the job is put at the end, and the list cut to
    its last 1000 entries. *)
Lemma update_job_history is_dataclass now job_id updates store :
  let store' := snd (fst (update_job is_dataclass now job_id updates store)) in
  _job_history store' = _job_history store
  \/ (is_dataclass = true
      /\ exists record,
           is_terminal (status (job_data record)) = true
           /\ get_job job_id store' = Some (job_data record)
           /\ completed_at record = now
           /\ _job_history store'
              = let history := _job_history store ++ [record] in
                if (1000 <? Z.of_nat (length history))%Z
                then last_1000 history else history).
Proof.
  intros store'. subst store'.
  destruct (get_job job_id store) as [job|] eqn:Hget;
    [|unfold update_job; rewrite Hget; now left].
  rewrite (@store_update_job_found is_dataclass now job_id updates store job Hget).
  cbv zeta.
  destruct (status_eqb _ _); [now left|].
  destruct (is_terminal _) eqn:Ht; [|now left].
  unfold _archive_job, asdict. destruct is_dataclass; [|now left].
  right. split; [reflexivity|].
  exists {| job_data := RenderSpec.updated now updates job;
            completed_at := now;
            total_processing_time :=
              (now - created_at (RenderSpec.updated now updates job))%Z |}.
  cbn [fst snd _job_history job_data completed_at].
  split; [exact Ht|]. split; [apply get_job_set_eq|]. split; reflexivity.
Qed.

(** X15.  [update_job] touches the named job only: every other job is
    left as it was, and no key is added, dropped or moved.  For an
    identifier that is not stored it returns [False] and changes nothing;
    for one that is stored it never returns [False], and the fields are
    assigned and [updated_at] is set even when archiving then raises.
    The history is left alone unless the status changes to a final
    one. *)
Theorem update_job_frame (is_dataclass : bool) (now : Z) (job_id : text)
    (updates : list update) (store : EnhancedJobStore) :
  let result := update_job is_dataclass now job_id updates store in
  let store' := snd (fst result) in
  (forall k, k <> job_id -> get_job k store' = get_job k store)
  /\ map fst (_jobs store') = map fst (_jobs store)
  /\ (get_job job_id store = None -> result = (Return false, store, []))
  /\ (forall job, get_job job_id store = Some job ->
        let job' := RenderSpec.updated now updates job in
        get_job job_id store' = Some job'
        /\ fst (fst result) <> Return false
        /\ (status job' = status job \/ is_terminal (status job') = false ->
            _job_history store' = _job_history store)).
Proof.
  intros result store'. subst store' result.
  destruct (get_job job_id store) as [job|] eqn:Hget.
  - pose proof (@update_job_jobs is_dataclass now job_id updates store job Hget)
      as Hjobs.
    split; [|split; [|split; [discriminate|]]].
    + intros k Hk. unfold get_job. rewrite Hjobs.
      apply dict_get_set_other. congruence.
    + rewrite Hjobs, dict_set_keys.
      rewrite dict_get_mem; [reflexivity|]. unfold get_job in Hget.
      rewrite Hget. now eexists.
    + intros job0 [= <-] job'. subst job'. split.
      * unfold get_job. rewrite Hjobs. apply dict_get_set_same.
      * rewrite (@store_update_job_found is_dataclass now job_id updates store
                   job Hget). cbv zeta.
        destruct (status_eqb _ _) eqn:Es; [split; [discriminate | reflexivity]|].
        destruct (is_terminal _) eqn:Et.
        -- destruct (_archive_job _ _ _ _); (split; [discriminate|]);
             intros [H|H]; try discriminate;
             rewrite H in Es; apply not_true_iff_false in Es;
             exfalso; apply Es; now apply status_eqb_eq.
        -- split; [discriminate | reflexivity].
  - unfold update_job. rewrite Hget. cbn [fst snd].
    split; [reflexivity|]. split; [reflexivity|]. split; [reflexivity|].
    discriminate.
Qed.

(** X16.  Adding, looking up and removing fit together: a job added is
    found under its identifier and no other job changes; adding under an
    identifier already stored replaces the record where it stands; removing
    a job just added under a fresh identifier gives the dictionary back;
    a job removed is gone, and removing it again returns [False] and
    changes nothing. *)
Theorem add_get_remove (job : JobStore) (store : EnhancedJobStore) :
  let added := fst (add_job job store) in
  let removed := remove_job (id job) added in
  get_job (id job) added = Some job
  /\ (forall k, k <> id job -> get_job k added = get_job k store)
  /\ (is_Some (get_job (id job) store) ->
      map fst (_jobs added) = map fst (_jobs store))
  /\ (get_job (id job) store = None ->
      map fst (_jobs added) = map fst (_jobs store) ++ [id job]
      /\ _jobs (snd (fst removed)) = _jobs store)
  /\ fst (fst removed) = true
  /\ get_job (id job) (snd (fst removed)) = None
  /\ remove_job (id job) (snd (fst removed)) = (false, snd (fst removed), []).
Proof.
  intros added removed. subst removed added. unfold add_job. cbn [fst].
  assert (get_job (id job)
            {| _jobs := dict_set (id job) job (_jobs store);
               _job_history := _job_history store |} = Some job) as Hget
    by apply get_job_set_eq.
  split; [exact Hget|].
  split; [intros k Hk; unfold get_job; cbn [_jobs];
          apply dict_get_set_other; congruence|].
  split.
  { intros Hs. cbn [_jobs]. now rewrite dict_set_keys, dict_get_mem. }
  split.
  { intros Hnone. unfold get_job in Hnone. cbn [_jobs].
    rewrite (@dict_set_absent _ (id job) job (_jobs store) Hnone).
    split; [now rewrite map_app|].
    rewrite (proj1 (remove_job_jobs _ _)). cbn [_jobs].
    unfold dict_pop. rewrite List.filter_app. cbn [List.filter fst].
    rewrite text_eqb_refl. cbn [negb]. rewrite app_nil_r.
    now apply dict_pop_absent. }
  assert (remove_job (id job)
            {| _jobs := dict_set (id job) job (_jobs store);
               _job_history := _job_history store |}
          = (true,
             {| _jobs := dict_pop (id job) (dict_set (id job) job (_jobs store));
                _job_history := _job_history store |},
             [JobRemoved (id job)])) as ->.
  { unfold remove_job. unfold get_job in Hget. now rewrite Hget. }
  cbn [fst snd].
  split; [reflexivity|]. split; [apply dict_get_pop_same|].
  unfold remove_job. cbn [_jobs]. now rewrite dict_get_pop_same.
Qed.

Lemma remove_job_well_formed job_id store :
  well_formed store -> well_formed (snd (fst (remove_job job_id store))).
Proof.
  intros [Hnd Hid]. split.
  - rewrite (proj1 (remove_job_jobs job_id store)). now apply NoDup_map_filter.
  - rewrite (proj1 (remove_job_jobs job_id store)).
    apply List.Forall_forall. intros kv Hkv. apply filter_In in Hkv as [Hkv _].
    rewrite List.Forall_forall in Hid. now apply Hid.
Qed.

Lemma In_skipn {A} (x : A) n l : In x (skipn n l) -> In x l.
Proof.
  intros H. rewrite <- (firstn_skipn n l). apply in_app_iff. now right.
Qed.

Lemma cleanup_old_jobs_history now max_age_hours store record :
  List.NoDup (map fst (_jobs store)) ->
  In record (_job_history (snd (fst (cleanup_old_jobs now max_age_hours store)))) ->
  In record (_job_history store).
Proof.
  intros Hnd.
  destruct (@cleanup_old_jobs_result now max_age_hours store Hnd) as (lines & ->).
  destruct (history_cutoff now max_age_hours); cbn [fst snd _job_history];
    [trivial|].
  intros H. now apply filter_In in H.
Qed.

Lemma filter_shorter {A} (p : A -> bool) l :
  (length (List.filter p l) <= length l)%nat.
Proof.
  induction l as [|x l IH]; cbn [List.filter length]; [lia|].
  destruct (p x); cbn [length]; lia.
Qed.

Lemma cleanup_old_jobs_history_length now max_age_hours store :
  List.NoDup (map fst (_jobs store)) ->
  (length (_job_history (snd (fst (cleanup_old_jobs now max_age_hours store))))
   <= length (_job_history store))%nat.
Proof.
  intros Hnd.
  destruct (@cleanup_old_jobs_result now max_age_hours store Hnd) as (lines & ->).
  destruct (history_cutoff now max_age_hours); cbn [fst snd _job_history];
    [lia|].
  apply filter_shorter.
Qed.

Lemma evolves_invariants is_dataclass store :
  evolves is_dataclass store ->
  well_formed store
  /\ (length (_job_history store) <= 1000)%nat
  /\ Forall (fun record => is_terminal (status (job_data record)) = true)
       (_job_history store).
Proof.
  induction 1 as [|job store He (Hwf & Hlen & Hall)
                  |now job_id updates store He (Hwf & Hlen & Hall) Hups
                  |job_id store He (Hwf & Hlen & Hall)
                  |now age store He (Hwf & Hlen & Hall)].
  - split; [apply empty_store_well_formed|]. split; [cbn; lia | constructor].
  - split; [now apply add_job_well_formed|]. now split.
  - split; [now apply update_job_well_formed|].
    destruct (update_job_history is_dataclass now job_id updates store)
      as [->|(_ & record & Ht & _ & _ & ->)]; [now split|].
    cbv zeta.
    assert (Forall (fun r => is_terminal (status (job_data r)) = true)
              (_job_history store ++ [record])) as Hall'
      by (apply List.Forall_app; split; [exact Hall | now constructor]).
    destruct (Z.ltb_spec 1000
                (Z.of_nat (length (_job_history store ++ [record])))) as [Hgt|Hle].
    + unfold last_1000. split; [rewrite length_skipn; lia|].
      rewrite List.Forall_forall in *. intros r Hr. apply Hall'.
      now apply In_skipn in Hr.
    + split; [lia | exact Hall'].
  - split; [now apply remove_job_well_formed|].
    rewrite (proj2 (remove_job_jobs job_id store)). now split.
  - split; [now apply cleanup_old_jobs_well_formed|].
    pose proof (@cleanup_old_jobs_history_length now age store (proj1 Hwf)).
    split; [lia|].
    rewrite List.Forall_forall in *. intros r Hr. apply Hall.
    eapply cleanup_old_jobs_history; [apply Hwf | exact Hr].
Qed.

(** X17.  Whatever the sequence of calls, the store stays a dictionary
    of jobs under their own identifiers, the history never holds more than
    1000 records, and every record of the history is that of a job that
    was ready or in error when it was archived. *)
Theorem store_invariants (is_dataclass : bool) (store : EnhancedJobStore) :
  evolves is_dataclass store ->
  well_formed store
  /\ (length (_job_history store) <= 1000)%nat
  /\ Forall (fun record => is_terminal (status (job_data record)) = true)
       (_job_history store).
Proof. apply evolves_invariants. Qed.

Lemma store_invariants_witness :
  let store :=
    snd (fst (update_job true 7 (txt "b") [set_status error] tied_store)) in
  well_formed store
  /\ (length (_job_history store) <= 1000)%nat
  /\ Forall (fun record => is_terminal (status (job_data record)) = true)
       (_job_history store).
Proof.
  apply (@store_invariants true).
  apply ev_update; [|repeat constructor].
  apply ev_add, ev_add, ev_start.
Defined.

(** X18.  In the program as it is, the records being instances of a
    pydantic model, nothing is ever archived: whatever the sequence of
    calls the history is empty, so the history the monitoring route
    reports is empty too. *)
Theorem history_stays_empty (store : EnhancedJobStore) :
  evolves JobStore_is_dataclass store ->
  _job_history store = []
  /\ forall limit,
       get_job_history limit store = []
       /\ Monitoring.history_count (Monitoring.get_job_history limit store) = 0%nat.
Proof.
  intros He.
  assert (_job_history store = []) as Hempty.
  { induction He as [|job store He IH|now job_id updates store He IH Hups
                     |job_id store He IH|now age store He IH].
    - reflexivity.
    - exact IH.
    - destruct (update_job_history JobStore_is_dataclass now job_id updates store)
        as [->|(Hdc & _)]; [exact IH | discriminate].
    - now rewrite (proj2 (remove_job_jobs job_id store)).
    - pose proof (evolves_invariants He) as (Hwf & _).
      pose proof (@cleanup_old_jobs_history_length now age store (proj1 Hwf))
        as Hlen.
      rewrite IH in Hlen.
      destruct (_job_history (snd (fst (cleanup_old_jobs now age store))));
        [reflexivity | cbn in Hlen; lia]. }
  split; [exact Hempty|]. intros limit.
  unfold Monitoring.get_job_history, get_job_history, slice_from.
  rewrite Hempty. cbn [Monitoring.history_count length]. rewrite !skipn_nil. now split.
Qed.

Lemma history_stays_empty_witness :
  let store :=
    snd (fst (update_job JobStore_is_dataclass 7 (txt "b") [set_status error]
                tied_store)) in
  _job_history store = []
  /\ forall limit,
       get_job_history limit store = []
       /\ Monitoring.history_count (Monitoring.get_job_history limit store) = 0%nat.
Proof.
  apply history_stays_empty.
  apply ev_update; [|repeat constructor].
  apply ev_add, ev_add, ev_start.
Defined.

Lemma terminal_counts (history : list HistoryRecord) :
  Forall (fun record => is_terminal (status (job_data record)) = true) history ->
  (length (List.filter (fun j => status_eqb (status (job_data j)) ready) history)
   + length (List.filter (fun j => status_eqb (status (job_data j)) error) history)
   = length history)%nat.
Proof.
  induction 1 as [|r history Hr _ IH]; [reflexivity|]. cbn [List.filter].
  destruct (status (job_data r)); try discriminate;
    cbn [status_eqb length]; lia.
Qed.

(** X19.  The monitoring route answers with the most recent records of
    the history, oldest first, as many as asked for once that number is
    brought between 1 and 200, or all of them when there are fewer; in a
    store the program can be in, each of them counts as successful or as
    failed.  The method of the store, called with the limit 0, returns
    the whole history. *)
Theorem history_route_spec (limit : Z) (store : EnhancedJobStore) :
  let report := Monitoring.get_job_history limit store in
  let wanted := Z.to_nat (Z.min (Z.max 1 limit) 200) in
  let history := _job_history store in
  (1 <= wanted <= 200)%nat
  /\ Monitoring.jobs report = skipn (length history - wanted) history
  /\ Monitoring.history_count report = Nat.min wanted (length history)
  /\ get_job_history 0 store = history
  /\ Monitoring.total_completed report = Monitoring.history_count report
  /\ (forall is_dataclass, evolves is_dataclass store ->
        (Monitoring.successful report + Monitoring.failed report
         = Monitoring.history_count report)%nat).
Proof.
  intros report wanted history. subst report.
  assert (get_job_history (Z.min (Z.max 1 limit) 200) store
          = skipn (length history - wanted) history) as Hjobs.
  { unfold get_job_history, slice_from. fold history.
    destruct (Z.ltb_spec (- Z.min (Z.max 1 limit) 200) 0); [|lia].
    f_equal. subst wanted. lia. }
  split; [subst wanted; lia|].
  unfold Monitoring.get_job_history. rewrite Hjobs.
  cbn [Monitoring.jobs Monitoring.history_count Monitoring.total_completed
       Monitoring.successful Monitoring.failed].
  split; [reflexivity|]. split; [rewrite length_skipn; lia|].
  split; [|split; [reflexivity|]].
  { unfold get_job_history, slice_from. fold history.
    change (- 0 <? 0)%Z with false. cbv iota.
    now replace (Z.to_nat (Z.min (- 0) (Z.of_nat (length history)))) with 0%nat
      by lia. }
  intros is_dataclass He. apply terminal_counts.
  pose proof (evolves_invariants He) as (_ & _ & Hall).
  rewrite List.Forall_forall in *. intros r Hr. apply Hall.
  now apply In_skipn in Hr.
Qed.

End StoreFacts.

(** ** The render task and the render route *)

Section TaskFacts.
Import PyStr Store Render RenderSpec TaskSpec StrSpec Samples.

Lemma update_job_step is_dataclass out job_id updates w job :
  get_job job_id (job_store w) = Some job ->
  let job' := updated (utcnow out) updates job in
  let changed := negb (status_eqb (status job) (status job')) in
  exists store' lines,
    update_job is_dataclass out job_id updates w =
      (if changed && is_terminal (status job') && negb is_dataclass
       then Raise (TypeError asdict_message) else Return true,
       {| job_store := store'; code_dir := code_dir w;
          logged := logged w ++ lines |})
    /\ get_job job_id store' = Some job'
    /\ (forall k, k <> job_id -> get_job k store' = get_job k (job_store w))
    /\ map fst (_jobs store') = map fst (_jobs (job_store w)).
Proof.
  intros Hjob job' changed.
  assert (forall history k, k <> job_id ->
            get_job k {| _jobs := dict_set job_id job' (_jobs (job_store w));
                         _job_history := history |}
            = get_job k (job_store w)) as Hframe.
  { intros history k Hk. unfold get_job. cbn [_jobs].
    apply dict_get_set_other. congruence. }
  assert (map fst (dict_set job_id job' (_jobs (job_store w)))
          = map fst (_jobs (job_store w))) as Hkeys.
  { rewrite dict_set_keys, dict_get_mem; [reflexivity|].
    unfold get_job in Hjob. rewrite Hjob. now eexists. }
  unfold update_job, on_store.
  rewrite store_update_job_found with (job := job) by exact Hjob.
  cbv zeta. fold job'. subst changed.
  destruct (status_eqb (status job) (status job')); cbn [negb andb].
  - eexists _, _. split; [reflexivity|].
    split; [apply get_job_set_eq | split; [apply Hframe | exact Hkeys]].
  - destruct (is_terminal (status job')); cbn [negb andb].
    + unfold _archive_job, asdict. destruct is_dataclass; cbn [negb];
        (eexists _, _; split; [reflexivity|];
         split; [apply get_job_set_eq | split; [apply Hframe | exact Hkeys]]).
    + eexists _, _. split; [reflexivity|].
      split; [apply get_job_set_eq | split; [apply Hframe | exact Hkeys]].
Qed.

Ltac step_update :=
  match goal with
  | G : get_job ?id ?st = Some ?j
    |- context [update_job ?dc ?out ?id ?ups
                  {| job_store := ?st; code_dir := ?d; logged := ?l |}] =>
      let store' := fresh "store" in
      let lines := fresh "lines" in
      let E := fresh "E" in
      let G' := fresh "G" in
      let F := fresh "F" in
      let K := fresh "K" in
      destruct (@update_job_step dc out id ups
                  {| job_store := st; code_dir := d; logged := l |} j G)
        as (store' & lines & E & G' & F & K);
      rewrite E; clear E;
      cbn [job_store] in F, K
  end.

Ltac tidy :=
  cbn [andb negb orb is_terminal status_eqb job_store code_dir logged fst snd
       processing_error exn_str];
  rewrite ?status_updated_1, ?status_updated_path, ?status_updated_message,
    ?code_updated_1, ?filename_updated_1;
  cbn [andb negb orb is_terminal status_eqb];
  cbv beta iota.

Ltac framed :=
  cbn [fst snd job_store];
  split; [reflexivity|];
  split;
  [ intros k Hk;
    repeat match goal with
           | F : forall k, k <> _ -> get_job k ?s = _
             |- context [get_job k ?s] => rewrite (F k Hk)
           end;
    reflexivity
  | repeat match goal with
           | K : map fst (_jobs ?s) = _ |- context [_jobs ?s] => rewrite K
           end;
    reflexivity ].

Lemma process_render_job_run is_dataclass out job_id w job :
  get_job job_id (job_store w) = Some job ->
  let result := _process_render_job is_dataclass out job_id w in
  fst result = task_outcome is_dataclass out job
  /\ (forall k, k <> job_id ->
        get_job k (job_store (snd result)) = get_job k (job_store w))
  /\ map fst (_jobs (job_store (snd result))) = map fst (_jobs (job_store w)).
Proof.
  intros Hjob. unfold _process_render_job. rewrite Hjob.
  unfold task_outcome, early_failure, rendered.
  cbv [bind try_except logger ret raise lift].
  tidy. step_update. tidy. rewrite andb_false_r. tidy.
  rewrite save_code_file_run. cbv zeta.
  destruct (write_error out) as [e|]; tidy.
  { step_update. tidy. destruct is_dataclass; tidy; framed. }
  destruct (_get_scene_class_name (code job)) as [e|scene_class]; tidy.
  { step_update. tidy. destruct is_dataclass; tidy; framed. }
  rewrite video_filepath_run. tidy.
  match goal with
  | |- context [_execute_manim_render ?o ?a ?b ?c ?W] =>
      destruct (execute_manim_render_run o a b job W) as (mlines & E & _ & _);
      rewrite E; clear E
  end.
  tidy.
  generalize (match manim out with
              | Exited returncode => (returncode =? 0)%Z
              | TimedOut | Crashed _ => false
              end && video_exists out).
  intros ok. destruct ok; tidy; step_update; tidy;
    (destruct is_dataclass; tidy;
     [ destruct (unlink_error out); tidy;
       [| unfold unlink; tidy; rewrite dict_get_set_same; tidy ]
     | step_update; tidy ]);
    framed.
Qed.

(** X20.  How the render task ends.  Were the records dataclass
    instances, the task would always return.  In the program as it is,
    the task returns only when the rendering itself fails; when the code
    cannot be saved, when no class is found in it, and when the video is
    rendered, the exception [asdict] raises leaves the task through its
    own handler, and it is the only exception that ever leaves it. *)
Theorem render_task_outcome (out : Outside) (job_id : text) (w : World)
    (job : JobStore) :
  get_job job_id (job_store w) = Some job ->
  fst (_process_render_job true out job_id w) = Return tt
  /\ (fst (_process_render_job JobStore_is_dataclass out job_id w) = Return tt
      <-> early_failure out job = None /\ rendered out = false)
  /\ (raises (fst (_process_render_job JobStore_is_dataclass out job_id w)) ->
      fst (_process_render_job JobStore_is_dataclass out job_id w)
      = Raise (TypeError asdict_message)).
Proof.
  intros Hjob.
  destruct (@process_render_job_run true out job_id w job Hjob) as (-> & _).
  destruct (@process_render_job_run JobStore_is_dataclass out job_id w job Hjob)
    as (-> & _).
  unfold task_outcome, JobStore_is_dataclass. cbn [negb andb].
  split; [reflexivity|].
  destruct (early_failure out job); [|destruct (rendered out)]; cbn [raises];
    (split; [split; [intros H; discriminate H || now split
                    | intros [H1 H2]; discriminate || reflexivity]
            | intros H; reflexivity || destruct H]).
Qed.

Lemma render_task_outcome_witness :
  fst (_process_render_job true (outside (Exited 0)) job1 (submitted demo_scene))
  = Return tt
  /\ (fst (_process_render_job JobStore_is_dataclass (outside (Exited 0)) job1
             (submitted demo_scene)) = Return tt
      <-> early_failure (outside (Exited 0))
            (new_job job1 0 (txt "demo") demo_scene) = None
          /\ rendered (outside (Exited 0)) = false)
  /\ (raises (fst (_process_render_job JobStore_is_dataclass (outside (Exited 0))
                     job1 (submitted demo_scene))) ->
      fst (_process_render_job JobStore_is_dataclass (outside (Exited 0)) job1
             (submitted demo_scene))
      = Raise (TypeError asdict_message)).
Proof.
  apply (@render_task_outcome (outside (Exited 0)) job1 (submitted demo_scene)
           (new_job job1 0 (txt "demo") demo_scene)).
  reflexivity.
Defined.

(** X21.  The render task acts on its own job and its own scratch file
    only: every other job is left as it was, no job is added, dropped or
    moved, and every file of the code directory other than the scratch
    file of the job keeps its content. *)
Theorem render_task_frame (is_dataclass : bool) (out : Outside) (job_id : text)
    (w : World) (job : JobStore) :
  get_job job_id (job_store w) = Some job ->
  let w' := snd (_process_render_job is_dataclass out job_id w) in
  (forall k, k <> job_id -> get_job k (job_store w') = get_job k (job_store w))
  /\ map fst (_jobs (job_store w')) = map fst (_jobs (job_store w))
  /\ (forall path, path <> code_path_of out job ->
        dict_get path (code_dir w') = dict_get path (code_dir w)).
Proof.
  intros Hjob w'. subst w'.
  destruct (@process_render_job_run is_dataclass out job_id w job Hjob)
    as (_ & Hframe & Hkeys).
  split; [exact Hframe|]. split; [exact Hkeys|].
  intros path Hpath.
  destruct (@process_render_job_summary is_dataclass out job_id w job Hjob)
    as (_ & -> & _).
  unfold final_code_dir. destruct (write_error out); [reflexivity|].
  destruct (deletes_scratch is_dataclass out job).
  - rewrite dict_get_pop_other by congruence.
    apply dict_get_set_other. congruence.
  - apply dict_get_set_other. congruence.
Qed.

Lemma render_task_frame_witness :
  let w := snd (create_render_job (txt "job-2") 1 (txt "other") helper_only
                  (submitted demo_scene)) in
  let w' := snd (_process_render_job JobStore_is_dataclass (outside (Exited 0))
                   job1 w) in
  (forall k, k <> job1 -> get_job k (job_store w') = get_job k (job_store w))
  /\ map fst (_jobs (job_store w')) = map fst (_jobs (job_store w))
  /\ (forall path,
        path <> code_path_of (outside (Exited 0))
                  (new_job job1 0 (txt "demo") demo_scene) ->
        dict_get path (code_dir w') = dict_get path (code_dir w)).
Proof.
  intros w.
  apply (@render_task_frame JobStore_is_dataclass (outside (Exited 0)) job1 w
           (new_job job1 0 (txt "demo") demo_scene)).
  reflexivity.
Defined.

End TaskFacts.

Section RouteFacts.
Import PyStr Validation Store Render RenderSpec TaskSpec StrSpec.

(** X22.  The render route validates the file name, then the code, and
    creates the job only when both pass.  A request it refuses is
    answered with the error of the check that failed, that of the file
    name when both are invalid; it leaves the store and the files as they
    were and adds one line to the log, the validation failure.  A request
    it accepts is answered with the identifier and the status [queued];
    the job is stored under that identifier, queued, with the sanitised
    name (which holds no dot and no slash) and the stripped code; no
    other job and no file changes, and three lines are logged: the
    request, the job added to the store, the job created. *)
Theorem render_animation_spec (job_id : text) (current_time : Z)
    (filename code : text) (w : World) :
  let result := Routes.render_animation job_id current_time filename code w in
  let refused e :=
    fst result = Return (Raise e)
    /\ job_store (snd result) = job_store w
    /\ code_dir (snd result) = code_dir w
    /\ logged (snd result) = logged w ++ [RenderValidationFailed e] in
  match validate_filename filename, validate_code code with
  | Raise e, _ => refused (InvalidFilename e)
  | Return _, Raise e => refused (InvalidCode e)
  | Return name, Return checked =>
      fst result
      = Return (Return {| Routes.jobId := job_id; Routes.status := queued;
                          Routes.videoUrl := None; Routes.error := None |})
      /\ get_job job_id (job_store (snd result))
         = Some (new_job job_id current_time name checked)
      /\ checked = strip code
      /\ free_of "." name /\ free_of "/" name
      /\ (forall k, k <> job_id ->
            get_job k (job_store (snd result)) = get_job k (job_store w))
      /\ _job_history (job_store (snd result)) = _job_history (job_store w)
      /\ code_dir (snd result) = code_dir w
      /\ logged (snd result)
         = logged w ++ [RenderRequest name; JobAdded job_id;
                        CreatedRenderJob job_id name]
  end.
Proof.
  intros result refused. subst result refused. unfold Routes.render_animation.
  destruct (validate_filename filename) as [e|name] eqn:Hname;
    [repeat split|].
  pose proof (validate_code_cases code) as Hcode. cbv zeta in Hcode.
  destruct (validate_code code) as [e|checked]; [repeat split|].
  destruct Hcode as (Hchecked & _).
  unfold create_render_job, on_store, add_job, logger, bind, ret.
  cbn [fst snd job_store code_dir logged id _job_history].
  split; [reflexivity|]. split; [apply get_job_set_eq|].
  split; [exact Hchecked|].
  split; [now apply (returned_name_free filename Hname)|].
  split; [now apply (returned_name_free filename Hname)|].
  split.
  { intros k Hk. unfold get_job. cbn [_jobs].
    apply dict_get_set_other. congruence. }
  split; [reflexivity|]. split; [reflexivity|].
  rewrite <- !app_assoc. reflexivity.
Qed.

End RouteFacts.

(** ** Which class is rendered *)

Section EntryFacts.
Import PyStr Re ReSpec SceneSpec Render EntrySpec.

(** [re.search] returns the occurrence that starts first. *)
Lemma search_from_leftmost r : forall s pre cu' s',
  search_from r (advance_over pre origin) s = Some (cu', s') ->
  exists mid tail, s = mid ++ tail
    /\ matches r (advance_over (pre ++ mid) origin) tail cu' s'
    /\ forall mid' tail', s = mid' ++ tail' ->
         (length mid' < length mid)%nat ->
         match_here r (advance_over (pre ++ mid') origin) tail' = None.
Proof.
  induction s as [|c s IH]; intros pre cu' s' H; simpl in H.
  - destruct (match_here r (advance_over pre origin) []) as [m|] eqn:E;
      [|discriminate].
    injection H as ->. exists [], [].
    split; [reflexivity|].
    split; [rewrite app_nil_r; now apply match_here_sound|].
    intros mid' tail' _ Hlen. cbn in Hlen. lia.
  - destruct (match_here r (advance_over pre origin) (c :: s)) as [m|] eqn:E.
    + injection H as ->. exists [], (c :: s).
      split; [reflexivity|].
      split; [rewrite app_nil_r; now apply match_here_sound|].
      intros mid' tail' _ Hlen. cbn in Hlen. lia.
    + rewrite <- advance_over_snoc in H.
      apply IH in H as (mid & tail & -> & Hm & Hleft).
      exists (c :: mid), tail. split; [reflexivity|].
      split; [now rewrite <- app_assoc in Hm|].
      intros [|c' mid'] tail' Hs Hlen.
      * cbn [app] in Hs. subst tail'. now rewrite app_nil_r.
      * cbn [app] in Hs. injection Hs as <- Hs.
        specialize (Hleft mid' tail' Hs). rewrite <- app_assoc in Hleft.
        apply Hleft. cbn [length] in Hlen. lia.
Qed.

Lemma search_group_leftmost r code name :
  search_group r code = Some name ->
  exists pre tail cu' rest,
    code = pre ++ tail
    /\ matches r (advance_over pre origin) tail cu' rest
    /\ cap cu' = Some name
    /\ forall pre' tail' cu'' rest',
         code = pre' ++ tail' ->
         matches r (advance_over pre' origin) tail' cu'' rest' ->
         (length pre <= length pre')%nat.
Proof.
  unfold search_group, search.
  destruct (search_from r origin code) as [[cu' rest]|] eqn:E; [|discriminate].
  intros Hcap.
  apply search_from_leftmost with (pre := []) in E as (pre & tail & -> & Hm & Hl).
  exists pre, tail, cu', rest. split; [reflexivity|]. split; [exact Hm|].
  split; [exact Hcap|].
  intros pre' tail' cu'' rest' Hs Hm'.
  destruct (le_lt_dec (length pre) (length pre')) as [Hle|Hlt]; [exact Hle|].
  specialize (Hl pre' tail' Hs Hlt). cbn [app] in Hl.
  apply match_here_complete in Hm' as [m Hm']. congruence.
Qed.

(** X23.  When the code declares several classes, the one rendered is
    the first in the text: the first class that derives from [Scene] when
    there is one, and otherwise the first class declared with a
    parenthesis. *)
Theorem first_declared_class_is_rendered (code name : text) :
  _get_scene_class_name code = Return name ->
  ((exists n, declares_scene code n) ->
   exists pre, scene_at code pre name
     /\ forall pre' n', scene_at code pre' n' ->
          (length pre <= length pre')%nat)
  /\ ((forall n, ~ declares_scene code n) ->
      exists pre, class_at code pre name
        /\ forall pre' n', class_at code pre' n' ->
             (length pre <= length pre')%nat).
Proof.
  unfold _get_scene_class_name. intros H. split.
  - intros (n & Hn). apply scene_search_complete in Hn as (found & Hf).
    rewrite Hf in H. injection H as ->.
    apply search_group_leftmost in Hf
      as (pre & tail & cu' & rest & -> & Hm & Hc & Hleft).
    exists pre. split.
    + apply scene_pattern_inv in Hm
        as (ws1 & n' & ws2 & ws3 & ws4 & -> & ? & ? & ? & ? & ? & ? & ? & Hc').
      rewrite Hc' in Hc. injection Hc as ->.
      exists ws1, ws2, ws3, ws4, rest. repeat split; auto.
    + intros pre' n' (ws1 & ws2 & ws3 & ws4 & post & Hs & ? & ? & ? & ? & ? & ? & ?).
      destruct (scene_pattern_intro (advance_over pre' origin) (ws1 := ws1)
                  (name := n') (ws2 := ws2) (ws3 := ws3) (ws4 := ws4) post)
        as (cu'' & Hm'); auto.
      eapply Hleft; [exact Hs | exact Hm'].
  - intros Hnone.
    destruct (search_group scene_pattern code) as [found|] eqn:Hs.
    { apply scene_search_sound in Hs. now apply Hnone in Hs. }
    destruct (search_group any_class_pattern code) as [found|] eqn:Hf;
      [|discriminate].
    injection H as ->.
    apply search_group_leftmost in Hf
      as (pre & tail & cu' & rest & -> & Hm & Hc & Hleft).
    exists pre. split.
    + apply any_class_pattern_inv in Hm
        as (ws1 & n' & ws2 & -> & ? & ? & ? & ? & ? & Hc').
      rewrite Hc' in Hc. injection Hc as ->.
      exists ws1, ws2, rest. repeat split; auto.
    + intros pre' n' (ws1 & ws2 & post & Hs' & ? & ? & ? & ? & ?).
      destruct (any_class_pattern_intro (advance_over pre' origin) (ws1 := ws1)
                  (name := n') (ws2 := ws2) post)
        as (cu'' & Hm'); auto.
      eapply Hleft; [exact Hs' | exact Hm'].
Qed.

Lemma first_declared_class_is_rendered_witness :
  ((exists n, declares_scene two_scenes n) ->
   exists pre, scene_at two_scenes pre (txt "Intro")
     /\ forall pre' n', scene_at two_scenes pre' n' ->
          (length pre <= length pre')%nat)
  /\ ((forall n, ~ declares_scene two_scenes n) ->
      exists pre, class_at two_scenes pre (txt "Intro")
        /\ forall pre' n', class_at two_scenes pre' n' ->
             (length pre <= length pre')%nat).
Proof.
  apply (@first_declared_class_is_rendered two_scenes (txt "Intro")).
  vm_compute. reflexivity.
Defined.

End EntryFacts.

(** ** Polling a job *)

Section PollingFacts.
Import PyStr Store Render RenderSpec TaskSpec StrSpec Polling PathSpec Samples.

Lemma split_on_cons sep s : exists part parts, split_on sep s = part :: parts.
Proof.
  induction s as [|c s (part & parts & IH)]; cbn [split_on]; [now eexists _, _|].
  destruct (Ascii.eqb c sep); [now eexists _, _|]. rewrite IH. now eexists _, _.
Qed.

Lemma split_on_free sep : forall s part,
  In part (split_on sep s) -> free_of sep part.
Proof.
  induction s as [|c s IH]; intros part; cbn [split_on].
  - intros [<-|[]]. reflexivity.
  - destruct (Ascii.eqb_spec c sep) as [->|Hc].
    + intros [<-|H]; [reflexivity | now apply IH].
    + destruct (split_on sep s) as [|p ps]; intros [<-|H].
      * apply free_of_cons. now split.
      * destruct H.
      * apply free_of_cons. split; [exact Hc|]. apply IH. now left.
      * apply IH. now right.
Qed.

Lemma split_on_app sep b : forall a,
  split_on sep (a ++ sep :: b) = split_on sep a ++ split_on sep b.
Proof.
  induction a as [|c a IH]; cbn [app split_on].
  - now rewrite Ascii.eqb_refl.
  - destruct (Ascii.eqb c sep); [now rewrite IH|]. rewrite IH.
    destruct (split_on_cons sep a) as (p & ps & ->). reflexivity.
Qed.

Lemma split_on_whole sep : forall s, free_of sep s -> split_on sep s = [s].
Proof.
  induction s as [|c s IH]; intros H; [reflexivity|].
  apply free_of_cons in H as [Hc H]. cbn [split_on].
  destruct (Ascii.eqb_spec c sep) as [E|_]; [congruence|]. now rewrite IH.
Qed.

Lemma last_in {A} (d : A) : forall l, List.last l d = d \/ In (List.last l d) l.
Proof.
  induction l as [|x [|y l] IH]; [now left | right; now left |].
  destruct IH as [IH|IH]; [left; exact IH | right; right; exact IH].
Qed.

(** The name of a path holds no slash. *)
Lemma path_name_free p : free_of "/" (path_name p).
Proof.
  unfold path_name. set (parts := List.filter _ (split_on "/" p)).
  destruct (@last_in text [] parts) as [E|H]; [now rewrite E|].
  subst parts. apply filter_In in H as [H _]. now apply split_on_free in H.
Qed.

(** The name of a file in a directory is the name of the file. *)
Lemma path_name_leaf dir leaf :
  free_of "/" leaf -> leaf <> [] -> leaf <> txt "." ->
  path_name (dir ++ txt "/" ++ leaf) = leaf.
Proof.
  intros Hfree Hne Hdot. unfold path_name. cbn [txt list_ascii_of_string app].
  rewrite split_on_app. rewrite split_on_whole with (s := leaf) by exact Hfree.
  rewrite List.filter_app. cbn [List.filter].
  replace (is_empty leaf) with false
    by (destruct leaf; [congruence | reflexivity]).
  replace (text_eqb leaf ["."%char]) with false
    by (symmetry; now apply text_eqb_neq).
  cbn [orb negb]. apply last_last.
Qed.

Lemma idle_parts t :
  idle t ->
  Forall (fun part => part = [] \/ part = txt ".") (split_on "/" t)
  /\ Forall (fun part => part = [] \/ part = txt ".")
       (split_on "/" ("."%char :: t)).
Proof.
  induction 1 as [|t _ [IH1 IH2]|t _ [IH1 IH2]].
  - split; (constructor; [|constructor]); [now left | now right].
  - split.
    + cbn [split_on]. change (Ascii.eqb "/" "/") with true. cbv iota.
      constructor; [now left | exact IH1].
    + change ("."%char :: "/"%char :: t) with (txt "." ++ "/"%char :: t).
      rewrite split_on_app. apply Forall_app. split; [|exact IH1].
      constructor; [now right | constructor].
  - split.
    + change (split_on "/" ("/"%char :: "."%char :: t))
        with ([] :: split_on "/" ("."%char :: t)).
      constructor; [now left | exact IH2].
    + change ("."%char :: "/"%char :: "."%char :: t)
        with (txt "." ++ "/"%char :: "."%char :: t).
      rewrite split_on_app. apply Forall_app. split; [|exact IH2].
      constructor; [now right | constructor].
Qed.

Lemma filter_idle_parts parts :
  Forall (fun part => part = [] \/ part = txt ".") parts ->
  List.filter (fun part => negb (is_empty part || text_eqb part (txt "."))) parts
  = [].
Proof.
  induction 1 as [|part parts [->| ->] _ IH]; [reflexivity | exact IH | exact IH].
Qed.

(** The parts of [name ++ after], for a component [name] and what may
    follow it: the name, then parts that do not count. *)
Lemma split_on_component name after :
  free_of "/" name -> idle after ->
  exists parts,
    split_on "/" (name ++ after) = name :: parts
    /\ Forall (fun part => part = [] \/ part = txt ".") parts.
Proof.
  intros Hfree Hidle. destruct Hidle as [|t Ht|t Ht].
  - rewrite app_nil_r, split_on_whole by exact Hfree. now exists [].
  - rewrite split_on_app, split_on_whole by exact Hfree.
    eexists. split; [reflexivity|]. now apply idle_parts.
  - rewrite split_on_app, split_on_whole by exact Hfree.
    eexists. split; [reflexivity|]. now apply idle_parts.
Qed.

(** [path_name] computes the final component ... *)
Lemma final_component_path_name path name :
  final_component path name -> path_name path = name.
Proof.
  unfold path_name.
  intros [(-> & after & Hidle & [-> | ->])
         |(Hne & Hdot & Hfree & before & after & -> & Hidle & Hbefore)].
  - now rewrite filter_idle_parts by now apply idle_parts.
  - now rewrite filter_idle_parts by now apply idle_parts.
  - destruct (split_on_component Hfree Hidle) as (parts & Hsplit & Hparts).
    assert (List.filter
              (fun part => negb (is_empty part || text_eqb part (txt ".")))
              (split_on "/" (name ++ after)) = [name]) as Hkept.
    { rewrite Hsplit. cbn [List.filter].
      replace (is_empty name) with false
        by (destruct name; [congruence | reflexivity]).
      replace (text_eqb name (txt ".")) with false
        by (symmetry; now apply text_eqb_neq).
      cbn [orb negb]. now rewrite filter_idle_parts. }
    destruct Hbefore as [->|(b & ->)].
    + cbn [app]. now rewrite Hkept.
    + rewrite <- app_assoc.
      change (txt "/" ++ name ++ after) with ("/"%char :: name ++ after).
      rewrite split_on_app, List.filter_app, Hkept. apply last_last.
Qed.

(** ... and every path has one. *)
Lemma path_name_final_component path : final_component path (path_name path).
Proof.
  unfold path_name.
  assert (forall parts,
            parts <> [] -> Forall (free_of "/") parts ->
            forall path,
              split_on "/" path = parts ->
              final_component path
                (List.last
                   (List.filter
                      (fun part => negb (is_empty part || text_eqb part (txt ".")))
                      parts) [])) as H.
  2:{ destruct (split_on_cons "/" path) as (part & parts & Hsplit).
      apply H; [rewrite Hsplit; discriminate | | reflexivity].
      apply List.Forall_forall. intros x Hx. now apply split_on_free in Hx. }
  clear path. induction parts as [|x rest IH]; [congruence|]. intros _ Hfree path.
  apply List.Forall_cons_iff in Hfree as [Hx Hrest].
  destruct rest as [|y rest].
  - intros Hsplit.
    assert (path = x) as ->.
    { clear -Hsplit. revert x Hsplit.
      induction path as [|c path IHp]; intros x; cbn [split_on].
      - now intros [= <-].
      - destruct (split_on_cons "/" path) as (p & ps & Hp). rewrite Hp.
        destruct (Ascii.eqb c "/"); [discriminate|].
        intros [= <- ->]. f_equal. now apply IHp. }
    cbn [List.filter].
    destruct (is_empty x || text_eqb x (txt ".")) eqn:E; cbn [negb List.last].
    + left. split; [reflexivity|]. exists []. split; [constructor|].
      apply orb_true_iff in E as [E|E].
      * destruct x; [now left | discriminate].
      * apply text_eqb_eq in E as ->. now right.
    + right. apply orb_false_iff in E as [E1 E2].
      split; [destruct x; [discriminate | congruence]|].
      split; [intros ->; discriminate|]. split; [exact Hx|].
      exists [], []. rewrite app_nil_r. repeat split; [constructor | now left].
  - intros Hsplit.
    assert (exists tail, path = x ++ "/"%char :: tail
                         /\ split_on "/" tail = y :: rest) as (tail & -> & Htail).
    { clear -Hsplit Hx. revert x Hx Hsplit.
      induction path as [|c path IHp]; intros x Hx; cbn [split_on];
        [discriminate|].
      destruct (Ascii.eqb_spec c "/") as [->|Hc].
      - intros [= <- Hs]. now exists path.
      - destruct (split_on_cons "/" path) as (p & ps & Hp). rewrite Hp.
        intros [= <- ->]. apply free_of_cons in Hx as [_ Hx].
        destruct (IHp p Hx Hp) as (tail & -> & Htail). now exists tail. }
    specialize (IH ltac:(discriminate) Hrest tail Htail).
    set (keep := fun part => negb (is_empty part || text_eqb part (txt "."))) in *.
    destruct IH as [(Elast & after & Hidle & Hpath)
                   |(Hne & Hdot & Hfree & before & after & -> & Hidle & Hbefore)].
    + assert (List.filter keep (y :: rest) = []) as Hnone.
      { destruct (List.filter keep (y :: rest)) as [|z zs] eqn:F; [reflexivity|].
        exfalso.
        assert (In (List.last (z :: zs) []) (z :: zs)) as Hin.
        { destruct (@last_in text [] (z :: zs)) as [E|Hin]; [|exact Hin].
          assert (In z (z :: zs)) as Hz by now left.
          rewrite <- F in Hz. apply filter_In in Hz as [_ Hz].
          destruct (exists_last (l := z :: zs) ltac:(discriminate))
            as (front & w & Hw).
          rewrite Hw, last_last in E. subst w.
          assert (In [] (z :: zs)) as H0 by (rewrite Hw; apply in_app_iff; right; now left).
          rewrite <- F in H0. apply filter_In in H0 as [_ H0]. discriminate. }
        rewrite Elast in Hin. rewrite <- F in Hin.
        apply filter_In in Hin as [_ Hin]. discriminate. }
      change (List.filter keep (x :: y :: rest))
        with (if keep x then x :: List.filter keep (y :: rest)
              else List.filter keep (y :: rest)).
      rewrite Hnone.
      assert (idle ("/"%char :: tail)) as Hidle'.
      { destruct Hpath as [->| ->]; now constructor. }
      destruct (keep x) eqn:E; cbn [List.last].
      * right. unfold keep in E. apply negb_true_iff, orb_false_iff in E as [E1 E2].
        split; [destruct x; [discriminate | congruence]|].
        split; [intros ->; discriminate|]. split; [exact Hx|].
        exists [], ("/"%char :: tail). repeat split; [exact Hidle' | now left].
      * left. split; [reflexivity|]. exists ("/"%char :: tail).
        split; [exact Hidle'|].
        unfold keep in E. apply negb_false_iff, orb_true_iff in E as [E|E].
        -- destruct x; [now left | discriminate].
        -- apply text_eqb_eq in E as ->. now right.
    + assert (List.last (List.filter keep (x :: y :: rest)) []
              = List.last (List.filter keep (y :: rest)) []) as ->.
      { change (List.filter keep (x :: y :: rest))
          with (if keep x then x :: List.filter keep (y :: rest)
                else List.filter keep (y :: rest)).
        destruct (keep x); [|reflexivity].
        destruct (List.filter keep (y :: rest)); [now destruct Hne | reflexivity]. }
      right. split; [exact Hne|]. split; [exact Hdot|]. split; [exact Hfree|].
      exists (x ++ "/"%char :: before), after.
      split; [now rewrite <- app_assoc|]. split; [exact Hidle|].
      right. destruct Hbefore as [->|(b & ->)].
      * exists x. reflexivity.
      * exists (x ++ "/"%char :: b). now rewrite <- app_assoc.
Qed.

(** X24.  What a status poll answers.  A job that is not stored gives
    no answer (the route turns that into 404).  For a stored job the
    answer carries its identifier, status and error message.  It carries
    a video address exactly when the job is ready and has a video path
    that is not empty; the address is [/static/videos/] followed by the
    final component of that path: the last stretch between slashes that
    is neither empty nor a single dot (nothing, if the path has none).
    That component holds no slash; it is determined by the path. *)
Theorem get_job_status_spec (job_id : text) (store : EnhancedJobStore) :
  (get_job_status job_id store = None <-> get_job job_id store = None)
  /\ forall answer, get_job_status job_id store = Some answer ->
       exists job,
         get_job job_id store = Some job
         /\ Routes.jobId answer = id job
         /\ Routes.status answer = status job
         /\ Routes.error answer = error_message job
         /\ (status job <> ready -> Routes.videoUrl answer = None)
         /\ (video_path job = None -> Routes.videoUrl answer = None)
         /\ (video_path job = Some [] -> Routes.videoUrl answer = None)
         /\ forall path,
              status job = ready -> video_path job = Some path -> path <> [] ->
              exists name,
                Routes.videoUrl answer = Some (txt "/static/videos/" ++ name)
                /\ final_component path name
                /\ free_of "/" name
                /\ forall other, final_component path other -> other = name.
Proof.
  unfold get_job_status.
  destruct (get_job job_id store) as [job|]; [|split; [tauto | discriminate]].
  split; [split; discriminate|].
  intros answer [= <-]. exists job. cbn [Routes.jobId Routes.status Routes.error
                                         Routes.videoUrl].
  split; [reflexivity|]. split; [reflexivity|]. split; [reflexivity|].
  split; [reflexivity|].
  split; [intros H; destruct (status job); try reflexivity; congruence|].
  split; [intros ->; now destruct (status job)|].
  split; [intros ->; now destruct (status job)|].
  intros path -> -> Hpath. destruct path as [|c p]; [congruence|].
  exists (path_name (c :: p)).
  split; [reflexivity|]. split; [apply path_name_final_component|].
  split; [apply path_name_free|].
  intros other Hother. symmetry. now apply final_component_path_name.
Qed.

Lemma final_status is_dataclass out job :
  status (final_record is_dataclass out job)
  = if match early_failure out job with
       | Some _ => false
       | None => rendered out && is_dataclass
       end
    then ready else error.
Proof.
  unfold final_record, early_failure. cbv zeta.
  rewrite code_updated_1.
  destruct (write_error out); [reflexivity|].
  destruct (_get_scene_class_name (code job)); [reflexivity|].
  destruct (rendered out), is_dataclass; reflexivity.
Qed.

(** X25.  What a poll answers once the render task of the job is over.
    In the program as it is the answer never carries a video address: the
    job is in error, with a message, also when the video was rendered.
    Were the records dataclass instances, the answer would carry the
    address of the video, [/static/videos/] followed by the name of the
    output file, exactly when the video was rendered. *)
Theorem poll_after_task (out : Outside) (job_id : text) (w : World)
    (job : JobStore) :
  get_job job_id (job_store w) = Some job ->
  free_of "/" (filename job) ->
  free_of "/" (video_stamp out) ->
  let poll is_dataclass :=
    get_job_status job_id
      (job_store (snd (_process_render_job is_dataclass out job_id w))) in
  let done :=
    match early_failure out job with
    | Some _ => false
    | None => rendered out
    end in
  (exists answer,
     poll JobStore_is_dataclass = Some answer
     /\ Routes.status answer = error
     /\ Routes.videoUrl answer = None
     /\ Routes.error answer <> None)
  /\ (exists answer,
        poll true = Some answer
        /\ Routes.status answer = (if done then ready else error)
        /\ Routes.videoUrl answer
           = if done
             then Some (txt "/static/videos/" ++ filename job ++ txt "_"
                          ++ video_stamp out ++ txt ".mp4")
             else None).
Proof.
  intros Hjob Hname Hstamp poll done. subst poll done.
  destruct (@process_render_job_summary JobStore_is_dataclass out job_id w job
              Hjob) as (Hget & _).
  destruct (@process_render_job_summary true out job_id w job Hjob)
    as (Hget' & _).
  cbv zeta in Hget, Hget'. unfold get_job_status. rewrite Hget, Hget'.
  split.
  - eexists. split; [reflexivity|].
    cbn [Routes.status Routes.videoUrl Routes.error].
    rewrite final_status. unfold JobStore_is_dataclass. rewrite andb_false_r.
    assert ((if match early_failure out job with
                | Some _ => false
                | None => false
                end then ready else error) = error) as ->
      by now destruct (early_failure out job).
    split; [reflexivity|]. split; [reflexivity|].
    unfold final_record, early_failure. cbv zeta. rewrite code_updated_1.
    destruct (write_error out); [discriminate|].
    destruct (_get_scene_class_name (code job)); discriminate.
  - eexists. split; [reflexivity|].
    cbn [Routes.status Routes.videoUrl]. rewrite final_status, andb_true_r.
    split; [reflexivity|].
    destruct (early_failure out job) eqn:Early.
    + cbv iota. reflexivity.
    + destruct (rendered out) eqn:Hr; [|reflexivity].
      unfold final_record. cbv zeta.
      assert (early_failure out (updated (utcnow out) [set_status rendering] job)
              = None) as -> by exact Early.
      rewrite Hr. cbn [video_path updated fold_left setattr].
      unfold video_path_of, path_in. cbn [filename updated fold_left setattr].
      assert (path_name
                (txt "app/storage/videos" ++ txt "/"
                   ++ (filename job ++ txt "_" ++ video_stamp out ++ txt ".mp4"))
              = filename job ++ txt "_" ++ video_stamp out ++ txt ".mp4") as Hleaf.
      { apply path_name_leaf.
        - apply free_of_app. split; [exact Hname|].
          apply free_of_app. split; [reflexivity|].
          apply free_of_app. split; [exact Hstamp | reflexivity].
        - destruct (filename job); discriminate.
        - intros E. apply (f_equal (@length ascii)) in E.
          rewrite !length_app in E. cbn in E. lia. }
      cbn [txt list_ascii_of_string app] in Hleaf |- *.
      now rewrite Hleaf.
Qed.

Lemma poll_after_task_witness :
  let out := outside (Exited 0) in
  let poll is_dataclass :=
    get_job_status job1
      (job_store (snd (_process_render_job is_dataclass out job1
                         (submitted demo_scene)))) in
  let done :=
    match early_failure out (new_job job1 0 (txt "demo") demo_scene) with
    | Some _ => false
    | None => rendered out
    end in
  (exists answer,
     poll JobStore_is_dataclass = Some answer
     /\ Routes.status answer = error
     /\ Routes.videoUrl answer = None
     /\ Routes.error answer <> None)
  /\ (exists answer,
        poll true = Some answer
        /\ Routes.status answer = (if done then ready else error)
        /\ Routes.videoUrl answer
           = if done
             then Some (txt "/static/videos/" ++ txt "demo" ++ txt "_"
                          ++ txt "20250823_132820" ++ txt ".mp4")
             else None).
Proof.
  apply (@poll_after_task (outside (Exited 0)) job1 (submitted demo_scene)
           (new_job job1 0 (txt "demo") demo_scene));
    reflexivity.
Defined.

End PollingFacts.

(** ** The cleanup route *)

Section CleanupFacts.
Import PyStr Validation RateSpec Store StoreSpec LimiterSpec.
Open Scope Z_scope.

(** X26.  The cleanup route, whatever age it is asked for, works with
    an age between 1 and 168 hours.  With the clock in the range of
    [datetime] it never answers 500: it reports the number of jobs it
    removed, and it has removed exactly the jobs created more than that
    many hours before, so a job created within the last hour is never
    removed; and the sweep of the limiter it makes changes no answer of
    the limiter to any later request, the windows of the middleware
    being shorter than an hour. *)
Theorem cleanup_route_spec (utcnow current_time max_age_hours : Z)
    (store : EnhancedJobStore) (storage : gmap text (list Z)) :
  List.NoDup (map fst (_jobs store)) ->
  0 <= utcnow <= datetime_max ->
  let age := Z.min (Z.max 1 max_age_hours) 168 in
  let result :=
    Monitoring.cleanup_old_jobs utcnow current_time max_age_hours store storage in
  let store' := snd (fst (fst result)) in
  let storage' := snd (fst result) in
  fst (fst (fst result))
  = Monitoring.CleanupCompleted age
      (length (_jobs store) - length (_jobs store'))%nat
  /\ (forall job_id job,
        get_job job_id store = Some job ->
        (older_than utcnow age job -> get_job job_id store' = None)
        /\ (~ older_than utcnow age job -> get_job job_id store' = Some job))
  /\ (forall job_id, get_job job_id store = None -> get_job job_id store' = None)
  /\ (forall job_id job,
        get_job job_id store = Some job ->
        utcnow - created_at job <= hour ->
        get_job job_id store' = Some job)
  /\ (forall times client_ip endpoint,
        Forall (fun t => current_time <= t) times ->
        serve times client_ip endpoint (fst (limit_of endpoint))
          (snd (limit_of endpoint)) storage'
        = serve times client_ip endpoint (fst (limit_of endpoint))
            (snd (limit_of endpoint)) storage).
Proof.
  intros Hnd Hclock age result store' storage'. subst store' storage' result.
  assert (1 <= age <= 168) as Hage by (subst age; lia).
  assert (0 <= age < 2 ^ 21) as Hage' by (change (2 ^ 21) with 2097152; lia).
  destruct (@cleanup_old_jobs_result utcnow age store Hnd) as (lines & Hres).
  destruct (@cleanup_old_jobs_returns utcnow age store) as (count & Hcount);
    [lia | exact Hclock |].
  unfold Monitoring.cleanup_old_jobs. fold age.
  rewrite Hres in Hcount |- *.
  destruct (history_cutoff utcnow age) as [e|cutoff]; [discriminate|].
  cbn [fst snd _jobs].
  assert (Hkept : forall job_id job,
            get_job job_id store = Some job ->
            get_job job_id
              {| _jobs :=
                   List.filter (fun kv => negb (too_old utcnow age (snd kv)))
                     (_jobs store);
                 _job_history :=
                   List.filter (fun record => cutoff <? completed_at record)
                     (_job_history store) |}
            = if age * hour <? utcnow - created_at job then None else Some job).
  { intros job_id job Hget. unfold get_job in *. cbn [_jobs].
    now rewrite kept_jobs, Hget by assumption. }
  split.
  { f_equal.
    pose proof (filter_length_le
                  (fun kv : text * JobStore => too_old utcnow age (snd kv))
                  (_jobs store)).
    lia. }
  split.
  { intros job_id job Hget. rewrite (Hkept job_id job Hget). unfold older_than.
    destruct (Z.ltb_spec (age * hour) (utcnow - created_at job));
      split; intros; [reflexivity | lia | lia | reflexivity]. }
  split.
  { intros job_id Hget. unfold get_job in *. cbn [_jobs].
    now rewrite kept_jobs, Hget by assumption. }
  split.
  { intros job_id job Hget Hyoung. rewrite (Hkept job_id job Hget).
    unfold hour in *.
    destruct (Z.ltb_spec (age * (3600 * 1000000)) (utcnow - created_at job));
      [lia | reflexivity]. }
  intros times client_ip endpoint Htimes.
  apply serve_popped with (cutoff := current_time - age * 3600).
  - apply recorded_sweep.
  - pose proof (limit_of_bounds endpoint) as [_ Hw].
    eapply List.Forall_impl; [|exact Htimes]. intros t Ht. cbv beta in *. lia.
Qed.

Lemma cleanup_route_spec_witness :
  let age := Z.min (Z.max 1 0) 168 in
  let result :=
    Monitoring.cleanup_old_jobs (26 * hour) (26 * 3600) 0 Samples.aged_store ∅ in
  let store' := snd (fst (fst result)) in
  let storage' := snd (fst result) in
  fst (fst (fst result))
  = Monitoring.CleanupCompleted age
      (length (_jobs Samples.aged_store) - length (_jobs store'))%nat
  /\ (forall job_id job,
        get_job job_id Samples.aged_store = Some job ->
        (older_than (26 * hour) age job -> get_job job_id store' = None)
        /\ (~ older_than (26 * hour) age job -> get_job job_id store' = Some job))
  /\ (forall job_id,
        get_job job_id Samples.aged_store = None -> get_job job_id store' = None)
  /\ (forall job_id job,
        get_job job_id Samples.aged_store = Some job ->
        26 * hour - created_at job <= hour ->
        get_job job_id store' = Some job)
  /\ (forall times client_ip endpoint,
        Forall (fun t => 26 * 3600 <= t) times ->
        serve times client_ip endpoint (fst (limit_of endpoint))
          (snd (limit_of endpoint)) storage'
        = serve times client_ip endpoint (fst (limit_of endpoint))
            (snd (limit_of endpoint)) ∅).
Proof.
  apply (@cleanup_route_spec (26 * hour) (26 * 3600) 0 Samples.aged_store ∅).
  - repeat constructor; cbn; intuition discriminate.
  - vm_compute. split; discriminate.
Defined.

End CleanupFacts.
